(** * Relationship prefetch planner (mcp-server/relprefetch.mjs)

    A shallow embedding of the relationship-prefetch planner/executor for
    Maximo OSLC queries and the verification of its specification.

    JavaScript strings are sequences of UTF-16 code units; they are
    modelled as lists of code units ([N]).  The regular expressions of the
    source are kept as regular-expression terms and run by a backtracking
    matcher that follows the ECMAScript matching rules (greedy quantifiers,
    ordered alternatives, capture groups, [lastIndex] scanning), and
    [String.prototype.replace] is modelled with its replacement patterns. *)

From Stdlib Require Import String Ascii NArith ZArith List Bool Lia Sorted.
From stdpp Require Import base option list gmap pretty.

Local Open Scope N_scope.
#[local] Set Warnings "-register-all".

(** ** Strings as code-unit sequences *)

Abbreviation str := (list N).

(** Code units of an ASCII string literal. *)
Definition u (s : string) : str :=
  List.map N_of_ascii (list_ascii_of_string s).
Arguments u : simpl never.

Definition DQUOTE : N := 34.
Definition DOLLAR : N := 36.
Definition AMP : N := 38.
Definition SQUOTE : N := 39.
Definition DOT : N := 46.
Definition BACKSLASH : N := 92.
Definition BACKTICK : N := 96.

Definition str_eqb (a b : str) : bool := bool_decide (a = b).

(** An empty string is falsy; so is a zero [length]. *)
Definition isEmpty {A} (s : list A) : bool :=
  match s with [] => true | _ => false end.

(** ** Character classes of the source's patterns *)

Definition in_range (lo hi c : N) : bool := (lo <=? c) && (c <=? hi).

Definition is_upper (c : N) : bool := in_range 65 90 c.
Definition is_lower (c : N) : bool := in_range 97 122 c.
Definition is_digit (c : N) : bool := in_range 48 57 c.

(** [[A-Za-z_]] *)
Definition is_ident_start (c : N) : bool :=
  is_upper c || is_lower c || (c =? 95).

(** [[A-Za-z0-9_]], which is also the word-character set of [\b] and [\W]. *)
Definition is_word (c : N) : bool :=
  is_ident_start c || is_digit c.

(** [\s], and the characters removed by [String.prototype.trim]: the
    ECMAScript WhiteSpace and LineTerminator code points. *)
Definition is_space (c : N) : bool :=
  in_range 9 13 c || (c =? 32) || (c =? 160) || (c =? 5760)
  || in_range 8192 8202 c || (c =? 8232) || (c =? 8233) || (c =? 8239)
  || (c =? 8287) || (c =? 12288) || (c =? 65279).

Definition ascii_upper (c : N) : N := if is_lower c then c - 32 else c.
Definition ascii_lower (c : N) : N := if is_upper c then c + 32 else c.

(** A pattern character under the [i] flag (without [u]): both characters
    are canonicalised with toUpperCase, and a code unit of 128 or more never
    canonicalises to one below 128, so an ASCII pattern character matches
    exactly its two ASCII cases.  The pattern characters of this program are
    all ASCII. *)
Definition lit_ci (c d : N) : bool := ascii_upper c =? ascii_upper d.

Definition is_char (c d : N) : bool := c =? d.
Definition not_char (c d : N) : bool := negb (c =? d).
Definition not_word (c : N) : bool := negb (is_word c).

(** [String.prototype.toLowerCase] on a text whose letters are ASCII, such
    as the operator text that the detector's pattern matches: the letters
    [A-Z] are mapped, every other code unit is kept.  (The name of the
    root resource, which may hold any letter, is lower-cased by the host's
    mapping, see [Env].) *)
Definition toLowerCase (s : str) : str := List.map ascii_lower s.

Fixpoint trimStart (s : str) : str :=
  match s with
  | c :: t => if is_space c then trimStart t else s
  | [] => []
  end.

Definition trimEnd (s : str) : str := rev (trimStart (rev s)).

(** [String.prototype.trim] *)
Definition trim (s : str) : str := trimEnd (trimStart s).

(** The surrogate code units. *)
Definition is_high_surrogate (c : N) : bool := in_range 55296 56319 c.
Definition is_low_surrogate (c : N) : bool := in_range 56320 57343 c.

(** A text in which every surrogate is half of a pair.
    [encodeURIComponent] throws a [URIError] on any other text. *)
Fixpoint wellFormed (s : str) : bool :=
  match s with
  | [] => true
  | c :: t =>
      if is_high_surrogate c then
        match t with
        | d :: t' => is_low_surrogate d && wellFormed t'
        | [] => false
        end
      else negb (is_low_surrogate c) && wellFormed t
  end.

(** [Array.prototype.join] on strings *)
Fixpoint join (sep : str) (parts : list str) : str :=
  match parts with
  | [] => []
  | [x] => x
  | x :: rest => x ++ sep ++ join sep rest
  end.

(** ** JavaScript values *)

(** The values the planner inspects: parsed JSON, [undefined], and opaque
    host objects (such as the fetch [Response] held by a transport
    envelope).  A number is represented by the two observations the code
    makes of it: its truthiness and its [String(...)] rendering. *)
Inductive JsVal :=
| JUndefined
| JNull
| JBool (b : bool)
| JNum (nonzero : bool) (text : str)
| JStr (s : str)
| JArr (items : list JsVal)
| JObj (fields : list (str * JsVal))
| JHost.

(** ToBoolean *)
Definition truthy (v : JsVal) : bool :=
  match v with
  | JUndefined | JNull => false
  | JBool b => b
  | JNum nz _ => nz
  | JStr s => negb (isEmpty s)
  | JArr _ | JObj _ | JHost => true
  end.

(** [String(v)] *)
Fixpoint toStr (v : JsVal) : str :=
  match v with
  | JUndefined => u "undefined"
  | JNull => u "null"
  | JBool true => u "true"
  | JBool false => u "false"
  | JNum _ text => text
  | JStr s => s
  | JArr items =>
      join (u ",")
        ((fix elems (l : list JsVal) : list str :=
            match l with
            | [] => []
            | x :: t =>
                (match x with
                 | JUndefined | JNull => []
                 | _ => toStr x
                 end) :: elems t
            end) items)
  | JObj _ => u "[object Object]"
  | JHost => u "[object Object]"
  end.

Fixpoint assoc_last {A} (k : str) (l : list (str * A)) : option A :=
  match l with
  | [] => None
  | (k', v) :: t =>
      match assoc_last k t with
      | Some w => Some w
      | None => if str_eqb k k' then Some v else None
      end
  end.

(** [String(n)] of a length or an index. *)
Definition decimal (n : nat) : str := u (pretty n).

(** A length or an index as a number value. *)
Definition numberOf (n : nat) : JsVal :=
  JNum (negb (Nat.eqb n 0)) (decimal n).

(** The index below [n] that a property name denotes: the number whose
    decimal text the name is. *)
Definition indexOf (n : nat) (k : str) : option nat :=
  List.find (fun i => str_eqb (decimal i) k) (seq 0 n).

(** Property read [v?.[k]]: the own properties of a plain object (a later
    duplicate key of a JSON text wins), and the [length] and the index
    properties of a string and of an array.  A property found only on a
    prototype, whose value is a function of the host, reads as
    [undefined] here. *)
Definition getProp (v : JsVal) (k : str) : JsVal :=
  match v with
  | JObj fields => default JUndefined (assoc_last k fields)
  | JStr s =>
      if str_eqb k (u "length") then numberOf (length s)
      else
        match indexOf (length s) k ≫= (fun i => s !! i) with
        | Some c => JStr [c]
        | None => JUndefined
        end
  | JArr items =>
      if str_eqb k (u "length") then numberOf (length items)
      else
        default JUndefined
          (indexOf (length items) k ≫= (fun i => items !! i))
  | _ => JUndefined
  end.

(** [typeof v] is [object] ([null] included, as in JavaScript) *)
Definition typeofObject (v : JsVal) : bool :=
  match v with
  | JNull | JArr _ | JObj _ | JHost => true
  | _ => false
  end.

(** ** Regular expressions *)

(** The constructs the source's patterns use.  Every quantified atom in
    them is a one-character class (whitespace, word characters, or every
    character but the closing quote), so the greedy star is kept on
    classes. *)
Inductive regex :=
| Eps
| Chr (p : N -> bool)
| WordB
| Bol
| Seq (a b : regex)
| Alt (a b : regex)
| StarC (p : N -> bool)
| Grp (n : nat) (a : regex).

Fixpoint seqs (rs : list regex) : regex :=
  match rs with
  | [] => Eps
  | [r] => r
  | r :: rest => Seq r (seqs rest)
  end.

(** Pattern characters taken literally, case-insensitively. *)
Fixpoint Lit (s : str) : regex :=
  match s with
  | [] => Eps
  | [c] => Chr (lit_ci c)
  | c :: t => Seq (Chr (lit_ci c)) (Lit t)
  end.

(** Matcher state: the code unit before the current position, the input
    from the current position on, the current index, and the captures
    closed so far (latest first). *)
Record MState := mkMState {
  ms_prev : option N;
  ms_rest : str;
  ms_idx : nat;
  ms_caps : list (nat * str)
}.

Definition word_before (s : MState) : bool :=
  match ms_prev s with Some c => is_word c | None => false end.

Definition word_after (s : MState) : bool :=
  match ms_rest s with c :: _ => is_word c | [] => false end.

Definition set_cap (n : nat) (s0 s1 : MState) : MState :=
  mkMState (ms_prev s1) (ms_rest s1) (ms_idx s1)
    ((n, take (ms_idx s1 - ms_idx s0) (ms_rest s0)) :: ms_caps s1).

(** Greedy [c*]: take as many as possible, give back one at a time. *)
Fixpoint starC (p : N -> bool) (k : MState -> option MState)
    (prev : option N) (rest : str) (idx : nat) (caps : list (nat * str))
    : option MState :=
  match rest with
  | c :: t =>
      if p c then
        match starC p k (Some c) t (S idx) caps with
        | Some r => Some r
        | None => k (mkMState prev rest idx caps)
        end
      else k (mkMState prev rest idx caps)
  | [] => k (mkMState prev rest idx caps)
  end.

(** Backtracking matcher in continuation-passing style. *)
Fixpoint rmatch (r : regex) (k : MState -> option MState) (s : MState)
    : option MState :=
  match r with
  | Eps => k s
  | Chr p =>
      match ms_rest s with
      | c :: t =>
          if p c then k (mkMState (Some c) t (S (ms_idx s)) (ms_caps s))
          else None
      | [] => None
      end
  | WordB => if xorb (word_before s) (word_after s) then k s else None
  | Bol => match ms_prev s with None => k s | Some _ => None end
  | Seq a b => rmatch a (rmatch b k) s
  | Alt a b =>
      match rmatch a k s with
      | Some x => Some x
      | None => rmatch b k s
      end
  | StarC p => starC p k (ms_prev s) (ms_rest s) (ms_idx s) (ms_caps s)
  | Grp n a => rmatch a (fun s1 => k (set_cap n s s1)) s
  end.

(** The result of a successful [exec]: [index], the index after the match,
    and the captures. *)
Record Match := mkMatch {
  m_index : nat;
  m_end : nat;
  m_caps : list (nat * str)
}.

Fixpoint cap_lookup (n : nat) (caps : list (nat * str)) : option str :=
  match caps with
  | [] => None
  | (n', v) :: t => if Nat.eqb n n' then Some v else cap_lookup n t
  end.

(** [m[n]]: [None] is [undefined] (the group did not participate). *)
Definition group (m : Match) (n : nat) : option str := cap_lookup n (m_caps m).

Definition matchAt (r : regex) (prev : option N) (rest : str) (idx : nat)
    : option Match :=
  match rmatch r Some (mkMState prev rest idx []) with
  | Some s => Some (mkMatch idx (ms_idx s) (ms_caps s))
  | None => None
  end.

(** Try each start index in turn, left to right. *)
Fixpoint scan (r : regex) (prev : option N) (rest : str) (idx : nat)
    : option Match :=
  match matchAt r prev rest idx with
  | Some m => Some m
  | None =>
      match rest with
      | c :: t => scan r (Some c) t (S idx)
      | [] => None
      end
  end.

Definition char_before (w : str) (i : nat) : option N :=
  match i with
  | O => None
  | S j => w !! j
  end.

(** [re.exec(w)] starting the search at [lastIndex]. *)
Definition exec (r : regex) (w : str) (lastIndex : nat) : option Match :=
  if Nat.ltb (length w) lastIndex then None
  else scan r (char_before w lastIndex) (drop lastIndex w) lastIndex.

(** [re.test(w)] for a pattern without the [g] flag. *)
Definition test (r : regex) (w : str) : bool :=
  match exec r w 0 with Some _ => true | None => false end.

(** The loop [while ((m = re.exec(w))) ...] of a [g]-flagged pattern: each
    search starts where the previous match ended.  [fuel] bounds the number
    of iterations. *)
Fixpoint execAll (fuel : nat) (r : regex) (w : str) (lastIndex : nat)
    : list Match :=
  match fuel with
  | O => []
  | S fuel' =>
      match exec r w lastIndex with
      | None => []
      | Some m => m :: execAll fuel' r w (m_end m)
      end
  end.

Definition matched (w : str) (m : Match) : str :=
  take (m_end m - m_index m) (drop (m_index m) w).

Definition digit_val (c : N) : nat := N.to_nat (c - 48).

Definition cap_text (m : Match) (n : nat) : str :=
  default [] (group m n).

(** GetSubstitution: expansion of the replacement patterns [$$], [$&],
    [$`], [$'], [$n] and [$nn] in a replacement string, for a pattern with
    [ncaps] capture groups and no named groups. *)
Fixpoint getSubstitution (ncaps : nat) (w : str) (m : Match) (tpl : str)
    : str :=
  match tpl with
  | [] => []
  | c :: t1 =>
      if negb (c =? DOLLAR) then c :: getSubstitution ncaps w m t1
      else
        match t1 with
        | [] => [c]
        | d :: t2 =>
            if d =? DOLLAR then DOLLAR :: getSubstitution ncaps w m t2
            else if d =? BACKTICK then
              take (m_index m) w ++ getSubstitution ncaps w m t2
            else if d =? AMP then
              matched w m ++ getSubstitution ncaps w m t2
            else if d =? SQUOTE then
              drop (m_end m) w ++ getSubstitution ncaps w m t2
            else if is_digit d then
              let one :=
                let i := digit_val d in
                if Nat.leb 1 i && Nat.leb i ncaps
                then cap_text m i ++ getSubstitution ncaps w m t2
                else c :: d :: getSubstitution ncaps w m t2 in
              match t2 with
              | e :: t3 =>
                  if is_digit e then
                    let i := (10 * digit_val d + digit_val e)%nat in
                    if Nat.ltb ncaps i then one
                    else if Nat.leb 1 i
                    then cap_text m i ++ getSubstitution ncaps w m t3
                    else c :: d :: e :: getSubstitution ncaps w m t3
                  else one
              | [] => one
              end
            else c :: getSubstitution ncaps w m t1
        end
  end.

(** [w.replace(re, replacement)] for a pattern without the [g] flag and a
    string replacement: the first match only. *)
Definition replace (r : regex) (ncaps : nat) (w replacement : str) : str :=
  match exec r w 0 with
  | None => w
  | Some m =>
      take (m_index m) w ++ getSubstitution ncaps w m replacement
        ++ drop (m_end m) w
  end.

(** ** What a pattern matches *)

(** The matches of a pattern, without the order in which the matcher tries
    them: [Matches r s s'] when [r] can take the matcher from state [s] to
    state [s']. *)
Inductive Matches : regex -> MState -> MState -> Prop :=
| M_Eps s : Matches Eps s s
| M_Chr p c t prev idx caps :
    p c = true ->
    Matches (Chr p) (mkMState prev (c :: t) idx caps)
      (mkMState (Some c) t (S idx) caps)
| M_WordB s :
    xorb (word_before s) (word_after s) = true -> Matches WordB s s
| M_Bol s : ms_prev s = None -> Matches Bol s s
| M_Seq a b s1 s2 s3 :
    Matches a s1 s2 -> Matches b s2 s3 -> Matches (Seq a b) s1 s3
| M_AltL a b s s' : Matches a s s' -> Matches (Alt a b) s s'
| M_AltR a b s s' : Matches b s s' -> Matches (Alt a b) s s'
| M_Star0 p s : Matches (StarC p) s s
| M_StarS p c t prev idx caps s' :
    p c = true ->
    Matches (StarC p) (mkMState (Some c) t (S idx) caps) s' ->
    Matches (StarC p) (mkMState prev (c :: t) idx caps) s'
| M_Grp n a s s' : Matches a s s' -> Matches (Grp n a) s (set_cap n s s').

(** [s'] is reached from [s] by reading the text [c]. *)
Definition reads (s s' : MState) (c : str) : Prop :=
  ms_rest s = c ++ ms_rest s'
  /\ ms_idx s' = (ms_idx s + length c)%nat
  /\ ms_prev s' = from_option Some (ms_prev s) (last c).

(** A run of the matcher: the text read and the captures added. *)
Definition Run (s s' : MState) (c : str) (caps : list (nat * str)) : Prop :=
  reads s s' c /\ ms_caps s' = caps ++ ms_caps s.

(** Building a match: [CanRead r c] when [r] can read the text [c] in any
    context. *)
Definition CanRead (r : regex) (c : str) : Prop :=
  forall s rest, ms_rest s = c ++ rest ->
    exists s1, Matches r s s1 /\ ms_rest s1 = rest
      /\ ms_prev s1 = from_option Some (ms_prev s) (last c).

(** The text [x] does not go on with a character of class [p]. *)
Definition stops (p : N -> bool) (x : str) : Prop :=
  match x with c :: _ => p c = false | [] => True end.

(** The matcher state at index [i] of the text [w], before any capture. *)
Definition stateAt (w : str) (i : nat) : MState :=
  mkMState (char_before w i) (drop i w) i [].

(** ** The grammar of a dotted-relation clause *)

Definition is_identifier (s : str) : bool :=
  match s with
  | c :: t => is_ident_start c && forallb is_word t
  | [] => false
  end.

(** Equality of texts up to the case of ASCII letters. *)
Fixpoint ci_eq (a b : str) : bool :=
  match a, b with
  | [], [] => true
  | x :: a', y :: b' => lit_ci x y && ci_eq a' b'
  | _, _ => false
  end.

(** The parts of a clause [rel . field op literal]: the two identifiers,
    the operator text, the quote character of the literal, its inner text,
    and the white space between the parts. *)
Record Clause := mkClause {
  c_rel : str;
  c_ws1 : str;
  c_ws2 : str;
  c_field : str;
  c_ws3 : str;
  c_op : str;
  c_ws4 : str;
  c_quote : N;
  c_inner : str
}.

Definition clauseLiteral (c : Clause) : str :=
  [c_quote c] ++ c_inner c ++ [c_quote c].

Definition clauseText (c : Clause) : str :=
  c_rel c ++ c_ws1 c ++ [DOT] ++ c_ws2 c ++ c_field c ++ c_ws3 c ++ c_op c
    ++ c_ws4 c ++ clauseLiteral c.

(** The operator is [=], [!=] or the word [like] in any case, the latter
    set off from the field by white space. *)
Definition wfOp (c : Clause) : bool :=
  str_eqb (c_op c) (u "=") || str_eqb (c_op c) (u "!=")
  || (ci_eq (u "like") (c_op c) && negb (isEmpty (c_ws3 c))).

Definition wfClause (c : Clause) : bool :=
  is_identifier (c_rel c) && forallb is_space (c_ws1 c)
  && forallb is_space (c_ws2 c) && is_identifier (c_field c)
  && forallb is_space (c_ws3 c) && wfOp c && forallb is_space (c_ws4 c)
  && ((c_quote c =? DQUOTE) || (c_quote c =? SQUOTE))
  && forallb (not_char (c_quote c)) (c_inner c).

(** The captures the detector's pattern records for a clause. *)
Definition detectCaps (c : Clause) : list (nat * str) :=
  [ (4%nat, clauseLiteral c);
    (if c_quote c =? DQUOTE then 5%nat else 6%nat, c_inner c);
    (3%nat, c_op c); (2%nat, c_field c); (1%nat, c_rel c) ].

(** The captures the per-predicate pattern records for a clause. *)
Definition clauseCaps (c : Clause) : list (nat * str) :=
  [ (2%nat, clauseLiteral c); (1%nat, c_op c) ].

(** ** Exceptions *)

(** The outcome of code that can throw; a thrown value is kept as the
    message the planner records for it. *)
Inductive Exc (A : Type) :=
| Ok (a : A)
| Throw (message : str).
Arguments Ok {A} a.
Arguments Throw {A} message.

(** ** The helpers of relprefetch.mjs *)

Section Planner.

(** [JSON.parse]: [None] when it throws.  The JSON grammar is a built-in of
    the host and is a parameter of the model. *)
Variable JSON_parse : str -> option JsVal.

(** [safeJson]: a text that does not parse gives [null]. *)
Definition safeJson (s : str) : JsVal :=
  match JSON_parse s with
  | Some v => v
  | None => JNull
  end.

Definition getOslcMembers (body : JsVal) : list JsVal :=
  if negb (truthy body) || negb (typeofObject body) then []
  else
    let m1 := getProp body (u "member") in
    let m2 := getProp body (u "rdfs:member") in
    let one :=
      match m1 with
      | JArr l => l
      | _ => match m2 with JArr l => l | _ => [] end
      end in
    match one with
    | [JArr inner] => inner
    | _ => one
    end.

Definition normalizeOp (opRaw : str) : str :=
  let op := toLowerCase (trim opRaw) in
  if str_eqb op (u "=") then u "="
  else if str_eqb op (u "!=") then u "!="
  else if str_eqb op (u "like") then u "like"
  else u "=".

(** OSLC uses double quotes for literals; embedded quotes are escaped: the
    global replace puts a backslash before every double quote. *)
Fixpoint escapeWhereString (v : str) : str :=
  match v with
  | [] => []
  | c :: t =>
      if c =? DQUOTE then BACKSLASH :: DQUOTE :: escapeWhereString t
      else c :: escapeWhereString t
  end.

Record Pred := mkPred {
  p_rel : str;
  p_field : str;
  p_op : str;
  p_value : str
}.

(** [[A-Za-z_][A-Za-z0-9_]*] *)
Definition identRe : regex := Seq (Chr is_ident_start) (StarC is_word).

(** [(=|!=|\blike\b)] as group [n] *)
Definition opRe (n : nat) : regex :=
  Grp n (Alt (Lit (u "="))
          (Alt (Lit (u "!="))
               (seqs [WordB; Lit (u "like"); WordB]))).

(** The pattern of [detectRelationshipPredicates], flags [gi]; groups:
    1 rel, 2 field, 3 op, 4 quoted literal, 5 and 6 its inner text. *)
Definition detectRe : regex :=
  seqs [ WordB; Grp 1 identRe; StarC is_space; Chr (is_char DOT);
         StarC is_space; Grp 2 identRe; StarC is_space; opRe 3;
         StarC is_space;
         Grp 4 (Alt (seqs [Chr (is_char DQUOTE);
                           Grp 5 (StarC (not_char DQUOTE));
                           Chr (is_char DQUOTE)])
                    (seqs [Chr (is_char SQUOTE);
                           Grp 6 (StarC (not_char SQUOTE));
                           Chr (is_char SQUOTE)])) ].

Definition predOfMatch (m : Match) : Pred :=
  let rel := trim (cap_text m 1) in
  let field := trim (cap_text m 2) in
  let op := normalizeOp (cap_text m 3) in
  let val :=
    match group m 5 with
    | Some v => v
    | None => default [] (group m 6)
    end in
  mkPred rel field op val.

Definition detectRelationshipPredicates (where_ : str) : list Pred :=
  List.map predOfMatch (execAll (S (length where_)) detectRe where_ 0).

Definition keyClause (rootJoinField k : str) : str :=
  rootJoinField ++ u "=" ++ [DQUOTE] ++ escapeWhereString k ++ [DQUOTE].

Definition buildOrBlock (rootJoinField : str) (keys : list str) : str :=
  let parts := List.map (keyClause rootJoinField) keys in
  u "(" ++ join (u " or ") parts ++ u ")".

(** ** Relationship configuration *)

(** One per-relation entry of a relationships file.  A text field that is
    absent reads as the empty string and a number that is absent as [0]
    (both falsy in the source's [x || default] reads). *)
Record RelCfg := mkRelCfg {
  cfg_relatedOs : str;
  cfg_rootJoinField : str;
  cfg_relatedKeyField : str;
  cfg_relatedSiteField : str;
  cfg_maxKeys : Z;
  cfg_pageSize : Z;
  cfg_select : str
}.

(** The [relationships] object of a file: root resource, then relation
    alias. *)
Abbreviation Relationships := (gmap str (gmap str RelCfg)).

Record Config := mkConfig {
  version : Z;
  relationships : Relationships
}.

Definition joinCfg (os_ field : string) : RelCfg :=
  mkRelCfg (u os_) (u field) (u field) (u "siteid") 50 200 (u field).

Definition builtIn : Config :=
  mkConfig 1
    {[ u "mxapiwo" :=
         {[ u "asset" := joinCfg "mxapiasset" "assetnum";
            u "location" := joinCfg "mxapilocations" "location" ]};
       u "mxapisr" := {[ u "asset" := joinCfg "mxapiasset" "assetnum" ]};
       u "mxapipo" := {[ u "vendor" := joinCfg "mxapivendor" "vendor" ]};
       u "mxapipr" := {[ u "vendor" := joinCfg "mxapivendor" "vendor" ]} ]}.

(** The process environment, the relationships directory and the case
    mapping of the host.  [readRelationships dataDir name] is the
    [relationships] object of the file [name] under
    [dataDir/relationships]: [None] when the file is absent or unreadable,
    does not parse, or holds no object there.  [lowerCase] is
    [String.prototype.toLowerCase] as the host computes it; what it does
    to letters outside ASCII is the host's table and is left open. *)
Record Env := mkEnv {
  DATA_DIR : str;
  MAX_PREFETCH_KEYS : option Z;
  readRelationships : str -> str -> option Relationships;
  lowerCase : str -> str
}.

(** Object spread [{ ...a, ...b }]: the keys of [b] win. *)
Definition spread {V} (a b : gmap str V) : gmap str V := b ∪ a.

Definition loadRelationshipsConfig (env : Env) (dataDir tenantId : str)
    : Config :=
  let tenantFile := u "relationships." ++ tenantId ++ u ".json" in
  let defaultsFile := u "relationships.defaults.json" in
  let defaults := readRelationships env dataDir defaultsFile in
  let tenant := readRelationships env dataDir tenantFile in
  let out := builtIn in
  let out :=
    match defaults with
    | Some rels => mkConfig (version out) (spread (relationships out) rels)
    | None => out
    end in
  let out :=
    match tenant with
    | Some rels => mkConfig (version out) (spread (relationships out) rels)
    | None => out
    end in
  out.

(** ** Transport *)

(** The request descriptor handed to the transport.  The URL is kept as
    its parts: the API base, the related object structure, and the query
    parameters [lean], [oslc.pageSize], [oslc.select] and [oslc.where]
    before percent-encoding. *)
Record Request := mkRequest {
  rq_method : str;
  rq_apiBase : str;
  rq_relatedOs : str;
  rq_lean : str;
  rq_pageSize : Z;
  rq_select : str;
  rq_where : str;
  rq_headers : list (str * str);
  rq_kind : str;
  rq_title : str;
  rq_relatedId : str
}.

(** The arguments of a planning call.  The callbacks are closed over the
    tenant context [t]; a callback that throws gives [Throw] with the
    message of what it threw.  [maximoFetch n] is the answer to the [n]-th
    prefetch of the call. *)
Record Args := mkArgs {
  tenantId : str;
  os : str;
  params : gmap str JsVal;
  defaultSite : str;
  rxId : str;
  maximoFetch : nat -> Request -> Exc JsVal;
  authHeaders : Exc (list (str * str));
  maximoApiBase : Exc str
}.

Definition isNullish (v : JsVal) : bool :=
  match v with JUndefined | JNull => true | _ => false end.

(** The prefetch request of [prefetchKeys], the query and the descriptor. *)
Definition requestOf (a : Args) (headers : list (str * str))
    (apiBase relatedOs relatedWhere select : str) (pageSize : Z)
    (relatedKeyField : str) : Request :=
  mkRequest (u "GET") apiBase relatedOs (u "1")
    (if Z.eqb pageSize 0 then 200%Z else pageSize)
    (if isEmpty select then relatedKeyField else select)
    relatedWhere headers (u "tx_maximo")
    ([8594] ++ u " Maximo OS " ++ relatedOs ++ u " (prefetch)")
    (rxId a).

(** The message of the [URIError] that [encodeURIComponent] throws when
    the name of the related resource holds a lone surrogate. *)
Definition URI_MALFORMED : str := u "URI malformed".

(** The URL is built first, then the headers are asked for, then the
    transport is called. *)
Definition prefetchKeys (a : Args) (callNo : nat)
    (apiBase relatedOs relatedWhere select : str) (pageSize : Z)
    (relatedKeyField : str) : Exc (list str * nat) :=
  if negb (wellFormed relatedOs) then Throw URI_MALFORMED
  else
    match authHeaders a with
    | Throw e => Throw e
    | Ok headers =>
        let req :=
          requestOf a headers apiBase relatedOs relatedWhere select pageSize
            relatedKeyField in
        match maximoFetch a callNo req with
        | Throw e => Throw e
        | Ok r2 =>
            let body :=
              match getProp r2 (u "respText") with
              | JStr respText =>
                  if truthy r2 && typeofObject r2
                     && truthy (getProp r2 (u "r"))
                  then
                    let parsed := safeJson respText in
                    if isNullish parsed then JObj [(u "raw", JStr respText)]
                    else parsed
                  else r2
              | _ => r2
              end in
            let members := getOslcMembers body in
            let keys :=
              List.map (fun x => trim (toStr x))
                (List.filter truthy
                   (List.map (fun it => getProp it relatedKeyField)
                      members)) in
            Ok (keys, length keys)
        end
    end.

(** ** The plan *)

Inductive Mode := ModeNone | ModePrefetch | ModeError.

Inductive PlanStep :=
| StepPrefetch (relationship relatedOs relatedWhere select rootJoinField
    relatedKeyField : str) (maxKeys : Z)
| StepPrefetchResult (relationship : str) (keysReturned keysUsed : nat)
| StepRewrite (relationship replacedWith : str) (note : option str).

(** The [kind] tag of a step. *)
Definition step_kind (s : PlanStep) : str :=
  match s with
  | StepPrefetch _ _ _ _ _ _ _ => u "prefetch"
  | StepPrefetchResult _ _ _ => u "prefetch_result"
  | StepRewrite _ _ _ => u "rewrite"
  end.

Definition step_relationship (s : PlanStep) : str :=
  match s with
  | StepPrefetch r _ _ _ _ _ _ => r
  | StepPrefetchResult r _ _ => r
  | StepRewrite r _ _ => r
  end.

Record PlanError := mkPlanError {
  err_relationship : option str;
  err_message : str
}.

Record Plan := mkPlan {
  mode : Mode;
  detected : list Pred;
  steps : list PlanStep;
  truncated : bool;
  errors : list PlanError
}.

Definition emptyPlan : Plan := mkPlan ModeNone [] [] false [].

(** What the outside can see of a call, in order: each prefetch request
    with the parameter bag as it stands when the request is issued, and
    each write to the bag. *)
Inductive Event :=
| EvFetch (req : Request) (bag : gmap str JsVal)
| EvWrite (key : str) (value : JsVal).

(** The state threaded through the loop over the predicates: the plan
    under construction, the local [mutatedWhere], the caller's parameter
    bag, the number of prefetches issued and the events so far. *)
Record LoopState := mkLoopState {
  ls_plan : Plan;
  ls_where : str;
  ls_params : gmap str JsVal;
  ls_calls : nat;
  ls_trace : list Event
}.

(** The pattern [clauseRe] built for one predicate, flag [i].  The source
    splices [relName] and [p.field] into the pattern text unescaped; both
    are identifiers (the detector produces nothing else), whose characters
    stand for themselves.  Groups: 1 op, 2 quoted literal. *)
Definition clauseRe (relName field : str) : regex :=
  seqs [ WordB; Lit relName; StarC is_space; Chr (is_char DOT);
         StarC is_space; Lit field; StarC is_space; opRe 1; StarC is_space;
         Grp 2 (Alt (seqs [Chr (is_char DQUOTE); StarC (not_char DQUOTE);
                           Chr (is_char DQUOTE)])
                    (seqs [Chr (is_char SQUOTE); StarC (not_char SQUOTE);
                           Chr (is_char SQUOTE)])) ].

(** The guard against a site filter already present in the clause, flag
    [i]: start of text or a non-word character, [siteid], then [=], [!=]
    or the word [in]. *)
Definition siteRe : regex :=
  seqs [ Grp 1 (Alt Bol (Chr not_word)); Lit (u "siteid"); StarC is_space;
         Grp 2 (Alt (Lit (u "="))
                 (Alt (Lit (u "!="))
                      (seqs [WordB; Lit (u "in"); WordB]))) ].

Definition NO_MATCH : str := u "__NO_MATCH__".

Definition falseClauseOf (rootJoinField : str) : str :=
  rootJoinField ++ u "=" ++ [DQUOTE] ++ NO_MATCH ++ [DQUOTE].

(** The operator of the related-resource clause. *)
Definition clauseOp (p : Pred) : str :=
  if str_eqb (p_op p) (u "like") then u "like"
  else if str_eqb (p_op p) (u "!=") then u "!=" else u "=".

(** The clause sent to the related resource for a predicate. *)
Definition predClause (p : Pred) : str :=
  let val := escapeWhereString (p_value p) in
  let op := clauseOp p in
  p_field p ++ u " " ++ op ++ u " " ++ [DQUOTE] ++ val ++ [DQUOTE].

Definition relatedWhereOf (a : Args) (relatedSiteField : str) (p : Pred)
    : str :=
  let relWhere := predClause p in
  if negb (isEmpty (defaultSite a)) && negb (isEmpty relatedSiteField) then
    if negb (test siteRe relWhere) then
      relatedSiteField ++ u "=" ++ [DQUOTE]
        ++ escapeWhereString (defaultSite a) ++ [DQUOTE] ++ u " and "
        ++ relWhere
    else relWhere
  else relWhere.

Definition with_plan (st : LoopState) (pl : Plan) : LoopState :=
  mkLoopState pl (ls_where st) (ls_params st) (ls_calls st) (ls_trace st).

Definition push_step (pl : Plan) (s : PlanStep) : Plan :=
  mkPlan (mode pl) (detected pl) (steps pl ++ [s]) (truncated pl) (errors pl).

Definition push_error (pl : Plan) (e : PlanError) : Plan :=
  mkPlan (mode pl) (detected pl) (steps pl) (truncated pl) (errors pl ++ [e]).

Definition set_mode (pl : Plan) (m : Mode) : Plan :=
  mkPlan m (detected pl) (steps pl) (truncated pl) (errors pl).

Definition set_truncated (pl : Plan) : Plan :=
  mkPlan (mode pl) (detected pl) (steps pl) true (errors pl).

Definition set_detected (pl : Plan) (preds : list Pred) : Plan :=
  mkPlan (mode pl) preds (steps pl) (truncated pl) (errors pl).

(** The local constants computed from a configuration entry. *)
Definition relatedOsOf (relCfg : RelCfg) : str := trim (cfg_relatedOs relCfg).
Definition rootJoinFieldOf (relCfg : RelCfg) : str :=
  trim (cfg_rootJoinField relCfg).
Definition relatedKeyFieldOf (relCfg : RelCfg) : str :=
  trim (cfg_relatedKeyField relCfg).
Definition relatedSiteFieldOf (relCfg : RelCfg) : str :=
  trim (cfg_relatedSiteField relCfg).
Definition selectOf (relCfg : RelCfg) : str :=
  if isEmpty (trim (cfg_select relCfg)) then relatedKeyFieldOf relCfg
  else trim (cfg_select relCfg).
Definition pageSizeOf (relCfg : RelCfg) : Z :=
  if Z.eqb (cfg_pageSize relCfg) 0 then 200%Z else cfg_pageSize relCfg.
Definition maxKeysOf (env : Env) (relCfg : RelCfg) : Z :=
  if negb (Z.eqb (cfg_maxKeys relCfg) 0) then cfg_maxKeys relCfg
  else default 50%Z (MAX_PREFETCH_KEYS env).

(** The guard that skips an entry without a related resource or a join
    field. *)
Definition unusable (relCfg : RelCfg) : bool :=
  isEmpty (relatedOsOf relCfg) || isEmpty (rootJoinFieldOf relCfg)
  || isEmpty (relatedKeyFieldOf relCfg).

(** The call of [prefetchKeys] for predicate [p] under entry [relCfg], as
    the [callNo]-th prefetch. *)
Definition resolve (a : Args) (apiBase : str) (callNo : nat)
    (relCfg : RelCfg) (p : Pred) : Exc (list str * nat) :=
  prefetchKeys a callNo apiBase (relatedOsOf relCfg)
    (relatedWhereOf a (relatedSiteFieldOf relCfg) p) (selectOf relCfg)
    (pageSizeOf relCfg) (relatedKeyFieldOf relCfg).

(** The request that call hands to the transport. *)
Definition requestFor (a : Args) (apiBase : str) (relCfg : RelCfg)
    (p : Pred) (headers : list (str * str)) : Request :=
  requestOf a headers apiBase (relatedOsOf relCfg)
    (relatedWhereOf a (relatedSiteFieldOf relCfg) p) (selectOf relCfg)
    (pageSizeOf relCfg) (relatedKeyFieldOf relCfg).

(** The trace and the call count once that request has been issued (none
    is issued when building the URL or the header provider throws). *)
Definition issue (a : Args) (apiBase : str) (relCfg : RelCfg) (p : Pred)
    (st : LoopState) : nat * list Event :=
  if negb (wellFormed (relatedOsOf relCfg)) then (ls_calls st, ls_trace st)
  else
    match authHeaders a with
    | Ok headers =>
        (S (ls_calls st),
         ls_trace st
           ++ [EvFetch (requestFor a apiBase relCfg p headers)
                 (ls_params st)])
    | Throw _ => (ls_calls st, ls_trace st)
    end.

Definition announce (env : Env) (a : Args) (relCfg : RelCfg) (p : Pred)
    : PlanStep :=
  StepPrefetch (p_rel p) (relatedOsOf relCfg)
    (relatedWhereOf a (relatedSiteFieldOf relCfg) p) (selectOf relCfg)
    (rootJoinFieldOf relCfg) (relatedKeyFieldOf relCfg)
    (maxKeysOf env relCfg).

(** [keys.slice(0, Math.max(0, maxKeys))] *)
Definition usedKeys (maxKeys : Z) (outKeys : list str) : list str :=
  take (Z.to_nat (Z.max 0 maxKeys)) outKeys.

(** The entry [relsForOs?.[relName]]. *)
Definition configured (relsForOs : option (gmap str RelCfg)) (rel : str)
    : option RelCfg :=
  relsForOs ≫= (fun rels => rels !! rel).

(** One iteration of [for (const p of preds)]. *)
Definition loopBody (env : Env) (a : Args)
    (relsForOs : option (gmap str RelCfg)) (apiBase : str)
    (st : LoopState) (p : Pred) : LoopState :=
  let relName := p_rel p in
  match configured relsForOs relName with
  | None => st
  | Some relCfg =>
      let rootJoinField := rootJoinFieldOf relCfg in
      let maxKeys := maxKeysOf env relCfg in
      if unusable relCfg then st
      else
        let pl1 :=
          push_step (set_mode (ls_plan st) ModePrefetch)
            (announce env a relCfg p) in
        let '(calls1, trace1) := issue a apiBase relCfg p st in
        match resolve a apiBase (ls_calls st) relCfg p with
        | Throw e =>
            mkLoopState
              (push_error pl1 (mkPlanError (Some relName) e))
              (ls_where st) (ls_params st) calls1 trace1
        | Ok (outKeys, _) =>
            let keys := usedKeys maxKeys outKeys in
            let pl2 :=
              if Nat.ltb (length keys) (length outKeys)
              then set_truncated pl1 else pl1 in
            let pl3 :=
              push_step pl2
                (StepPrefetchResult relName (length outKeys) (length keys)) in
            if isEmpty keys then
              let falseClause := falseClauseOf rootJoinField in
              mkLoopState
                (push_step pl3
                   (StepRewrite relName falseClause
                      (Some (u "no related matches"))))
                (replace (clauseRe relName (p_field p)) 2 (ls_where st)
                   falseClause)
                (ls_params st) calls1 trace1
            else
              let orBlock := buildOrBlock rootJoinField keys in
              mkLoopState
                (push_step pl3 (StepRewrite relName orBlock None))
                (replace (clauseRe relName (p_field p)) 2 (ls_where st)
                   orBlock)
                (ls_params st) calls1 trace1
        end
  end.

Record Result := mkResult {
  r_plan : Plan;
  r_params : gmap str JsVal;
  r_trace : list Event
}.

Definition WHERE : str := u "oslc.where".

(** The filter read from the bag: [String(params?.[WHERE] || empty)]. *)
Definition whereOf (bag : gmap str JsVal) : str :=
  match bag !! WHERE with
  | Some v => if truthy v then toStr v else []
  | None => []
  end.

Definition relsForOsOf (env : Env) (cfg : Config) (os_ : str)
    : option (gmap str RelCfg) :=
  match relationships cfg !! lowerCase env os_ with
  | Some rels => Some rels
  | None => relationships cfg !! os_
  end.

(** The loop state after all predicates, when the loop is reached. *)
Definition runLoop (env : Env) (a : Args) (apiBase : str) : LoopState :=
  let where_ := whereOf (params a) in
  let cfg := loadRelationshipsConfig env (DATA_DIR env) (tenantId a) in
  let relsForOs := relsForOsOf env cfg (os a) in
  let preds := detectRelationshipPredicates where_ in
  fold_left (loopBody env a relsForOs apiBase) preds
    (mkLoopState (set_detected emptyPlan preds) where_ (params a) 0 []).

(** The body of the outer [try]: the state reached, and the message of
    what was thrown, if anything was. *)
Definition tryBody (env : Env) (a : Args) : LoopState * option str :=
  let st0 := mkLoopState emptyPlan [] (params a) 0 [] in
  let where_ := whereOf (params a) in
  if isEmpty where_ then (st0, None)
  else
    let preds := detectRelationshipPredicates where_ in
    if isEmpty preds then (st0, None)
    else
      match maximoApiBase a with
      | Throw e => (with_plan st0 (set_detected emptyPlan preds), Some e)
      | Ok apiBase =>
          let st := runLoop env a apiBase in
          let mutatedWhere := ls_where st in
          if negb (str_eqb mutatedWhere where_) then
            (mkLoopState (ls_plan st) mutatedWhere
               (<[WHERE := JStr mutatedWhere]> (ls_params st))
               (ls_calls st)
               (ls_trace st ++ [EvWrite WHERE (JStr mutatedWhere)]),
             None)
          else (st, None)
      end.

(** The entry point: whatever the body throws is caught and recorded in
    the plan. *)
Definition applyRelationshipPrefetch (env : Env) (a : Args) : Exc Result :=
  let '(st, thrown) := tryBody env a in
  match thrown with
  | None => Ok (mkResult (ls_plan st) (ls_params st) (ls_trace st))
  | Some e =>
      Ok (mkResult
            (push_error (set_mode (ls_plan st) ModeError)
               (mkPlanError None e))
            (ls_params st) (ls_trace st))
  end.

(** The plan after a resolution that returned [outKeys], with the rewrite
    step for [replacement]. *)
Definition planResolved (env : Env) (a : Args) (st : LoopState) (p : Pred)
    (rc : RelCfg) (outKeys : list str) (replacement : str)
    (note : option str) : Plan :=
  let keys := usedKeys (maxKeysOf env rc) outKeys in
  let pl1 :=
    push_step (set_mode (ls_plan st) ModePrefetch) (announce env a rc p) in
  let pl2 :=
    if Nat.ltb (length keys) (length outKeys) then set_truncated pl1
    else pl1 in
  push_step
    (push_step pl2
       (StepPrefetchResult (p_rel p) (length outKeys) (length keys)))
    (StepRewrite (p_rel p) replacement note).

(** The text put in the place of a resolved predicate's clause: the
    disjunction over the keys used or, without any, the sentinel. *)
Definition replacementFor (env : Env) (rc : RelCfg) (outKeys : list str)
    : str :=
  if isEmpty (usedKeys (maxKeysOf env rc) outKeys)
  then falseClauseOf (rootJoinFieldOf rc)
  else buildOrBlock (rootJoinFieldOf rc) (usedKeys (maxKeysOf env rc) outKeys).

(** The relation map the planner consults for a call. *)
Definition relsFor (env : Env) (a : Args) : option (gmap str RelCfg) :=
  relsForOsOf env
    (loadRelationshipsConfig env (DATA_DIR env) (tenantId a)) (os a).

End Planner.

Abbreviation Relationships := (gmap str (gmap str RelCfg)).

(** ** Reading an escaped literal back *)

(** The inverse of the escaping: a backslash before a double quote is
    dropped. *)
Fixpoint unescapeQuotes (s : str) : str :=
  match s with
  | [] => []
  | c :: t =>
      match t with
      | d :: t' =>
          if (c =? BACKSLASH) && (d =? DQUOTE)
          then DQUOTE :: unescapeQuotes t'
          else c :: unescapeQuotes t
      | [] => [c]
      end
  end.

Definition consValue (c : N) (r : str * str) : str * str :=
  (c :: fst r, snd r).

(** A reader of double-quoted literals that honours the escape: given the
    text after the opening quote, the value up to the first double quote
    that is not escaped, and the text after that quote. *)
Fixpoint readQuoted (s : str) : option (str * str) :=
  match s with
  | [] => None
  | c :: t =>
      if c =? DQUOTE then Some ([], t)
      else
        match t with
        | d :: t' =>
            if (c =? BACKSLASH) && (d =? DQUOTE)
            then consValue DQUOTE <$> readQuoted t'
            else consValue c <$> readQuoted t
        | [] => None
        end
  end.

(** ** The claims as the specification words them *)

(** The merge at relation-key granularity: the entry of a root resource
    and relation alias comes from the latest layer that defines that
    alias for that resource. *)
Definition entryOf (layer : option Relationships) (os_ rel : str)
    : option RelCfg :=
  match layer with
  | Some rels =>
      match rels !! os_ with
      | Some m => m !! rel
      | None => None
      end
  | None => None
  end.

Definition mergedByRelationKey (env : Env) (dataDir tenantId : str)
    (os_ rel : str) : option RelCfg :=
  let tenant :=
    readRelationships env dataDir
      (u "relationships." ++ tenantId ++ u ".json") in
  let defaults :=
    readRelationships env dataDir (u "relationships.defaults.json") in
  match entryOf tenant os_ rel with
  | Some e => Some e
  | None =>
      match entryOf defaults os_ rel with
      | Some e => Some e
      | None => entryOf (Some (relationships builtIn)) os_ rel
      end
  end.

(** The same at root-resource granularity: the relation map of a root
    resource comes whole from the latest layer that defines that
    resource. *)
Definition mergedByResource (env : Env) (dataDir tenantId : str)
    (os_ : str) : option (gmap str RelCfg) :=
  let tenant :=
    readRelationships env dataDir
      (u "relationships." ++ tenantId ++ u ".json") in
  let defaults :=
    readRelationships env dataDir (u "relationships.defaults.json") in
  match tenant ≫= (fun rels : Relationships => rels !! os_) with
  | Some m => Some m
  | None =>
      match defaults ≫= (fun rels : Relationships => rels !! os_) with
      | Some m => Some m
      | None => relationships builtIn !! os_
      end
  end.



(** The clause of a detected predicate is replaced by [r]: the filter
    [w'] is [w] with the text of the predicate's match [m] exchanged for
    [r]. *)
Definition replacedAt (w w' : str) (m : Match) (r : str) : Prop :=
  w' = take (m_index m) w ++ r ++ drop (m_end m) w.

(** The text [x] occurs in [w]. *)
Definition occursIn (x w : str) : bool :=
  existsb (fun i => str_eqb (take (length x) (drop i w)) x)
    (seq 0 (S (length w))).

(** The clause of a detected predicate, the text of its match [m] in the
    filter [w], is still in the filter [w']. *)
Definition passesThrough (w w' : str) (m : Match) : Prop :=
  exists pre post, w' = pre ++ matched w m ++ post.

(** ** Sample inputs *)

Definition quoted (s : string) : str := [DQUOTE] ++ u s ++ [DQUOTE].

(** No override files, no environment setting. *)
Definition noFiles : Env :=
  mkEnv (u "/data") None (fun _ _ => None) toLowerCase.

(** A member collection whose members hold [field] with the given
    values. *)
Definition memberObjects (field : string) (values : list str) : JsVal :=
  JObj [(u "member",
         JArr (List.map (fun k => JObj [(u field, JStr k)]) values))].

Definition parseNothing : str -> option JsVal := fun _ => None.

(** A call on work orders with the filter [where_] and the given
    transport. *)
Definition callWith (where_ : str)
    (transport : nat -> Request -> Exc JsVal) : Args :=
  mkArgs (u "acme") (u "mxapiwo") {[ WHERE := JStr where_ ]} (u "BEDFORD")
    (u "rx-1") transport (Ok []) (Ok (u "https://maximo.example/api")).

Definition sensorFilter : str := u "asset.assettype=" ++ quoted "SENSOR".

(** A transport that always answers with the given body. *)
Definition answering (body : JsVal) : nat -> Request -> Exc JsVal :=
  fun _ _ => Ok body.

(** A transport that always fails. *)
Definition failing (message : string) : nat -> Request -> Exc JsVal :=
  fun _ _ => Throw (u message).

(** A tenant override file that defines one relation for work orders. *)
Definition vendorOnly : Relationships :=
  {[ u "mxapiwo" := {[ u "vendor" := joinCfg "mxapivendor" "vendor" ]} ]}.

Definition tenantOverride : Env :=
  mkEnv (u "/data") None
    (fun _ name =>
       if str_eqb name (u "relationships.acme.json") then Some vendorOnly
       else None)
    toLowerCase.

Definition sensorPred : Pred :=
  mkPred (u "asset") (u "assettype") (u "=") (u "SENSOR").

Definition assetCfg : RelCfg := joinCfg "mxapiasset" "assetnum".

Definition API : str := u "https://maximo.example/api".

(** The state in which the loop starts on [sensorFilter]. *)
Definition sensorStart (a : Args) : LoopState :=
  mkLoopState (set_detected emptyPlan [sensorPred]) sensorFilter (params a)
    0 [].

(** The match of [sensorPred]'s pattern in [sensorFilter]: the whole
    text. *)
Definition sensorMatch : Match :=
  mkMatch 0 24 [(2%nat, quoted "SENSOR"); (1%nat, u "=")].

Definition vendorFilter : str := u "vendor.name like " ++ quoted "Acme%".

Definition vendorPred : Pred :=
  mkPred (u "vendor") (u "name") (u "like") (u "Acme%").

(** Two clauses on the same relation and field, the alias of the first in
    another letter case. *)
Definition mixedCaseFilter : str :=
  u "Asset.assettype=" ++ quoted "PUMP" ++ u " and asset.assettype="
    ++ quoted "SENSOR".

Definition upperPred : Pred :=
  mkPred (u "Asset") (u "assettype") (u "=") (u "PUMP").

(** The detector's two matches in [mixedCaseFilter]. *)
Definition upperMatch : Match :=
  mkMatch 0 22
    [(4%nat, quoted "PUMP"); (5%nat, u "PUMP"); (3%nat, u "=");
     (2%nat, u "assettype"); (1%nat, u "Asset")].

Definition lowerMatch : Match :=
  mkMatch 27 51
    [(4%nat, quoted "SENSOR"); (5%nat, u "SENSOR"); (3%nat, u "=");
     (2%nat, u "assettype"); (1%nat, u "asset")].

(** A filter on the root resource's own field only. *)
Definition statusFilter : str := u "status=" ++ quoted "APPR".

(** The filter a call leaves in the bag. *)
Definition filterAfter (r : Exc Result) : option JsVal :=
  match r with
  | Ok res => r_params res !! WHERE
  | Throw _ => None
  end.

(** ** Filters as sequences of clauses *)

(** A text that does not end in a word character. *)
Definition endsPlain (x : str) : bool :=
  match last x with Some c => not_word c | None => true end.

(** A stretch of a filter between two clauses: no dot, and no word
    character at its end. *)
Definition plainGap (g : str) : bool :=
  forallb (not_char DOT) g && endsPlain g.

(** The predicate the detector reports for a clause. *)
Definition predOfClause (cl : Clause) : Pred :=
  mkPred (c_rel cl) (c_field cl) (normalizeOp (c_op cl)) (c_inner cl).

(** A filter as a sequence of clauses, each followed by a gap. *)
Fixpoint segmentsText (segs : list (Clause * str)) : str :=
  match segs with
  | [] => []
  | (cl, g) :: rest => clauseText cl ++ g ++ segmentsText rest
  end.

Definition wfSegment (seg : Clause * str) : bool :=
  wfClause (fst seg) && plainGap (snd seg).

(** The match the detector reports for the clause [cl] at index [i]. *)
Definition matchOfClause (i : nat) (cl : Clause) : Match :=
  mkMatch i (i + length (clauseText cl)) (detectCaps cl).

Fixpoint segmentMatches (i : nat) (segs : list (Clause * str)) : list Match :=
  match segs with
  | [] => []
  | (cl, g) :: rest =>
      matchOfClause i cl
        :: segmentMatches (i + length (clauseText cl) + length g) rest
  end.

(** The text a filter of segments is rewritten to, the clause [cl] giving
    way to [repl cl]. *)
Fixpoint rewrittenText (repl : Clause -> str) (segs : list (Clause * str))
    : str :=
  match segs with
  | [] => []
  | (cl, g) :: rest => repl cl ++ g ++ rewrittenText repl rest
  end.

(** Every clause of the filter is configured and resolves, whatever the
    number of the call, and no join field or key holds a dot or a dollar
    sign. *)
Definition allResolve (JSON_parse : str -> option JsVal) (env : Env)
    (a : Args) (relsForOs : option (gmap str RelCfg)) (apiBase : str)
    (rcOf : Pred -> RelCfg) (keysOf : Pred -> list str)
    (segs : list (Clause * str)) : Prop :=
  forall seg, seg ∈ segs ->
    let p := predOfClause (fst seg) in
    configured relsForOs (p_rel p) = Some (rcOf p)
    /\ unusable (rcOf p) = false
    /\ (forall n, exists cnt,
          resolve JSON_parse a apiBase n (rcOf p) p = Ok (keysOf p, cnt))
    /\ (DOT ∉ rootJoinFieldOf (rcOf p))
    /\ (DOLLAR ∉ rootJoinFieldOf (rcOf p))
    /\ forall k, k ∈ keysOf p -> (DOT ∉ k) /\ (DOLLAR ∉ k).

(** The filter with the clauses [keep] selects left as they are and the
    others giving way to [repl]. *)
Fixpoint mixedText (keep : Clause -> bool) (repl : Clause -> str)
    (segs : list (Clause * str)) : str :=
  match segs with
  | [] => []
  | (cl, g) :: rest =>
      (if keep cl then clauseText cl else repl cl)
        ++ g ++ mixedText keep repl rest
  end.

(** The clauses the loop passes over: no entry for the relation, or an
    entry without one of its three names. *)
Definition skipped (relsForOs : option (gmap str RelCfg)) (cl : Clause)
    : bool :=
  match configured relsForOs (c_rel cl) with
  | Some rc => unusable rc
  | None => true
  end.

(** The segments whose clause the loop does not pass over. *)
Definition taken (relsForOs : option (gmap str RelCfg))
    (segs : list (Clause * str)) : list (Clause * str) :=
  List.filter (fun s => negb (skipped relsForOs (fst s))) segs.

(** The clauses passed over hold no dot in their literal, and name no
    relation that another clause, one that is not passed over, names up
    to the case of the letters. *)
Definition keptApart (relsForOs : option (gmap str RelCfg))
    (segs : list (Clause * str)) : Prop :=
  forall s, s ∈ segs -> skipped relsForOs (fst s) = true ->
    (DOT ∉ c_inner (fst s))
    /\ forall s', s' ∈ taken relsForOs segs ->
         ci_eq (c_rel (fst s')) (c_rel (fst s)) = false.

(** The part of a clause after its dot. *)
Definition clauseTail (c : Clause) : str :=
  c_ws2 c ++ c_field c ++ c_ws3 c ++ c_op c ++ c_ws4 c ++ clauseLiteral c.

(** ** Dots that cannot be the dot of a clause *)

(** The text after the leading characters of a class. *)
Fixpoint skip (p : N -> bool) (s : str) : str :=
  match s with
  | c :: t => if p c then skip p t else s
  | [] => []
  end.

(** The first character of an operator: [=], the [!] of [!=], or the
    first letter of [like] in either case. *)
Definition opStart (c : N) : bool := (c =? 61) || (c =? 33) || lit_ci 108 c.

(** The text [r] after a dot shows that the dot is not the dot of a
    clause: after its white space comes a character that cannot start a
    name, or after the name and its white space a character that cannot
    start an operator.  A text that ends before showing either does not
    count. *)
Definition deadAfter (r : str) : bool :=
  match skip is_space r with
  | [] => false
  | c :: t =>
      if is_ident_start c then
        match skip is_space (skip is_word t) with
        | [] => false
        | d :: _ => negb (opStart d)
        end
      else true
  end.

(** A text none of whose dots can be the dot of a clause, whatever comes
    after the text. *)
Fixpoint quiet (g : str) : bool :=
  match g with
  | [] => true
  | c :: t => (negb (c =? DOT) || deadAfter t) && quiet t
  end.

(** A stretch of a filter between two clauses: quiet, and no word
    character at its end. *)
Definition quietGap (g : str) : bool := quiet g && endsPlain g.





(** ** Shapes of transport answers *)

(** The arguments of a call with another transport. *)
Definition withTransport (a : Args)
    (transport : nat -> Request -> Exc JsVal) : Args :=
  mkArgs (tenantId a) (os a) (params a) (defaultSite a) (rxId a) transport
    (authHeaders a) (maximoApiBase a).

(** The envelope shape of a transport answer: the response object and the
    body as text. *)
Definition envelope (response : JsVal) (respText : str) : JsVal :=
  JObj [(u "r", response); (u "respText", JStr respText)].

(** ** Counting in plans and traces *)

(** The number of steps of a kind in a step list. *)
Definition countKind (kind : str) (l : list PlanStep) : nat :=
  length (List.filter (fun s => str_eqb (step_kind s) kind) l).

(** A result step that used fewer keys than were returned. *)
Definition cutShort (s : PlanStep) : bool :=
  match s with
  | StepPrefetchResult _ returned used => Nat.ltb used returned
  | _ => false
  end.

(** A result step never uses more keys than were returned. *)
Definition withinReturned (s : PlanStep) : bool :=
  match s with
  | StepPrefetchResult _ returned used => Nat.leb used returned
  | _ => true
  end.

(** An error recorded for one relation, not for the call. *)
Definition ofRelation (e : PlanError) : bool :=
  match err_relationship e with Some _ => true | None => false end.

Definition isFetch (ev : Event) : bool :=
  match ev with EvFetch _ _ => true | EvWrite _ _ => false end.

(** The number of requests a call sent to the transport. *)
Definition countFetch (trace : list Event) : nat :=
  length (List.filter isFetch trace).

(** What the loop keeps true of the plan and the trace. *)
Record Balanced (st : LoopState) : Prop := mkBalanced {
  bal_prefetch :
    countKind (u "prefetch") (steps (ls_plan st))
    = (countKind (u "prefetch_result") (steps (ls_plan st))
       + length (errors (ls_plan st)))%nat;
  bal_rewrite :
    countKind (u "rewrite") (steps (ls_plan st))
    = countKind (u "prefetch_result") (steps (ls_plan st));
  bal_length :
    length (steps (ls_plan st))
    = (countKind (u "prefetch") (steps (ls_plan st))
       + 2 * countKind (u "prefetch_result") (steps (ls_plan st)))%nat;
  bal_results :
    (countKind (u "prefetch_result") (steps (ls_plan st))
     <= length (ls_trace st))%nat;
  bal_trace :
    (length (ls_trace st)
     <= countKind (u "prefetch") (steps (ls_plan st)))%nat;
  bal_mode :
    mode (ls_plan st)
    = if isEmpty (steps (ls_plan st)) then ModeNone else ModePrefetch;
  bal_truncated :
    truncated (ls_plan st) = existsb cutShort (steps (ls_plan st));
  bal_within : forallb withinReturned (steps (ls_plan st)) = true
}.

(** The number of double quotes of a text. *)
Definition quotes (v : str) : nat :=
  length (List.filter (fun c => c =? DQUOTE) v).

(** The request is the one a prefetch step announces: the same related
    resource, the same filter and the same selected fields. *)
Definition announcedBy (req : Request) (s : PlanStep) : bool :=
  match s with
  | StepPrefetch _ relatedOs relatedWhere select _ _ _ =>
      str_eqb (rq_relatedOs req) relatedOs
      && str_eqb (rq_where req) relatedWhere
      && str_eqb (rq_select req) select
  | _ => false
  end.

(** What holds of every request of a trace: how it was built, and that a
    step of the plan announces it. *)
Definition sentAsPlanned (a : Args) (apiBase : str) (pl : Plan)
    (trace : list Event) : Prop :=
  forall req bag, EvFetch req bag ∈ trace ->
    rq_method req = u "GET" /\ rq_lean req = u "1"
    /\ rq_apiBase req = apiBase /\ rq_relatedId req = rxId a
    /\ authHeaders a = Ok (rq_headers req)
    /\ wellFormed (rq_relatedOs req) = true
    /\ isEmpty (rq_relatedOs req) = false
    /\ isEmpty (rq_select req) = false
    /\ existsb (announcedBy req) (steps pl) = true.

(** ** The concept catalog page (ConceptsPage.jsx): what [save] sends *)

Definition COMMA : N := 44.

(** [String.prototype.split] with a one-character separator: the text
    between the separators, the empty text giving one empty part. *)
Fixpoint split (sep : N) (s : str) : list str :=
  match s with
  | [] => [[]]
  | c :: t =>
      if c =? sep then [] :: split sep t
      else
        match split sep t with
        | part :: parts => (c :: part) :: parts
        | [] => [[c]]
        end
  end.

(** [String(row?.[key] || empty)] *)
Definition textOf (row : JsVal) (key : string) : str :=
  let v := getProp row (u key) in
  if truthy v then toStr v else [].

(** An entity and a phrase of the overrides that [save] sends. *)
Record Entity := mkEntity {
  ent_label : str;
  ent_osCandidates : list str
}.

Record Phrase := mkPhrase {
  ph_label : str;
  ph_text : str
}.

Definition entityOf (e : JsVal) : Entity :=
  mkEntity (trim (textOf e "label"))
    (List.filter (fun s => negb (isEmpty s))
       (List.map trim (split COMMA (textOf e "osCandidates")))).

Definition keepEntity (e : Entity) : bool :=
  negb (isEmpty (ent_label e)) && negb (isEmpty (ent_osCandidates e)).

(** The [entities] of the body of [save]. *)
Definition savedEntities (entities : list JsVal) : list Entity :=
  List.filter keepEntity (List.map entityOf entities).

Definition phraseOf (s : JsVal) : Phrase :=
  mkPhrase (trim (textOf s "label")) (trim (textOf s "text")).

Definition keepPhrase (s : Phrase) : bool :=
  negb (isEmpty (ph_label s)) && negb (isEmpty (ph_text s)).

(** The [statusPhrases] and the [quickPhrases] of that body. *)
Definition savedPhrases (phrases : list JsVal) : list Phrase :=
  List.filter keepPhrase (List.map phraseOf phrases).

(** The rows of the tables when the saved overrides are loaded again:
    the objects of the JSON text of the body. *)
Definition rowOfEntity (e : Entity) : JsVal :=
  JObj [(u "label", JStr (ent_label e));
        (u "osCandidates", JArr (List.map JStr (ent_osCandidates e)))].

Definition rowOfPhrase (s : Phrase) : JsVal :=
  JObj [(u "label", JStr (ph_label s)); (u "text", JStr (ph_text s))].

Definition cleanEntity (e : Entity) : Prop :=
  ent_label e <> [] /\ trim (ent_label e) = ent_label e
  /\ ent_osCandidates e <> []
  /\ Forall (fun c => c <> [] /\ trim c = c /\ (COMMA ∉ c))
       (ent_osCandidates e).

Definition cleanPhrase (s : Phrase) : Prop :=
  ph_label s <> [] /\ trim (ph_label s) = ph_label s
  /\ ph_text s <> [] /\ trim (ph_text s) = ph_text s.

(** The rows of the tables that [save] sends: an entity row whose label
    is not blank and one of whose comma-separated candidates is not blank,
    a phrase row whose label and text are not blank. *)
Definition sendableEntity (row : JsVal) : bool :=
  negb (isEmpty (trim (textOf row "label")))
  && existsb (fun c => negb (isEmpty (trim c)))
       (split COMMA (textOf row "osCandidates")).

Definition sendablePhrase (row : JsVal) : bool :=
  negb (isEmpty (trim (textOf row "label")))
  && negb (isEmpty (trim (textOf row "text"))).

(** ** The relationships editor: [validate] *)

(** The outcome of [validate]: it returns, it throws its own error with a
    message, or the host throws a [TypeError] of its own wording (a row
    that is [null] or [undefined] has no properties to read). *)
Inductive Checked :=
| Accepted
| Rejected (message : str)
| TypeFault.

(** [!it.rootOs || !it.alias || !it.relatedOs || !it.rootJoinField ||
    !it.relatedKeyField] *)
Definition incomplete (it : JsVal) : bool :=
  negb (truthy (getProp it (u "rootOs")))
  || negb (truthy (getProp it (u "alias")))
  || negb (truthy (getProp it (u "relatedOs")))
  || negb (truthy (getProp it (u "rootJoinField")))
  || negb (truthy (getProp it (u "relatedKeyField"))).

(** The numbers [i + 1] of the incomplete rows, the rows counted from
    [i]. *)
Fixpoint badRows (i : nat) (items : list JsVal) : list nat :=
  match items with
  | [] => []
  | it :: rest =>
      if incomplete it then S i :: badRows (S i) rest
      else badRows (S i) rest
  end.

(** [it.rootOs + '::' + it.alias] *)
Definition keyOf (it : JsVal) : str :=
  toStr (getProp it (u "rootOs")) ++ u "::" ++ toStr (getProp it (u "alias")).

(** The loop over the rows with the set [seen]: the first key that was
    seen before. *)
Fixpoint firstDuplicate (seen : gset str) (items : list JsVal)
    : option str :=
  match items with
  | [] => None
  | it :: rest =>
      let key := keyOf it in
      if bool_decide (key ∈ seen) then Some key
      else firstDuplicate ({[ key ]} ∪ seen) rest
  end.

Definition validate (items : list JsVal) : Checked :=
  if existsb isNullish items then TypeFault
  else
    let bad := badRows 0 items in
    if negb (isEmpty bad) then
      Rejected
        (u "Missing required fields in row(s): "
           ++ join (u ", ") (List.map decimal bad))
    else
      match firstDuplicate ∅ items with
      | Some key => Rejected (u "Duplicate rootOs+alias: " ++ key)
      | None => Accepted
      end.

(** ** More sample inputs *)

Definition assetClause : Clause :=
  mkClause (u "asset") [] [] (u "assettype") [] (u "=") [] DQUOTE (u "SENSOR").

Definition locationClause : Clause :=
  mkClause (u "location") [] [] (u "type") (u " ") (u "LIKE") (u " ") SQUOTE
    (u "YARD%").

Definition twoClauses : list (Clause * str) :=
  [(assetClause, u " and "); (locationClause, [])].

Definition locationCfg : RelCfg := joinCfg "mxapilocations" "location".

Definition sampleCfg (p : Pred) : RelCfg :=
  if str_eqb (p_rel p) (u "asset") then assetCfg else locationCfg.

Definition sampleKeys (p : Pred) : list str :=
  if str_eqb (p_rel p) (u "asset") then [u "A100"; u "A101"] else [].

(** A parser that reads every text as the given value. *)
Definition parseAs (v : JsVal) : str -> option JsVal := fun _ => Some v.

(** A call whose base address cannot be had. *)
Definition withoutBase : Args :=
  mkArgs (u "acme") (u "mxapiwo") {[ WHERE := JStr sensorFilter ]}
    (u "BEDFORD") (u "rx-1") (failing "unused") (Ok [])
    (Throw (u "no base address")).

(** A predicate on the site field. *)
Definition sitePred : Pred :=
  mkPred (u "asset") (u "SiteId") (u "!=") (u "BEDFORD").

(** An entry with a limit below zero. *)
Definition noKeysCfg : RelCfg :=
  mkRelCfg (u "mxapiasset") (u "assetnum") (u "assetnum") (u "siteid")
    (-1) 200 (u "assetnum").

(** Rows of the relationships editor: a complete one and one without an
    alias. *)
Definition fullRow : JsVal :=
  JObj [(u "rootOs", JStr (u "mxapiwo")); (u "alias", JStr (u "asset"));
        (u "relatedOs", JStr (u "mxapiasset"));
        (u "rootJoinField", JStr (u "assetnum"));
        (u "relatedKeyField", JStr (u "assetnum"))].

Definition namelessRow : JsVal :=
  JObj [(u "rootOs", JStr (u "mxapiwo")); (u "alias", JStr []);
        (u "relatedOs", JStr (u "mxapiasset"));
        (u "rootJoinField", JStr (u "assetnum"));
        (u "relatedKeyField", JStr (u "assetnum"))].

Definition vendorClause : Clause :=
  mkClause (u "vendor") [] [] (u "name") (u " ") (u "like") (u " ") DQUOTE
    (u "Acme%").

Definition mixedClauses : list (Clause * str) :=
  [(vendorClause, u " and "); (assetClause, [])].







(** * Verification *)

(** ** The matcher and the match relation *)

Lemma reads_refl s : reads s s [].
Proof. repeat split; simpl; lia. Qed.

Lemma reads_trans s1 s2 s3 c1 c2 :
  reads s1 s2 c1 -> reads s2 s3 c2 -> reads s1 s3 (c1 ++ c2).
Proof.
  intros (H1 & H2 & H3) (H4 & H5 & H6). repeat split.
  - rewrite H1, H4. by rewrite app_assoc.
  - rewrite H5, H2, length_app. lia.
  - rewrite H6, H3, last_app. by destruct (last c2).
Qed.

Lemma Run_refl s : Run s s [] [].
Proof. split; [apply reads_refl | done]. Qed.

Lemma Run_trans s1 s2 s3 c1 c2 k1 k2 :
  Run s1 s2 c1 k1 -> Run s2 s3 c2 k2 -> Run s1 s3 (c1 ++ c2) (k2 ++ k1).
Proof.
  intros [H1 H2] [H3 H4]. split; [by eapply reads_trans |].
  rewrite H4, H2. by rewrite app_assoc.
Qed.

Lemma Run_group n s s1 c k :
  Run s s1 c k -> Run s (set_cap n s s1) c ((n, c) :: k).
Proof.
  intros [(H1 & H2 & H3) H4]. unfold set_cap. repeat split; simpl; try done.
  rewrite H1, H2, H4.
  replace (ms_idx s + length c - ms_idx s)%nat with (length c) by lia.
  by rewrite take_app_length.
Qed.

Lemma Matches_Chr_inv p s s1 :
  Matches (Chr p) s s1 -> exists c, p c = true /\ Run s s1 [c] [].
Proof.
  inversion 1; subst. exists c. split; [done |].
  repeat split; simpl; lia.
Qed.

Lemma Matches_StarC_inv p s s1 :
  Matches (StarC p) s s1 -> exists c, forallb p c = true /\ Run s s1 c [].
Proof.
  intros H. remember (StarC p) as r eqn:Hr.
  induction H; inversion Hr; subst.
  - exists []. split; [done | apply Run_refl].
  - destruct (IHMatches eq_refl) as (c1 & Hc & (H1 & H2 & H3) & H4).
    simpl in *. exists (c :: c1). split; [simpl; by rewrite H, Hc |].
    repeat split; simpl; try done.
    + by rewrite H1.
    + lia.
    + rewrite H3, last_cons. by destruct (last c1).
Qed.

Lemma Matches_Seq_inv a b s s2 :
  Matches (Seq a b) s s2 -> exists s1, Matches a s s1 /\ Matches b s1 s2.
Proof. inversion 1; subst. eauto. Qed.

Lemma Matches_Alt_inv a b s s1 :
  Matches (Alt a b) s s1 -> Matches a s s1 \/ Matches b s s1.
Proof. inversion 1; subst; eauto. Qed.

Lemma Matches_Grp_inv n a s s' :
  Matches (Grp n a) s s' -> exists s1, Matches a s s1 /\ s' = set_cap n s s1.
Proof. inversion 1; subst. eauto. Qed.

Lemma Matches_WordB_inv s s1 :
  Matches WordB s s1 -> s1 = s /\ xorb (word_before s) (word_after s) = true.
Proof. inversion 1; subst. done. Qed.

Lemma Matches_Lit_inv l : forall s s1,
  Matches (Lit l) s s1 -> exists c, ci_eq l c = true /\ Run s s1 c [].
Proof.
  induction l as [|x [|y t] IH]; intros s s1 H.
  - inversion H; subst. exists []. split; [done | apply Run_refl].
  - apply Matches_Chr_inv in H as (c & Hc & Hr).
    exists [c]. split; [simpl; by rewrite Hc | done].
  - change (Lit (x :: y :: t)) with (Seq (Chr (lit_ci x)) (Lit (y :: t))) in H.
    apply Matches_Seq_inv in H as (s2 & H1 & H2).
    apply Matches_Chr_inv in H1 as (c & Hc & Hr1).
    apply IH in H2 as (c2 & Hc2 & Hr2).
    exists ([c] ++ c2). split.
    + simpl. simpl in Hc2. by rewrite Hc, Hc2.
    + apply (Run_trans _ _ _ _ _ _ _ Hr1 Hr2).
Qed.

Lemma Matches_ident_inv s s1 :
  Matches identRe s s1 -> exists c, is_identifier c = true /\ Run s s1 c [].
Proof.
  intros H. apply Matches_Seq_inv in H as (s2 & H1 & H2).
  apply Matches_Chr_inv in H1 as (c & Hc & Hr1).
  apply Matches_StarC_inv in H2 as (c2 & Hc2 & Hr2).
  exists ([c] ++ c2). split.
  - simpl. by rewrite Hc, Hc2.
  - apply (Run_trans _ _ _ _ _ _ _ Hr1 Hr2).
Qed.

Lemma starC_sound p k : forall rest prev idx caps sf,
  starC p k prev rest idx caps = Some sf ->
  exists s1, Matches (StarC p) (mkMState prev rest idx caps) s1 /\ k s1 = Some sf.
Proof.
  induction rest as [|c t IH]; intros prev idx caps sf H; simpl in H.
  - eexists. split; [apply M_Star0 | done].
  - destruct (p c) eqn:Hp.
    + destruct (starC p k (Some c) t (S idx) caps) eqn:Hs.
      * injection H as <-. apply IH in Hs as [s1 [Hm Hk]].
        exists s1. split; [by apply M_StarS | done].
      * eexists. split; [apply M_Star0 | done].
    + eexists. split; [apply M_Star0 | done].
Qed.

Lemma rmatch_sound r : forall k s sf,
  rmatch r k s = Some sf -> exists s1, Matches r s s1 /\ k s1 = Some sf.
Proof.
  induction r; intros k s sf H; simpl in H.
  - exists s. split; [constructor | done].
  - destruct s as [prev rest idx caps]. simpl in H.
    destruct rest as [|c t]; [done |].
    destruct (p c) eqn:Hp; [| done].
    eexists. split; [by apply M_Chr | done].
  - destruct (xorb (word_before s) (word_after s)) eqn:Hx; [| done].
    exists s. split; [by constructor | done].
  - destruct (ms_prev s) eqn:Hp; [done |].
    exists s. split; [by constructor | done].
  - apply IHr1 in H as [s1 [H1 H]]. apply IHr2 in H as [s2 [H2 H]].
    exists s2. split; [by econstructor | done].
  - destruct (rmatch r1 k s) eqn:H1.
    + injection H as <-. apply IHr1 in H1 as [s1 [Hm Hk]].
      exists s1. split; [by apply M_AltL | done].
    + apply IHr2 in H as [s1 [Hm Hk]].
      exists s1. split; [by apply M_AltR | done].
  - destruct s as [prev rest idx caps]. simpl in H. by apply starC_sound.
  - apply IHr in H as [s1 [Hm Hk]].
    eexists. split; [by apply M_Grp | done].
Qed.

Lemma rmatch_complete r s s1 :
  Matches r s s1 -> forall k sf, k s1 = Some sf -> is_Some (rmatch r k s).
Proof.
  induction 1; intros k sf Hk; simpl.
  - by eexists.
  - rewrite H. by eexists.
  - rewrite H. by eexists.
  - rewrite H. by eexists.
  - destruct (IHMatches2 _ _ Hk) as [x Hx]. by eapply IHMatches1.
  - destruct (IHMatches _ _ Hk) as [x Hx]. rewrite Hx. by eexists.
  - destruct (rmatch a k s); [by eexists |]. by eapply IHMatches.
  - destruct s as [prev rest idx caps]. simpl.
    destruct rest as [|c t]; simpl; [by eexists |].
    destruct (p c); [| by eexists].
    destruct (starC p k (Some c) t (S idx) caps); by eexists.
  - rewrite H. destruct (IHMatches _ _ Hk) as [x Hx]. simpl in Hx.
    rewrite Hx. by eexists.
  - eapply IHMatches. exact Hk.
Qed.

(** ** Character facts *)

Ltac nbool :=
  unfold not_word, is_word, is_ident_start, lit_ci, ascii_upper, ascii_lower,
    is_lower, is_upper, is_digit, is_space, in_range, is_char, not_char,
    DQUOTE, SQUOTE, DOT, DOLLAR, BACKSLASH in *;
  repeat match goal with
         | |- context [if ?b then _ else _] => destruct b eqn:?
         | H : context [if ?b then _ else _] |- _ => destruct b eqn:?
         end;
  repeat progress
    (rewrite ?andb_true_iff, ?orb_true_iff, ?andb_false_iff, ?orb_false_iff,
       ?negb_true_iff, ?negb_false_iff, ?N.leb_le, ?N.leb_gt, ?N.eqb_eq,
       ?N.eqb_neq in *);
  try (intuition lia).

Lemma lit_ci_refl c : lit_ci c c = true.
Proof. unfold lit_ci. apply N.eqb_refl. Qed.

Lemma lit_ci_plain c d :
  is_lower c = false -> is_upper c = false -> lit_ci c d = true -> d = c.
Proof. intros H1 H2 H3. nbool. Qed.

Lemma lit_ci_letter c d :
  is_word c = true -> lit_ci c d = true -> is_word d = true.
Proof. intros H1 H2. nbool. Qed.

Lemma space_not_word c : is_space c = true -> is_word c = false.
Proof. intros H. nbool. Qed.

Lemma ident_start_word c : is_ident_start c = true -> is_word c = true.
Proof. intros H. unfold is_word. by rewrite H. Qed.

Lemma ci_eq_refl a : ci_eq a a = true.
Proof. induction a; simpl; [done |]. by rewrite lit_ci_refl. Qed.

Lemma ci_eq_length a : forall b, ci_eq a b = true -> length b = length a.
Proof.
  induction a as [|x a IH]; intros [|y b] H; simpl in *; try done.
  apply andb_true_iff in H as [_ H]. by rewrite (IH _ H).
Qed.

Lemma ci_eq_eq : forall c, ci_eq (u "=") c = true -> c = u "=".
Proof.
  intros [|x [|y c]] H; simpl in H; try done.
  - rewrite andb_true_r in H. apply lit_ci_plain in H; [by subst | done..].
  - by rewrite andb_false_r in H.
Qed.

Lemma ci_eq_neq : forall c, ci_eq (u "!=") c = true -> c = u "!=".
Proof.
  intros [|x [|y [|z c]]] H; simpl in H; try done.
  - by rewrite andb_false_r in H.
  - rewrite andb_true_r in H. apply andb_true_iff in H as [H1 H2].
    apply lit_ci_plain in H1; [| done..].
    apply lit_ci_plain in H2; [| done..]. by subst.
  - by rewrite !andb_false_r in H.
Qed.

Lemma ci_eq_word_head l c x t :
  ci_eq l c = true -> l = x :: t -> is_word x = true ->
  exists y c', c = y :: c' /\ is_word y = true.
Proof.
  intros H -> Hx. destruct c as [|y c']; [done |].
  simpl in H. apply andb_true_iff in H as [H _].
  exists y, c'. split; [done |]. by eapply lit_ci_letter.
Qed.

Lemma identifier_last f :
  is_identifier f = true -> exists x, last f = Some x /\ is_word x = true.
Proof.
  destruct f as [|c t]; [done |]. simpl. intros H.
  apply andb_true_iff in H as [H1 H2].
  destruct (last t) as [x|] eqn:Hl.
  - exists x. split; [by rewrite last_cons, Hl |].
    apply last_Some_elem_of in Hl. rewrite forallb_forall in H2.
    apply H2. by apply list_elem_of_In.
  - exists c. split; [by rewrite last_cons, Hl | by apply ident_start_word].
Qed.

Lemma identifier_head f :
  is_identifier f = true -> exists x t, f = x :: t /\ is_word x = true.
Proof.
  destruct f as [|c t]; [done |]. simpl. intros H.
  apply andb_true_iff in H as [H1 H2]. exists c, t.
  split; [done | by apply ident_start_word].
Qed.

(** ** The detector's pattern matches exactly the clauses of the grammar *)

Lemma Matches_op_inv n s s1 :
  Matches (opRe n) s s1 ->
  exists op, Run s s1 op [(n, op)]
    /\ (op = u "=" \/ op = u "!="
        \/ (ci_eq (u "like") op = true /\ word_before s = false)).
Proof.
  intros H.
  change (opRe n) with
    (Grp n (Alt (Lit (u "="))
              (Alt (Lit (u "!=")) (Seq WordB (Seq (Lit (u "like")) WordB)))))
    in H.
  apply Matches_Grp_inv in H as (s2 & H & ->).
  apply Matches_Alt_inv in H as [H | H].
  { apply Matches_Lit_inv in H as (c & Hc & Hr). apply ci_eq_eq in Hc as ->.
    exists (u "="). split; [by apply Run_group | by left]. }
  apply Matches_Alt_inv in H as [H | H].
  { apply Matches_Lit_inv in H as (c & Hc & Hr). apply ci_eq_neq in Hc as ->.
    exists (u "!="). split; [by apply Run_group | by right; left]. }
  apply Matches_Seq_inv in H as (sa & H1 & H).
  apply Matches_WordB_inv in H1 as [-> Hb].
  apply Matches_Seq_inv in H as (sb & H2 & H3).
  apply Matches_WordB_inv in H3 as [-> _].
  apply Matches_Lit_inv in H2 as (c & Hc & Hr).
  exists c. split; [by apply Run_group |]. right; right. split; [done |].
  destruct (ci_eq_word_head _ _ 108 (u "ike") Hc eq_refl eq_refl)
    as (y & c' & -> & Hy).
  destruct Hr as [(Hrest & _) _].
  unfold word_after in Hb. rewrite Hrest in Hb. simpl in Hb.
  rewrite Hy in Hb. by destruct (word_before s).
Qed.

Lemma Matches_quoted_inv n (inner : regex) qc s s1 :
  Matches (Seq (Chr (is_char qc)) (Seq inner (Chr (is_char qc)))) s s1 ->
  (forall sa sb, Matches inner sa sb ->
     exists c k, forallb (not_char qc) c = true /\ Run sa sb c k
       /\ k = n c) ->
  exists c, forallb (not_char qc) c = true
    /\ Run s s1 ([qc] ++ c ++ [qc]) (n c).
Proof.
  intros H Hin.
  apply Matches_Seq_inv in H as (sa & H1 & H).
  apply Matches_Seq_inv in H as (sb & H2 & H3).
  apply Matches_Chr_inv in H1 as (x & Hx & Hr1).
  apply Matches_Chr_inv in H3 as (y & Hy & Hr3).
  apply N.eqb_eq in Hx as <-. apply N.eqb_eq in Hy as <-.
  apply Hin in H2 as (c & k & Hc & Hr2 & ->).
  exists c. split; [done |].
  pose proof (Run_trans _ _ _ _ _ _ _ Hr1 (Run_trans _ _ _ _ _ _ _ Hr2 Hr3))
    as Hr.
  by rewrite !app_nil_r in Hr.
Qed.

Lemma inner_plain qc sa sb :
  Matches (StarC (not_char qc)) sa sb ->
  exists c k, forallb (not_char qc) c = true /\ Run sa sb c k
    /\ k = (fun _ => []) c.
Proof.
  intros H. apply Matches_StarC_inv in H as (c & Hc & Hr). by exists c, [].
Qed.

Lemma inner_group n qc sa sb :
  Matches (Grp n (StarC (not_char qc))) sa sb ->
  exists c k, forallb (not_char qc) c = true /\ Run sa sb c k
    /\ k = (fun c => [(n, c)]) c.
Proof.
  intros H. apply Matches_Grp_inv in H as (s1 & H & ->).
  apply Matches_StarC_inv in H as (c & Hc & Hr).
  exists c, [(n, c)]. split; [done |]. split; [by apply Run_group | done].
Qed.

(** The part of both patterns from the first white space to the operator:
    white space, dot, white space. *)
Lemma Matches_dot_inv s sa sb s3 :
  Matches (StarC is_space) s sa -> Matches (Chr (is_char DOT)) sa sb ->
  Matches (StarC is_space) sb s3 ->
  exists ws1 ws2, forallb is_space ws1 = true /\ forallb is_space ws2 = true
    /\ Run s s3 (ws1 ++ [DOT] ++ ws2) [].
Proof.
  intros H1 H2 H3.
  apply Matches_StarC_inv in H1 as (ws1 & Hw1 & Hr1).
  apply Matches_Chr_inv in H2 as (x & Hx & Hr2).
  apply Matches_StarC_inv in H3 as (ws2 & Hw2 & Hr3).
  apply N.eqb_eq in Hx as <-.
  exists ws1, ws2. split; [done |]. split; [done |].
  apply (Run_trans _ _ _ _ _ _ _ Hr1 (Run_trans _ _ _ _ _ _ _ Hr2 Hr3)).
Qed.

Lemma detectRe_inv s s1 :
  Matches detectRe s s1 ->
  exists cl, wfClause cl = true /\ word_before s = false
    /\ Run s s1 (clauseText cl) (detectCaps cl).
Proof.
  intros H.
  change detectRe with
    (Seq WordB (Seq (Grp 1 identRe) (Seq (StarC is_space)
      (Seq (Chr (is_char DOT)) (Seq (StarC is_space) (Seq (Grp 2 identRe)
      (Seq (StarC is_space) (Seq (opRe 3) (Seq (StarC is_space)
      (Grp 4 (Alt
         (Seq (Chr (is_char DQUOTE))
            (Seq (Grp 5 (StarC (not_char DQUOTE))) (Chr (is_char DQUOTE))))
         (Seq (Chr (is_char SQUOTE))
            (Seq (Grp 6 (StarC (not_char SQUOTE)))
               (Chr (is_char SQUOTE)))))))))))))))
    in H.
  apply Matches_Seq_inv in H as (s0 & Hb & H).
  apply Matches_WordB_inv in Hb as [-> Hb].
  apply Matches_Seq_inv in H as (sa & H1 & H).
  apply Matches_Grp_inv in H1 as (sa' & H1 & ->).
  apply Matches_ident_inv in H1 as (rel & Hrel & Hr1).
  apply (Run_group 1) in Hr1.
  apply Matches_Seq_inv in H as (sb & H2 & H).
  apply Matches_Seq_inv in H as (sc & H3 & H).
  apply Matches_Seq_inv in H as (sd & H4 & H).
  destruct (Matches_dot_inv _ _ _ _ H2 H3 H4)
    as (ws1 & ws2 & Hw1 & Hw2 & Hr2).
  apply Matches_Seq_inv in H as (se & H5 & H).
  apply Matches_Grp_inv in H5 as (se' & H5 & ->).
  apply Matches_ident_inv in H5 as (field & Hfield & Hr5).
  pose proof Hr5 as Hr5'. apply (Run_group 2) in Hr5.
  apply Matches_Seq_inv in H as (sf & H6 & H).
  apply Matches_StarC_inv in H6 as (ws3 & Hw3 & Hr6).
  apply Matches_Seq_inv in H as (sg & H7 & H).
  apply Matches_op_inv in H7 as (op & Hr7 & Hop).
  apply Matches_Seq_inv in H as (sh & H8 & H).
  apply Matches_StarC_inv in H8 as (ws4 & Hw4 & Hr8).
  apply Matches_Grp_inv in H as (si & H & ->).
  assert (exists qc inner,
    ((qc =? DQUOTE) || (qc =? SQUOTE)) = true
    /\ forallb (not_char qc) inner = true
    /\ Run sh si ([qc] ++ inner ++ [qc])
         [(if qc =? DQUOTE then 5%nat else 6%nat, inner)])
    as (qc & inner & Hq & Hinner & Hr9).
  { apply Matches_Alt_inv in H as [H | H].
    - apply (Matches_quoted_inv (fun c => [(5%nat, c)])) in H
        as (c & Hc & Hr); [| apply inner_group].
      by exists DQUOTE, c.
    - apply (Matches_quoted_inv (fun c => [(6%nat, c)])) in H
        as (c & Hc & Hr); [| apply inner_group].
      by exists SQUOTE, c. }
  apply (Run_group 4) in Hr9.
  exists (mkClause rel ws1 ws2 field ws3 op ws4 qc inner).
  split; [| split].
  - unfold wfClause, wfOp.
    cbn [c_rel c_ws1 c_ws2 c_field c_ws3 c_op c_ws4 c_quote c_inner].
    rewrite Hrel, Hw1, Hw2, Hfield, Hw3, Hw4, Hq, Hinner.
    cbn [andb]. rewrite !andb_true_r.
    destruct Hop as [-> | [-> | [Hl Hwb]]]; [done | done |].
    rewrite Hl. cbn [andb]. rewrite orb_true_iff. right.
    destruct ws3 as [|x ws3]; [| done]. exfalso.
    destruct Hr6 as [(_ & _ & Hp6) _]. simpl in Hp6.
    destruct Hr5' as [(_ & _ & Hp5) _]. simpl in Hp5.
    destruct (identifier_last _ Hfield) as (y & Hy & Hyw).
    rewrite Hy in Hp5. simpl in Hp5.
    unfold word_before in Hwb. rewrite Hp6, Hp5, Hyw in Hwb. done.
  - destruct (identifier_head _ Hrel) as (x & t & -> & Hx).
    destruct Hr1 as [(Hrest & _) _]. unfold word_after in Hb.
    rewrite Hrest in Hb. simpl in Hb. rewrite Hx in Hb.
    by destruct (word_before s).
  - pose proof
      (Run_trans _ _ _ _ _ _ _ Hr1
        (Run_trans _ _ _ _ _ _ _ Hr2
          (Run_trans _ _ _ _ _ _ _ Hr5
            (Run_trans _ _ _ _ _ _ _ Hr6
              (Run_trans _ _ _ _ _ _ _ Hr7
                (Run_trans _ _ _ _ _ _ _ Hr8 Hr9)))))) as Hr.
    unfold clauseText, clauseLiteral, detectCaps. simpl in *.
    rewrite <- !app_assoc in Hr. simpl in Hr. exact Hr.
Qed.

(** ** Searching *)

Lemma matchAt_inv r prev rest idx m :
  matchAt r prev rest idx = Some m ->
  exists s1, Matches r (mkMState prev rest idx []) s1
    /\ m = mkMatch idx (ms_idx s1) (ms_caps s1).
Proof.
  unfold matchAt. intros H.
  destruct (rmatch r Some (mkMState prev rest idx [])) as [s1|] eqn:Hm;
    [| done].
  injection H as <-. apply rmatch_sound in Hm as (s2 & Hm & [= ->]).
  by exists s1.
Qed.

Lemma matchAt_complete r prev rest idx s1 :
  Matches r (mkMState prev rest idx []) s1 ->
  is_Some (matchAt r prev rest idx).
Proof.
  intros H. unfold matchAt.
  destruct (rmatch_complete _ _ _ H Some s1 eq_refl) as [x ->]. by eexists.
Qed.

Lemma drop_cons_inv {A} (w : list A) i c t :
  drop i w = c :: t -> w !! i = Some c /\ drop (S i) w = t /\ (i < length w)%nat.
Proof.
  intros H. split; [| split].
  - rewrite <- (Nat.add_0_r i), <- lookup_drop, H. done.
  - replace (S i) with (i + 1)%nat by lia. by rewrite <- drop_drop, H.
  - destruct (decide (i < length w)%nat); [done |].
    rewrite drop_ge in H by lia. done.
Qed.

Lemma scan_inv r w m : forall n i,
  (length w - i = n)%nat -> (i <= length w)%nat ->
  scan r (char_before w i) (drop i w) i = Some m ->
  (i <= m_index m <= length w)%nat
  /\ matchAt r (char_before w (m_index m)) (drop (m_index m) w) (m_index m)
     = Some m
  /\ forall j, (i <= j < m_index m)%nat ->
       matchAt r (char_before w j) (drop j w) j = None.
Proof.
  induction n as [|n IH]; intros i Hn Hi H.
  - assert (i = length w) as -> by lia. rewrite drop_all in *. simpl in H.
    destruct (matchAt r (char_before w (length w)) [] (length w)) as [m'|]
      eqn:Hm; [| done].
    injection H as ->. pose proof Hm as Hm'.
    apply matchAt_inv in Hm' as (s1 & _ & ->). simpl.
    rewrite drop_all. split; [lia |]. split; [done |]. intros j Hj. lia.
  - destruct (drop i w) as [|c t] eqn:Hd.
    { assert (length (drop i w) = 0%nat) as Hl by (by rewrite Hd).
      rewrite length_drop in Hl. lia. }
    simpl in H.
    destruct (matchAt r (char_before w i) (c :: t) i) as [m'|] eqn:Hm.
    + injection H as ->. pose proof Hm as Hm'.
      apply matchAt_inv in Hm' as (s1 & _ & ->). simpl.
      rewrite Hd. split; [lia |]. split; [done |]. intros j Hj. lia.
    + apply drop_cons_inv in Hd as Hd'. destruct Hd' as (Hc & Ht & Hlt).
      assert (char_before w (S i) = Some c) as Hcb by done.
      rewrite <- Hcb, <- Ht in H.
      apply IH in H as (H1 & H2 & H3); [| lia..].
      split; [lia |]. split; [done |].
      intros j Hj. destruct (decide (j = i)) as [-> | Hne].
      * by rewrite Hd.
      * apply H3. lia.
Qed.

Lemma exec_inv r w i m :
  exec r w i = Some m ->
  (i <= m_index m <= length w)%nat
  /\ matchAt r (char_before w (m_index m)) (drop (m_index m) w) (m_index m)
     = Some m
  /\ forall j, (i <= j < m_index m)%nat ->
       matchAt r (char_before w j) (drop j w) j = None.
Proof.
  unfold exec. destruct (Nat.ltb_spec (length w) i) as [Hlt | Hle]; [done |].
  by apply (scan_inv r w m (length w - i)).
Qed.

Lemma scan_complete r w : forall n i j,
  (length w - i = n)%nat -> (i <= j <= length w)%nat ->
  is_Some (matchAt r (char_before w j) (drop j w) j) ->
  is_Some (scan r (char_before w i) (drop i w) i).
Proof.
  induction n as [|n IH]; intros i j Hn Hj Hm.
  - assert (i = j) as -> by lia.
    destruct (drop j w); simpl; destruct Hm as [x ->]; by eexists.
  - destruct (drop i w) as [|c t] eqn:Hd.
    { assert (length (drop i w) = 0%nat) as Hl by (by rewrite Hd).
      rewrite length_drop in Hl. lia. }
    simpl.
    destruct (matchAt r (char_before w i) (c :: t) i) as [m'|] eqn:Hm';
      [by eexists |].
    apply drop_cons_inv in Hd as Hd'. destruct Hd' as (Hc & Ht & Hlt).
    assert (char_before w (S i) = Some c) as Hcb by done.
    rewrite <- Hcb, <- Ht.
    destruct (decide (j = i)) as [-> | Hne].
    + rewrite Hd in Hm. rewrite Hm' in Hm. by destruct Hm.
    + apply (IH (S i) j); [lia | lia | done].
Qed.

Lemma exec_complete r w i j :
  (i <= j <= length w)%nat ->
  is_Some (matchAt r (char_before w j) (drop j w) j) ->
  is_Some (exec r w i).
Proof.
  intros Hj Hm. unfold exec.
  destruct (Nat.ltb_spec (length w) i) as [Hlt | Hle]; [lia |].
  by apply (scan_complete r w (length w - i) i j).
Qed.

(** The span of a match read off a run of the matcher. *)
Lemma run_span w i s1 c k :
  (i <= length w)%nat ->
  Run (stateAt w i) s1 c k ->
  w = take i w ++ c ++ drop (ms_idx s1) w
  /\ ms_idx s1 = (i + length c)%nat
  /\ ms_rest s1 = drop (ms_idx s1) w
  /\ ms_caps s1 = k.
Proof.
  intros Hi [(H1 & H2 & H3) H4]. simpl in *.
  assert (ms_rest s1 = drop (ms_idx s1) w) as Hrest.
  { rewrite H2, <- drop_drop, H1. by rewrite drop_app_length. }
  split; [| split; [done | split; [done |]]].
  - rewrite <- Hrest, <- H1. by rewrite take_drop.
  - by rewrite H4, app_nil_r.
Qed.

(** A match of the detector's pattern is a clause of the grammar, at a
    word boundary, with the clause's parts as captures. *)
Lemma matchAt_detect_inv w i m :
  (i <= length w)%nat ->
  matchAt detectRe (char_before w i) (drop i w) i = Some m ->
  exists cl, wfClause cl = true
    /\ word_before (stateAt w i) = false
    /\ w = take i w ++ clauseText cl ++ drop (m_end m) w
    /\ m_index m = i
    /\ m_end m = (i + length (clauseText cl))%nat
    /\ m_caps m = detectCaps cl.
Proof.
  intros Hi H. apply matchAt_inv in H as (s1 & H & ->).
  apply detectRe_inv in H as (cl & Hwf & Hb & Hr).
  apply run_span in Hr as (H1 & H2 & H3 & H4); [| done].
  exists cl. simpl. done.
Qed.

Lemma exec_detect_inv w i m :
  exec detectRe w i = Some m ->
  exists cl, wfClause cl = true
    /\ word_before (stateAt w (m_index m)) = false
    /\ w = take (m_index m) w ++ clauseText cl ++ drop (m_end m) w
    /\ (i <= m_index m)%nat
    /\ m_end m = (m_index m + length (clauseText cl))%nat
    /\ m_caps m = detectCaps cl.
Proof.
  intros H. apply exec_inv in H as (Hi & H & _).
  apply matchAt_detect_inv in H as (cl & ? & ? & ? & ? & ? & ?); [| lia].
  exists cl. repeat split; try done. lia.
Qed.

Lemma clauseText_dot cl : DOT ∈ clauseText cl.
Proof.
  unfold clauseText. rewrite !elem_of_app. right; right; left. by constructor.
Qed.

Lemma exec_detect_no_dot w i : DOT ∉ w -> exec detectRe w i = None.
Proof.
  intros Hd. destruct (exec detectRe w i) as [m|] eqn:H; [| done].
  apply exec_detect_inv in H as (cl & _ & _ & Hw & _).
  exfalso. apply Hd. rewrite Hw, !elem_of_app.
  right; left. apply clauseText_dot.
Qed.

(** ** The per-predicate pattern *)

Lemma lit_ci_ident_start c d :
  is_ident_start c = true -> lit_ci c d = true -> is_ident_start d = true.
Proof. intros H1 H2. nbool. Qed.

Lemma ci_eq_word a : forall b,
  ci_eq a b = true -> forallb is_word a = true -> forallb is_word b = true.
Proof.
  induction a as [|x a IH]; intros [|y b] H Hw; simpl in *; try done.
  apply andb_true_iff in H as [H1 H2]. apply andb_true_iff in Hw as [Hx Ha].
  rewrite (lit_ci_letter _ _ Hx H1). by apply IH.
Qed.

Lemma ci_eq_identifier a b :
  ci_eq a b = true -> is_identifier a = true -> is_identifier b = true.
Proof.
  destruct a as [|x a], b as [|y b]; simpl; try done. intros H Hi.
  apply andb_true_iff in H as [H1 H2]. apply andb_true_iff in Hi as [Hx Ha].
  rewrite (lit_ci_ident_start _ _ Hx H1). by apply (ci_eq_word a).
Qed.

Lemma clauseRe_inv rel field s s1 :
  is_identifier rel = true -> is_identifier field = true ->
  Matches (clauseRe rel field) s s1 ->
  exists cl, wfClause cl = true
    /\ ci_eq rel (c_rel cl) = true /\ ci_eq field (c_field cl) = true
    /\ word_before s = false
    /\ Run s s1 (clauseText cl) (clauseCaps cl).
Proof.
  intros Hirel Hifield H.
  change (clauseRe rel field) with
    (Seq WordB (Seq (Lit rel) (Seq (StarC is_space)
      (Seq (Chr (is_char DOT)) (Seq (StarC is_space) (Seq (Lit field)
      (Seq (StarC is_space) (Seq (opRe 1) (Seq (StarC is_space)
      (Grp 2 (Alt
         (Seq (Chr (is_char DQUOTE))
            (Seq (StarC (not_char DQUOTE)) (Chr (is_char DQUOTE))))
         (Seq (Chr (is_char SQUOTE))
            (Seq (StarC (not_char SQUOTE))
               (Chr (is_char SQUOTE)))))))))))))))
    in H.
  apply Matches_Seq_inv in H as (s0 & Hb & H).
  apply Matches_WordB_inv in Hb as [-> Hb].
  apply Matches_Seq_inv in H as (sa & H1 & H).
  apply Matches_Lit_inv in H1 as (rel' & Hrel & Hr1).
  apply Matches_Seq_inv in H as (sb & H2 & H).
  apply Matches_Seq_inv in H as (sc & H3 & H).
  apply Matches_Seq_inv in H as (sd & H4 & H).
  destruct (Matches_dot_inv _ _ _ _ H2 H3 H4)
    as (ws1 & ws2 & Hw1 & Hw2 & Hr2).
  apply Matches_Seq_inv in H as (se & H5 & H).
  apply Matches_Lit_inv in H5 as (field' & Hfield & Hr5).
  apply Matches_Seq_inv in H as (sf & H6 & H).
  apply Matches_StarC_inv in H6 as (ws3 & Hw3 & Hr6).
  apply Matches_Seq_inv in H as (sg & H7 & H).
  apply Matches_op_inv in H7 as (op & Hr7 & Hop).
  apply Matches_Seq_inv in H as (sh & H8 & H).
  apply Matches_StarC_inv in H8 as (ws4 & Hw4 & Hr8).
  apply Matches_Grp_inv in H as (si & H & ->).
  assert (exists qc inner,
    ((qc =? DQUOTE) || (qc =? SQUOTE)) = true
    /\ forallb (not_char qc) inner = true
    /\ Run sh si ([qc] ++ inner ++ [qc]) [])
    as (qc & inner & Hq & Hinner & Hr9).
  { apply Matches_Alt_inv in H as [H | H].
    - apply (Matches_quoted_inv (fun _ => [])) in H
        as (c & Hc & Hr); [| apply inner_plain].
      by exists DQUOTE, c.
    - apply (Matches_quoted_inv (fun _ => [])) in H
        as (c & Hc & Hr); [| apply inner_plain].
      by exists SQUOTE, c. }
  apply (Run_group 2) in Hr9.
  pose proof (ci_eq_identifier _ _ Hrel Hirel) as Hirel'.
  pose proof (ci_eq_identifier _ _ Hfield Hifield) as Hifield'.
  exists (mkClause rel' ws1 ws2 field' ws3 op ws4 qc inner).
  split; [| split; [done | split; [done | split]]].
  - unfold wfClause, wfOp.
    cbn [c_rel c_ws1 c_ws2 c_field c_ws3 c_op c_ws4 c_quote c_inner].
    rewrite Hirel', Hw1, Hw2, Hifield', Hw3, Hw4, Hq, Hinner.
    cbn [andb]. rewrite !andb_true_r.
    destruct Hop as [-> | [-> | [Hl Hwb]]]; [done | done |].
    rewrite Hl. cbn [andb]. rewrite orb_true_iff. right.
    destruct ws3 as [|x ws3]; [| done]. exfalso.
    destruct Hr6 as [(_ & _ & Hp6) _]. simpl in Hp6.
    destruct Hr5 as [(_ & _ & Hp5) _]. simpl in Hp5.
    destruct (identifier_last _ Hifield') as (y & Hy & Hyw).
    rewrite Hy in Hp5. simpl in Hp5.
    unfold word_before in Hwb. rewrite Hp6, Hp5, Hyw in Hwb. done.
  - destruct (identifier_head _ Hirel') as (x & t & -> & Hx).
    destruct Hr1 as [(Hrest & _) _]. unfold word_after in Hb.
    rewrite Hrest in Hb. simpl in Hb. rewrite Hx in Hb.
    by destruct (word_before s).
  - pose proof
      (Run_trans _ _ _ _ _ _ _ Hr1
        (Run_trans _ _ _ _ _ _ _ Hr2
          (Run_trans _ _ _ _ _ _ _ Hr5
            (Run_trans _ _ _ _ _ _ _ Hr6
              (Run_trans _ _ _ _ _ _ _ Hr7
                (Run_trans _ _ _ _ _ _ _ Hr8 Hr9)))))) as Hr.
    unfold clauseText, clauseLiteral, clauseCaps. simpl in *.
    rewrite <- !app_assoc in Hr. simpl in Hr. exact Hr.
Qed.

Lemma CanRead_Chr (p : N -> bool) x : p x = true -> CanRead (Chr p) [x].
Proof.
  intros Hp [prev r idx caps] rest Hr. simpl in Hr. subst r.
  eexists. split; [by apply M_Chr | done].
Qed.

Lemma CanRead_StarC p c : forallb p c = true -> CanRead (StarC p) c.
Proof.
  induction c as [|x c IH]; intros Hp [prev r idx caps] rest Hr;
    simpl in Hr; subst r.
  - eexists. split; [apply M_Star0 | done].
  - simpl in Hp. apply andb_true_iff in Hp as [Hx Hc].
    destruct (IH Hc (mkMState (Some x) (c ++ rest) (S idx) caps) rest eq_refl)
      as (s1 & Hm & Hrest & Hprev).
    exists s1. split; [by apply M_StarS |]. split; [done |].
    rewrite Hprev, last_cons. simpl. by destruct (last c).
Qed.

Lemma CanRead_Seq a b c1 c2 :
  CanRead a c1 -> CanRead b c2 -> CanRead (Seq a b) (c1 ++ c2).
Proof.
  intros Ha Hb s rest Hr. rewrite <- app_assoc in Hr.
  destruct (Ha s _ Hr) as (s1 & Hm1 & Hr1 & Hp1).
  destruct (Hb s1 _ Hr1) as (s2 & Hm2 & Hr2 & Hp2).
  exists s2. split; [by econstructor |]. split; [done |].
  rewrite Hp2, Hp1, last_app. by destruct (last c2).
Qed.

Lemma CanRead_Grp n a c : CanRead a c -> CanRead (Grp n a) c.
Proof.
  intros Ha s rest Hr. destruct (Ha s _ Hr) as (s1 & Hm & Hr1 & Hp1).
  exists (set_cap n s s1). split; [by apply M_Grp | done].
Qed.

Lemma CanRead_AltL a b c : CanRead a c -> CanRead (Alt a b) c.
Proof.
  intros Ha s rest Hr. destruct (Ha s _ Hr) as (s1 & Hm & ?).
  exists s1. split; [by apply M_AltL | done].
Qed.

Lemma CanRead_AltR a b c : CanRead b c -> CanRead (Alt a b) c.
Proof.
  intros Ha s rest Hr. destruct (Ha s _ Hr) as (s1 & Hm & ?).
  exists s1. split; [by apply M_AltR | done].
Qed.

Lemma CanRead_Lit l : forall c, ci_eq l c = true -> CanRead (Lit l) c.
Proof.
  induction l as [|x [|y t] IH]; intros c Hc.
  - destruct c; [| done]. intros s rest Hr. exists s.
    split; [constructor | done].
  - destruct c as [|z [|? ?]]; simpl in Hc; try done.
    + apply CanRead_Chr. by rewrite andb_true_r in Hc.
    + by rewrite andb_false_r in Hc.
  - destruct c as [|z c]; [done |].
    change (ci_eq (x :: y :: t) (z :: c))
      with (lit_ci x z && ci_eq (y :: t) c) in Hc.
    apply andb_true_iff in Hc as [Hz Hc].
    change (Lit (x :: y :: t)) with (Seq (Chr (lit_ci x)) (Lit (y :: t))).
    apply (CanRead_Seq _ _ [z] c); [by apply CanRead_Chr | by apply IH].
Qed.

Lemma CanRead_quoted (inner : regex) qc c :
  CanRead inner c ->
  CanRead (Seq (Chr (is_char qc)) (Seq inner (Chr (is_char qc))))
    ([qc] ++ c ++ [qc]).
Proof.
  intros Hin. apply CanRead_Seq; [apply CanRead_Chr, N.eqb_refl |].
  apply CanRead_Seq; [done | apply CanRead_Chr, N.eqb_refl].
Qed.

(** The operator, in its context: the word [like] needs a non-word
    character (or nothing) on both sides. *)
Lemma opRe_intro n op s rest :
  ms_rest s = op ++ rest ->
  (op = u "=" \/ op = u "!="
   \/ (ci_eq (u "like") op = true /\ word_before s = false
       /\ match rest with x :: _ => is_word x = false | [] => True end)) ->
  exists s1, Matches (opRe n) s s1 /\ ms_rest s1 = rest
    /\ ms_prev s1 = from_option Some (ms_prev s) (last op).
Proof.
  intros Hr Hop.
  change (opRe n) with
    (Grp n (Alt (Lit (u "="))
              (Alt (Lit (u "!=")) (Seq WordB (Seq (Lit (u "like")) WordB))))).
  destruct Hop as [-> | [-> | (Hl & Hwb & Hnext)]].
  - apply (CanRead_Grp n _ (u "=")); [| done].
    apply CanRead_AltL, CanRead_Lit, ci_eq_refl.
  - apply (CanRead_Grp n _ (u "!=")); [| done].
    apply CanRead_AltR, CanRead_AltL, CanRead_Lit, ci_eq_refl.
  - destruct (CanRead_Lit _ _ Hl s rest Hr) as (s1 & Hm & Hr1 & Hp1).
    destruct (ci_eq_word_head _ _ 108 (u "ike") Hl eq_refl eq_refl)
      as (y & c' & -> & Hy).
    exists (set_cap n s s1). split; [| done].
    apply M_Grp, M_AltR, M_AltR.
    apply M_Seq with s.
    { apply M_WordB. unfold word_after. rewrite Hr. simpl.
      by rewrite Hwb, Hy. }
    apply M_Seq with s1; [done |].
    apply M_WordB. unfold word_before, word_after. rewrite Hp1, Hr1.
    assert (exists z, last (y :: c') = Some z /\ is_word z = true)
      as (z & -> & Hz).
    { pose proof (ci_eq_word _ _ Hl eq_refl) as Hw.
      destruct (last (y :: c')) as [z|] eqn:Hlast; [| by apply last_None in Hlast].
      exists z. split; [done |]. apply last_Some_elem_of in Hlast.
      rewrite forallb_forall in Hw. apply Hw. by apply list_elem_of_In. }
    simpl. rewrite Hz. destruct rest as [|x rest']; [done |]. by rewrite Hnext.
Qed.

Lemma quote_not_word qc :
  ((qc =? DQUOTE) || (qc =? SQUOTE)) = true -> is_word qc = false.
Proof. intros H. nbool. Qed.

Lemma wfClause_inv cl :
  wfClause cl = true ->
  is_identifier (c_rel cl) = true /\ forallb is_space (c_ws1 cl) = true
  /\ forallb is_space (c_ws2 cl) = true /\ is_identifier (c_field cl) = true
  /\ forallb is_space (c_ws3 cl) = true /\ wfOp cl = true
  /\ forallb is_space (c_ws4 cl) = true
  /\ ((c_quote cl =? DQUOTE) || (c_quote cl =? SQUOTE)) = true
  /\ forallb (not_char (c_quote cl)) (c_inner cl) = true.
Proof.
  unfold wfClause. rewrite !andb_true_iff. tauto.
Qed.

Lemma wfOp_inv cl :
  wfOp cl = true ->
  c_op cl = u "=" \/ c_op cl = u "!="
  \/ (ci_eq (u "like") (c_op cl) = true /\ c_ws3 cl <> []).
Proof.
  unfold wfOp, str_eqb. rewrite !orb_true_iff, andb_true_iff.
  rewrite !bool_decide_eq_true. intros [[H | H] | [H1 H2]]; auto.
  right; right. split; [done |]. by destruct (c_ws3 cl).
Qed.

(** The shape the two patterns share: a word boundary, the relation, a
    dot between optional white space, the field, the operator and the
    quoted literal. *)
Lemma clause_pattern_intro (relR fieldR litR : regex) n cl s rest :
  wfClause cl = true ->
  CanRead relR (c_rel cl) -> CanRead fieldR (c_field cl) ->
  CanRead litR (clauseLiteral cl) ->
  word_before s = false ->
  ms_rest s = clauseText cl ++ rest ->
  exists s1,
    Matches
      (seqs [ WordB; relR; StarC is_space; Chr (is_char DOT);
              StarC is_space; fieldR; StarC is_space; opRe n;
              StarC is_space; litR ]) s s1.
Proof.
  intros Hwf Hrel Hfield Hlit Hwb Hrest.
  apply wfClause_inv in Hwf
    as (Hirel & Hw1 & Hw2 & Hifield & Hw3 & Hop & Hw4 & Hq & Hinner).
  apply wfOp_inv in Hop.
  destruct cl as [crel ws1 ws2 cfield ws3 op ws4 qc inner].
  unfold clauseLiteral in Hlit.
  cbn [c_rel c_ws1 c_ws2 c_field c_ws3 c_op c_ws4 c_quote c_inner] in *.
  unfold clauseText, clauseLiteral in Hrest.
  cbn [c_rel c_ws1 c_ws2 c_field c_ws3 c_op c_ws4 c_quote c_inner] in Hrest.
  assert (CanRead
    (Seq relR (Seq (StarC is_space) (Seq (Chr (is_char DOT))
      (Seq (StarC is_space) (Seq fieldR (StarC is_space))))))
    (crel ++ ws1 ++ [DOT] ++ ws2 ++ cfield ++ ws3)) as HA.
  { repeat apply CanRead_Seq; try done; try (by apply CanRead_StarC).
    apply CanRead_Chr, N.eqb_refl. }
  destruct (HA s (op ++ ws4 ++ [qc] ++ inner ++ [qc] ++ rest))
    as (s6 & HmA & Hr6 & Hp6).
  { rewrite Hrest. by rewrite <- !app_assoc. }
  assert (CanRead (Seq (StarC is_space) litR)
            (ws4 ++ [qc] ++ inner ++ [qc])) as HB.
  { apply CanRead_Seq; [by apply CanRead_StarC | done]. }
  destruct (opRe_intro n op s6 (ws4 ++ [qc] ++ inner ++ [qc] ++ rest) Hr6)
    as (s7 & Hm7 & Hr7 & Hp7).
  { destruct Hop as [-> | [-> | [Hl Hne]]]; [by left | by right; left |].
    right; right. split; [done |]. split.
    - unfold word_before. rewrite Hp6.
      destruct ws3 as [|x ws3]; [done |].
      rewrite !app_assoc, last_app.
      destruct (last (x :: ws3)) as [z|] eqn:Hlast;
        [| by apply last_None in Hlast].
      simpl. apply space_not_word. apply last_Some_elem_of in Hlast.
      rewrite forallb_forall in Hw3. apply Hw3. by apply list_elem_of_In.
    - destruct ws4 as [|x ws4]; simpl.
      + by apply quote_not_word.
      + simpl in Hw4. apply andb_true_iff in Hw4 as [Hw4 _].
        by apply space_not_word. }
  destruct (HB s7 rest) as (s9 & HmB & _).
  { rewrite Hr7. by rewrite <- !app_assoc. }
  exists s9.
  apply Matches_Seq_inv in HmA as (sa & M1 & HmA).
  apply Matches_Seq_inv in HmA as (sb & M2 & HmA).
  apply Matches_Seq_inv in HmA as (sc & M3 & HmA).
  apply Matches_Seq_inv in HmA as (sd & M4 & HmA).
  apply Matches_Seq_inv in HmA as (se & M5 & M6).
  apply Matches_Seq_inv in HmB as (sf & M8 & M9).
  cbn [seqs]. apply M_Seq with s.
  { apply M_WordB. rewrite Hwb. unfold word_after. rewrite Hrest.
    destruct (identifier_head _ Hirel) as (x & t & -> & Hx).
    simpl. by rewrite Hx. }
  repeat (eapply M_Seq; [eassumption |]). done.
Qed.

Lemma CanRead_ident c : is_identifier c = true -> CanRead identRe c.
Proof.
  destruct c as [|x t]; [done |]. simpl. intros H.
  apply andb_true_iff in H as [Hx Ht].
  apply (CanRead_Seq _ _ [x] t); [by apply CanRead_Chr |].
  by apply CanRead_StarC.
Qed.

(** Every clause of the grammar at a word boundary is matched by the
    detector's pattern. *)
Lemma detectRe_intro cl s rest :
  wfClause cl = true -> word_before s = false ->
  ms_rest s = clauseText cl ++ rest ->
  exists s1, Matches detectRe s s1.
Proof.
  intros Hwf Hwb Hrest. pose proof Hwf as Hwf'.
  apply wfClause_inv in Hwf'
    as (Hirel & _ & _ & Hifield & _ & _ & _ & Hq & Hinner).
  apply (clause_pattern_intro (Grp 1 identRe) (Grp 2 identRe)
           (Grp 4 (Alt
              (Seq (Chr (is_char DQUOTE))
                 (Seq (Grp 5 (StarC (not_char DQUOTE)))
                    (Chr (is_char DQUOTE))))
              (Seq (Chr (is_char SQUOTE))
                 (Seq (Grp 6 (StarC (not_char SQUOTE)))
                    (Chr (is_char SQUOTE)))))) 3 cl s rest);
    try done.
  - by apply CanRead_Grp, CanRead_ident.
  - by apply CanRead_Grp, CanRead_ident.
  - apply CanRead_Grp. unfold clauseLiteral.
    apply orb_true_iff in Hq as [Hq | Hq]; apply N.eqb_eq in Hq;
      rewrite Hq in *.
    + apply CanRead_AltL, CanRead_quoted, CanRead_Grp.
      by apply CanRead_StarC.
    + apply CanRead_AltR, CanRead_quoted, CanRead_Grp.
      by apply CanRead_StarC.
Qed.

Lemma clauseRe_intro rel field cl s rest :
  wfClause cl = true ->
  ci_eq rel (c_rel cl) = true -> ci_eq field (c_field cl) = true ->
  word_before s = false ->
  ms_rest s = clauseText cl ++ rest ->
  exists s1, Matches (clauseRe rel field) s s1.
Proof.
  intros Hwf Hrel Hfield Hwb Hrest. pose proof Hwf as Hwf'.
  apply wfClause_inv in Hwf' as (_ & _ & _ & _ & _ & _ & _ & Hq & Hinner).
  apply (clause_pattern_intro (Lit rel) (Lit field)
           (Grp 2 (Alt
              (Seq (Chr (is_char DQUOTE))
                 (Seq (StarC (not_char DQUOTE)) (Chr (is_char DQUOTE))))
              (Seq (Chr (is_char SQUOTE))
                 (Seq (StarC (not_char SQUOTE)) (Chr (is_char SQUOTE))))))
           1 cl s rest); try done.
  - by apply CanRead_Lit.
  - by apply CanRead_Lit.
  - apply CanRead_Grp. unfold clauseLiteral.
    apply orb_true_iff in Hq as [Hq | Hq]; apply N.eqb_eq in Hq;
      rewrite Hq in *.
    + apply CanRead_AltL, CanRead_quoted. by apply CanRead_StarC.
    + apply CanRead_AltR, CanRead_quoted. by apply CanRead_StarC.
Qed.

Lemma trimStart_id s :
  match s with c :: _ => is_space c = false | [] => True end ->
  trimStart s = s.
Proof. destruct s as [|c t]; [done |]. simpl. by intros ->. Qed.

Lemma word_not_space c : is_word c = true -> is_space c = false.
Proof.
  intros H. destruct (is_space c) eqn:Hs; [| done].
  apply space_not_word in Hs. congruence.
Qed.

Lemma trim_identifier s : is_identifier s = true -> trim s = s.
Proof.
  intros H. unfold trim, trimEnd.
  destruct (identifier_head _ H) as (x & t & Hs & Hx).
  destruct (identifier_last _ H) as (y & Hl & Hy).
  rewrite (trimStart_id s).
  2:{ rewrite Hs. by apply word_not_space. }
  apply last_Some in Hl as [l' ->].
  rewrite rev_app_distr. simpl.
  rewrite (word_not_space _ Hy). simpl.
  by rewrite rev_involutive.
Qed.

Lemma cap_text_detect m cl :
  m_caps m = detectCaps cl ->
  cap_text m 1 = c_rel cl /\ cap_text m 2 = c_field cl
  /\ cap_text m 3 = c_op cl
  /\ (match group m 5 with Some v => v | None => default [] (group m 6) end)
     = c_inner cl.
Proof.
  intros H. unfold cap_text, group. rewrite H. unfold detectCaps.
  destruct (c_quote cl =? DQUOTE); simpl; done.
Qed.

Lemma normalizeOp_cases o :
  normalizeOp o = u "=" \/ normalizeOp o = u "!=" \/ normalizeOp o = u "like".
Proof.
  unfold normalizeOp.
  repeat match goal with |- context [if ?b then _ else _] => destruct b end;
    auto.
Qed.

(** What the detector returns for a match: the clause's identifiers, its
    normalised operator and its inner text. *)
Lemma predOfMatch_clause m cl :
  wfClause cl = true -> m_caps m = detectCaps cl ->
  predOfMatch m
  = mkPred (c_rel cl) (c_field cl) (normalizeOp (c_op cl)) (c_inner cl).
Proof.
  intros Hwf Hc. unfold predOfMatch.
  destruct (cap_text_detect _ _ Hc) as (-> & -> & -> & ->).
  apply wfClause_inv in Hwf as (Hirel & _ & _ & Hifield & _).
  by rewrite !trim_identifier.
Qed.

(** A detected predicate's own pattern matches the filter it was detected
    in. *)
Lemma detected_clause_matches w i m :
  exec detectRe w i = Some m ->
  is_Some (exec (clauseRe (p_rel (predOfMatch m)) (p_field (predOfMatch m)))
             w 0).
Proof.
  intros H. pose proof H as H'.
  apply exec_inv in H' as (Hi & _ & _).
  apply exec_detect_inv in H as (cl & Hwf & Hwb & Hw & _ & He & Hc).
  rewrite (predOfMatch_clause _ _ Hwf Hc). simpl.
  destruct (clauseRe_intro (c_rel cl) (c_field cl) cl (stateAt w (m_index m))
              (drop (m_end m) w) Hwf (ci_eq_refl _) (ci_eq_refl _) Hwb)
    as (s1 & Hm).
  { simpl. rewrite Hw at 1. rewrite drop_app_length'; [done |].
    rewrite length_take. lia. }
  apply (exec_complete _ w 0 (m_index m)); [lia |].
  by eapply matchAt_complete.
Qed.

(** ** A clause is read in one way only *)

Lemma span_unique (p : N -> bool) : forall a b x y,
  forallb p a = true -> forallb p b = true -> a ++ x = b ++ y ->
  stops p x -> stops p y -> a = b /\ x = y.
Proof.
  induction a as [|c a IH]; intros [|d b] x y Ha Hb Heq Hx Hy; simpl in *.
  - done.
  - subst x. simpl in Hx. apply andb_true_iff in Hb as [Hd _]. congruence.
  - subst y. simpl in Hy. apply andb_true_iff in Ha as [Hc _]. congruence.
  - injection Heq as -> Heq.
    apply andb_true_iff in Ha as [_ Ha]. apply andb_true_iff in Hb as [_ Hb].
    destruct (IH b x y Ha Hb Heq Hx Hy) as [-> ->]. done.
Qed.

Lemma identifier_word f : is_identifier f = true -> forallb is_word f = true.
Proof.
  destruct f as [|c t]; [done |]. simpl. intros H.
  apply andb_true_iff in H as [H1 H2]. by rewrite (ident_start_word _ H1).
Qed.

Lemma stops_space_then p ws x :
  forallb is_space ws = true ->
  (forall c, is_space c = true -> p c = false) ->
  stops p x -> stops p (ws ++ x).
Proof.
  intros Hw Hp Hx. destruct ws as [|c ws]; [done |]. simpl in *.
  apply andb_true_iff in Hw as [Hc _]. by apply Hp.
Qed.

(** The operator texts are told apart by their first character. *)
Lemma op_unique o1 o2 t1 t2 :
  (o1 = u "=" \/ o1 = u "!=" \/ ci_eq (u "like") o1 = true) ->
  (o2 = u "=" \/ o2 = u "!=" \/ ci_eq (u "like") o2 = true) ->
  o1 ++ t1 = o2 ++ t2 -> o1 = o2 /\ t1 = t2.
Proof.
  intros H1 H2 Heq.
  assert (forall o, ci_eq (u "like") o = true ->
            exists a b c d, o = [a; b; c; d] /\ lit_ci 108 a = true) as Hlike.
  { intros o Ho. pose proof (ci_eq_length _ _ Ho) as Hl.
    change (length (u "like")) with 4%nat in Hl.
    destruct o as [|a [|b [|c [|d [|e o]]]]]; simpl in Hl; try lia.
    exists a, b, c, d. split; [done |].
    change (ci_eq (u "like") [a; b; c; d])
      with (lit_ci 108 a && (lit_ci 105 b && (lit_ci 107 c
              && (lit_ci 101 d && true)))) in Ho.
    by apply andb_true_iff in Ho as [Ho _]. }
  destruct H1 as [-> | [-> | H1]], H2 as [-> | [-> | H2]];
    try (apply Hlike in H1 as (a1 & b1 & c1 & d1 & -> & Ha1));
    try (apply Hlike in H2 as (a2 & b2 & c2 & d2 & -> & Ha2));
    change (u "=") with [61] in *; change (u "!=") with [33; 61] in *;
    simpl in Heq; injection Heq; intros; subst; try done;
    exfalso;
    match goal with
    | H : lit_ci 108 _ = true |- _ => vm_compute in H; discriminate
    end.
Qed.

Lemma wfOp_head cl :
  wfOp cl = true ->
  exists c t, c_op cl = c :: t /\ is_space c = false
    /\ (c_ws3 cl = [] -> is_word c = false).
Proof.
  intros H. apply wfOp_inv in H as [H | [H | [H Hne]]].
  - exists 61, []. rewrite H. done.
  - exists 33, [61]. rewrite H. done.
  - pose proof (ci_eq_length _ _ H) as Hl.
    destruct (c_op cl) as [|c t]; [done |]. exists c, t.
    split; [done |]. split; [| done].
    change (ci_eq (u "like") (c :: t))
      with (lit_ci 108 c && ci_eq (u "ike") t) in H.
    apply andb_true_iff in H as [H _].
    apply word_not_space. by apply (lit_ci_letter 108).
Qed.

Lemma wfOp_texts cl :
  wfOp cl = true ->
  c_op cl = u "=" \/ c_op cl = u "!=" \/ ci_eq (u "like") (c_op cl) = true.
Proof. intros H. apply wfOp_inv in H as [H | [H | [H _]]]; auto. Qed.

Lemma quote_cases q :
  ((q =? DQUOTE) || (q =? SQUOTE)) = true ->
  is_space q = false /\ is_word q = false.
Proof.
  intros H. apply orb_true_iff in H as [H | H]; apply N.eqb_eq in H;
    subst; done.
Qed.

Lemma clause_unique c1 c2 r1 r2 :
  wfClause c1 = true -> wfClause c2 = true ->
  clauseText c1 ++ r1 = clauseText c2 ++ r2 -> c1 = c2 /\ r1 = r2.
Proof.
  intros H1 H2 Heq.
  apply wfClause_inv in H1
    as (Hr1 & Ha1 & Hb1 & Hf1 & Hc1 & Ho1 & Hd1 & Hq1 & Hi1).
  apply wfClause_inv in H2
    as (Hr2 & Ha2 & Hb2 & Hf2 & Hc2 & Ho2 & Hd2 & Hq2 & Hi2).
  destruct (wfOp_head _ Ho1) as (x1 & o1 & Hop1 & Hx1 & Hx1').
  destruct (wfOp_head _ Ho2) as (x2 & o2 & Hop2 & Hx2 & Hx2').
  apply wfOp_texts in Ho1. apply wfOp_texts in Ho2.
  destruct (identifier_head _ Hf1) as (y1 & f1 & Hfe1 & Hy1).
  destruct (identifier_head _ Hf2) as (y2 & f2 & Hfe2 & Hy2).
  destruct (quote_cases _ Hq1) as [Hqs1 Hqw1].
  destruct (quote_cases _ Hq2) as [Hqs2 Hqw2].
  destruct c1 as [rel1 a1 b1 fld1 w1 op1 d1 q1 in1].
  destruct c2 as [rel2 a2 b2 fld2 w2 op2 d2 q2 in2].
  unfold clauseText, clauseLiteral in Heq.
  cbn [c_rel c_ws1 c_ws2 c_field c_ws3 c_op c_ws4 c_quote c_inner] in *.
  rewrite <- !app_assoc in Heq.
  (* rel *)
  apply (span_unique is_word) in Heq as [-> Heq];
    [| by apply identifier_word | by apply identifier_word | |].
  2:{ apply stops_space_then; [done | apply space_not_word | done]. }
  2:{ apply stops_space_then; [done | apply space_not_word | done]. }
  (* ws1, dot *)
  apply (span_unique is_space) in Heq as [-> Heq]; [| done | done | done..].
  injection Heq as Heq.
  (* ws2 *)
  apply (span_unique is_space) in Heq as [-> Heq]; [| done | done | |].
  2:{ rewrite Hfe1. simpl. by apply word_not_space. }
  2:{ rewrite Hfe2. simpl. by apply word_not_space. }
  (* field *)
  apply (span_unique is_word) in Heq as [-> Heq];
    [| by apply identifier_word | by apply identifier_word | |].
  2:{ destruct w1 as [|z w1]; simpl.
      - rewrite Hop1. simpl. by apply Hx1'.
      - simpl in Hc1. apply andb_true_iff in Hc1 as [Hz _].
        by apply space_not_word. }
  2:{ destruct w2 as [|z w2]; simpl.
      - rewrite Hop2. simpl. by apply Hx2'.
      - simpl in Hc2. apply andb_true_iff in Hc2 as [Hz _].
        by apply space_not_word. }
  (* ws3 *)
  apply (span_unique is_space) in Heq as [-> Heq]; [| done | done | |].
  2:{ by rewrite Hop1. }
  2:{ by rewrite Hop2. }
  (* op *)
  apply op_unique in Heq as [Heq1 Heq]; [| done | done].
  (* ws4 *)
  apply (span_unique is_space) in Heq as [-> Heq]; [| done | done | done..].
  injection Heq as -> Heq.
  (* inner *)
  apply (span_unique (not_char q2)) in Heq as [-> Heq];
    [| done | done | |].
  2:{ simpl. unfold not_char. by rewrite N.eqb_refl. }
  2:{ simpl. unfold not_char. by rewrite N.eqb_refl. }
  injection Heq as ->. by subst.
Qed.

(** ** Replacement *)

Lemma getSubstitution_plain ncaps w m tpl :
  DOLLAR ∉ tpl -> getSubstitution ncaps w m tpl = tpl.
Proof.
  induction tpl as [|c t IH]; intros H; [done |].
  apply not_elem_of_cons in H as [Hc Ht]. simpl.
  destruct (c =? DOLLAR) eqn:E; [apply N.eqb_eq in E; congruence |].
  simpl. by rewrite IH.
Qed.

Lemma replace_plain r ncaps w repl m :
  exec r w 0 = Some m -> DOLLAR ∉ repl ->
  replace r ncaps w repl = take (m_index m) w ++ repl ++ drop (m_end m) w.
Proof.
  intros He Hd. unfold replace. rewrite He.
  by rewrite getSubstitution_plain.
Qed.

Lemma replace_no_match r ncaps w repl :
  exec r w 0 = None -> replace r ncaps w repl = w.
Proof. intros He. unfold replace. by rewrite He. Qed.

(** A replacement keeps every part of the text that its match does not
    overlap. *)
Lemma replace_frame r n w repl pre c post :
  w = pre ++ c ++ post ->
  (forall m, exec r w 0 = Some m ->
     (m_end m <= length pre)%nat \/ (length pre + length c <= m_index m)%nat) ->
  exists pre' post', replace r n w repl = pre' ++ c ++ post'.
Proof.
  intros Hw Hm. unfold replace.
  destruct (exec r w 0) as [m|] eqn:E; [| by exists pre, post].
  destruct (Hm m eq_refl) as [H | H].
  - assert (drop (m_end m) w = drop (m_end m) pre ++ c ++ post) as ->
      by (rewrite Hw; by apply drop_app_le).
    eexists _, post. by rewrite !app_assoc.
  - assert (take (m_index m) w
            = pre ++ c ++ take (m_index m - length pre - length c) post)
      as ->.
    { rewrite Hw. rewrite take_app_ge by lia. by rewrite take_app_ge by lia. }
    eexists pre, _. by rewrite <- !app_assoc.
Qed.

Lemma occursIn_spec x w :
  occursIn x w = true <-> exists pre post, w = pre ++ x ++ post.
Proof.
  unfold occursIn. rewrite existsb_exists. split.
  - intros (i & _ & Hi). unfold str_eqb in Hi.
    apply bool_decide_eq_true in Hi.
    exists (take i w), (drop (length x) (drop i w)).
    assert (x ++ drop (length x) (drop i w) = drop i w) as ->.
    { rewrite <- Hi at 1. apply take_drop. }
    by rewrite take_drop.
  - intros (pre & post & ->). exists (length pre). split.
    + apply in_seq. rewrite !length_app. lia.
    + unfold str_eqb. apply bool_decide_eq_true.
      by rewrite drop_app_length, take_app_length.
Qed.

(** ** Characters of the texts the rewriter builds *)

Lemma elem_of_escape c v :
  c ∈ escapeWhereString v -> c ∈ v \/ c = BACKSLASH.
Proof.
  induction v as [|x v IH]; simpl; [by left |].
  destruct (x =? DQUOTE) eqn:E.
  - rewrite !elem_of_cons. intros [-> | [-> | H]]; [by right | |].
    + apply N.eqb_eq in E as ->. left. by left.
    + destruct (IH H) as [? | ?]; [left; by right | by right].
  - rewrite !elem_of_cons. intros [-> | H]; [left; by left |].
    destruct (IH H) as [? | ?]; [left; by right | by right].
Qed.

Lemma elem_of_join c sep parts :
  c ∈ join sep parts -> c ∈ sep \/ exists part, part ∈ parts /\ c ∈ part.
Proof.
  induction parts as [|x [|y parts] IH]; simpl.
  - by intros ?%elem_of_nil.
  - intros H. right. exists x. split; [by left | done].
  - rewrite !elem_of_app. intros [H | [H | H]].
    + right. exists x. split; [by left | done].
    + by left.
    + destruct (IH H) as [? | (part & Hp & Hc)]; [by left |].
      right. exists part. split; [by right | done].
Qed.

Lemma elem_of_sub (l1 l2 : str) c :
  forallb (fun x => bool_decide (x ∈ l2)) l1 = true -> c ∈ l1 -> c ∈ l2.
Proof.
  rewrite forallb_forall. intros H Hc.
  apply list_elem_of_In, H in Hc. by apply bool_decide_eq_true in Hc.
Qed.

Ltac literal_char H :=
  left; refine (elem_of_sub _ _ _ _ H); vm_compute; reflexivity.

(** A character that is not part of the rewriter's own punctuation occurs
    in a disjunction only through the join field or a key. *)
Lemma elem_of_buildOrBlock c f keys :
  c ∈ buildOrBlock f keys ->
  c ∈ u "( or)=" \/ c = DQUOTE \/ c = BACKSLASH \/ c ∈ f
  \/ exists k, k ∈ keys /\ c ∈ k.
Proof.
  unfold buildOrBlock. rewrite !elem_of_app. intros [H | [H | H]].
  - literal_char H.
  - apply elem_of_join in H as [H | (part & Hp & Hc)].
    + literal_char H.
    + apply list_elem_of_In, in_map_iff in Hp as (k & <- & Hk).
      apply list_elem_of_In in Hk. unfold keyClause in Hc.
      rewrite !elem_of_app in Hc.
      destruct Hc as [Hc | [Hc | [Hc | [Hc | Hc]]]].
      * by right; right; right; left.
      * literal_char Hc.
      * apply list_elem_of_singleton in Hc. by right; left.
      * apply elem_of_escape in Hc as [Hc | Hc].
        -- right; right; right; right. by exists k.
        -- by right; right; left.
      * apply list_elem_of_singleton in Hc. by right; left.
  - literal_char H.
Qed.

Lemma elem_of_falseClause c f :
  c ∈ falseClauseOf f -> c ∈ u "=__NO_MATCH__" \/ c = DQUOTE \/ c ∈ f.
Proof.
  unfold falseClauseOf. rewrite !elem_of_app.
  intros [H | [H | [H | [H | H]]]].
  - by right; right.
  - literal_char H.
  - apply list_elem_of_singleton in H. by right; left.
  - literal_char H.
  - apply list_elem_of_singleton in H. by right; left.
Qed.

Lemma buildOrBlock_free c f keys :
  (c ∉ u "( or)=") -> c <> DQUOTE -> c <> BACKSLASH ->
  (c ∉ f) -> (forall k, k ∈ keys -> c ∉ k) -> c ∉ buildOrBlock f keys.
Proof.
  intros H1 H2 H3 H4 H5 H.
  apply elem_of_buildOrBlock in H as [H | [H | [H | [H | (k & Hk & H)]]]];
    try done.
  by apply (H5 k).
Qed.

Lemma falseClause_free c f :
  (c ∉ u "=__NO_MATCH__") -> c <> DQUOTE -> (c ∉ f) -> c ∉ falseClauseOf f.
Proof.
  intros H1 H2 H3 H. apply elem_of_falseClause in H as [H | [H | H]]; done.
Qed.

Lemma DOLLAR_plain : (DOLLAR ∉ u "( or)=") /\ (DOLLAR ∉ u "=__NO_MATCH__").
Proof. split; apply (bool_decide_unpack _); by vm_compute. Qed.

Lemma DOT_plain : (DOT ∉ u "( or)=") /\ (DOT ∉ u "=__NO_MATCH__").
Proof. split; apply (bool_decide_unpack _); by vm_compute. Qed.

(** ** The detector on a filter without a dot *)

Lemma detect_no_dot w : DOT ∉ w -> detectRelationshipPredicates w = [].
Proof.
  intros H. unfold detectRelationshipPredicates. simpl.
  by rewrite exec_detect_no_dot.
Qed.

(** Every match of the loop comes from a search. *)
Lemma execAll_elem r w m : forall fuel i,
  m ∈ execAll fuel r w i -> exists j, exec r w j = Some m.
Proof.
  induction fuel as [|fuel IH]; intros i; simpl; [by intros ?%elem_of_nil |].
  destruct (exec r w i) as [m'|] eqn:He; [| by intros ?%elem_of_nil].
  rewrite elem_of_cons. intros [-> | H]; [by exists i | by eapply IH].
Qed.

Lemma detected_inv w p :
  p ∈ detectRelationshipPredicates w ->
  exists i m cl, exec detectRe w i = Some m /\ wfClause cl = true
    /\ m_caps m = detectCaps cl
    /\ w = take (m_index m) w ++ clauseText cl ++ drop (m_end m) w
    /\ p = mkPred (c_rel cl) (c_field cl) (normalizeOp (c_op cl)) (c_inner cl).
Proof.
  unfold detectRelationshipPredicates. intros H.
  apply list_elem_of_In, in_map_iff in H as (m & <- & Hm).
  apply list_elem_of_In, execAll_elem in Hm as [i He].
  pose proof He as He'.
  apply exec_detect_inv in He' as (cl & Hwf & _ & Hw & _ & _ & Hc).
  exists i, m, cl. repeat split; try done.
  by apply predOfMatch_clause.
Qed.

(** The detector's predicates are well formed: identifiers and one of the
    three operators. *)
Lemma detected_wf w p :
  p ∈ detectRelationshipPredicates w ->
  is_identifier (p_rel p) = true /\ is_identifier (p_field p) = true
  /\ (p_op p = u "=" \/ p_op p = u "!=" \/ p_op p = u "like").
Proof.
  intros H. apply detected_inv in H as (i & m & cl & _ & Hwf & _ & _ & ->).
  apply wfClause_inv in Hwf as (Hirel & _ & _ & Hifield & _). simpl.
  split; [done |]. split; [done |]. apply normalizeOp_cases.
Qed.


(** The loop of the detector never runs out of fuel: every match is
    non-empty, so any fuel above the remaining length gives the same
    list. *)
Lemma execAll_detect_fuel w : forall f1 f2 i,
  (length w - i < f1)%nat -> (length w - i < f2)%nat ->
  execAll f1 detectRe w i = execAll f2 detectRe w i.
Proof.
  induction f1 as [|f1 IH]; intros f2 i H1 H2; [lia |].
  destruct f2 as [|f2]; [lia |]. simpl.
  destruct (exec detectRe w i) as [m|] eqn:He; [| done].
  f_equal. pose proof He as He'.
  apply exec_inv in He' as (Hi & _ & _).
  apply exec_detect_inv in He as (cl & _ & _ & Hw & _ & Hend & _).
  assert (0 < length (clauseText cl))%nat as Hpos.
  { pose proof (clauseText_dot cl) as Hd. destruct (clauseText cl); [| simpl; lia].
    by apply elem_of_nil in Hd. }
  assert (m_end m <= length w)%nat as Hle.
  { apply (f_equal length) in Hw. rewrite !length_app, length_take in Hw. lia. }
  apply IH; lia.
Qed.

(** ** The match of a detected predicate's pattern *)

Lemma clause_match_inv rel field w m :
  is_identifier rel = true -> is_identifier field = true ->
  exec (clauseRe rel field) w 0 = Some m ->
  exists cl, wfClause cl = true
    /\ ci_eq rel (c_rel cl) = true /\ ci_eq field (c_field cl) = true
    /\ w = take (m_index m) w ++ clauseText cl ++ drop (m_end m) w
    /\ m_end m = (m_index m + length (clauseText cl))%nat
    /\ m_caps m = clauseCaps cl.
Proof.
  intros Hr Hf He. apply exec_inv in He as (Hi & Hm & _).
  apply matchAt_inv in Hm as (s1 & Hm & Heq).
  apply clauseRe_inv in Hm as (cl & Hwf & Hcr & Hcf & _ & Hrun);
    [| done..].
  apply run_span in Hrun as (H1 & H2 & _ & H4); [| lia].
  exists cl. rewrite Heq in *. simpl in *. done.
Qed.

Lemma detected_clause_found w p :
  p ∈ detectRelationshipPredicates w ->
  exists m cl,
    exec (clauseRe (p_rel p) (p_field p)) w 0 = Some m
    /\ wfClause cl = true
    /\ ci_eq (p_rel p) (c_rel cl) = true
    /\ ci_eq (p_field p) (c_field cl) = true
    /\ w = take (m_index m) w ++ clauseText cl ++ drop (m_end m) w.
Proof.
  intros H. pose proof (detected_wf _ _ H) as (Hr & Hf & _).
  unfold detectRelationshipPredicates in H.
  apply list_elem_of_In, in_map_iff in H as (m0 & <- & Hm0).
  apply list_elem_of_In, execAll_elem in Hm0 as [i He].
  destruct (detected_clause_matches _ _ _ He) as [m Hm].
  destruct (clause_match_inv _ _ _ _ Hr Hf Hm) as (cl & ? & ? & ? & ? & _).
  by exists m, cl.
Qed.



Lemma drop_middle (w : str) i x e :
  (i <= length w)%nat -> w = take i w ++ x ++ drop e w ->
  drop i w = x ++ drop e w.
Proof.
  intros Hi Hw. rewrite Hw at 1. rewrite drop_app_length'; [done |].
  rewrite length_take. lia.
Qed.

(** Where the per-predicate pattern matches, the detector's pattern
    matches too. *)
Lemma clause_match_detected rel field w j m' :
  is_identifier rel = true -> is_identifier field = true ->
  (j <= length w)%nat ->
  matchAt (clauseRe rel field) (char_before w j) (drop j w) j = Some m' ->
  is_Some (matchAt detectRe (char_before w j) (drop j w) j).
Proof.
  intros Hr Hf Hj Hm. apply matchAt_inv in Hm as (s1 & Hm & _).
  apply clauseRe_inv in Hm as (cl & Hwf & _ & _ & Hwb & [(Hrest & _) _]);
    [| done..].
  destruct (detectRe_intro cl (stateAt w j) (ms_rest s1) Hwf Hwb Hrest)
    as (s2 & Hs2).
  by eapply matchAt_complete.
Qed.

Lemma first_detected_span w m :
  exec detectRe w 0 = Some m ->
  exists m',
    exec (clauseRe (p_rel (predOfMatch m)) (p_field (predOfMatch m))) w 0
    = Some m'
    /\ m_index m' = m_index m /\ m_end m' = m_end m.
Proof.
  intros He.
  destruct (detected_clause_matches _ _ _ He) as [m' Hm'].
  exists m'. split; [done |].
  pose proof He as He1. apply exec_inv in He1 as (Hi & Hat & Hleft).
  pose proof He as He2.
  apply exec_detect_inv in He2 as (cl & Hwf & Hwb & Hw & _ & Hend & Hcaps).
  pose proof (predOfMatch_clause _ _ Hwf Hcaps) as Hp.
  pose proof (wfClause_inv _ Hwf) as (Hirel & _ & _ & Hifield & _).
  rewrite Hp in *. cbn [p_rel p_field] in *.
  pose proof Hm' as Hm1. apply exec_inv in Hm1 as (Hi' & Hat' & Hleft').
  destruct (clause_match_inv _ _ _ _ Hirel Hifield Hm')
    as (cl' & Hwf' & _ & _ & Hw' & Hend' & _).
  assert (m_index m' = m_index m) as Hidx.
  { destruct (Nat.lt_trichotomy (m_index m') (m_index m)) as [Hlt | [? | Hgt]];
      [| done |].
    - destruct (clause_match_detected _ _ _ _ _ Hirel Hifield
                  (proj2 Hi') Hat') as [x Hx].
      rewrite Hleft in Hx; [done | lia].
    - destruct (clauseRe_intro (c_rel cl) (c_field cl) cl
                  (stateAt w (m_index m)) (drop (m_end m) w) Hwf
                  (ci_eq_refl _) (ci_eq_refl _) Hwb) as (s1 & Hs1).
      { simpl. apply drop_middle; [lia | done]. }
      destruct (matchAt_complete _ _ _ _ _ Hs1) as [x Hx].
      rewrite Hleft' in Hx; [done | lia]. }
  split; [done |].
  apply drop_middle in Hw; [| lia]. apply drop_middle in Hw'; [| lia].
  rewrite Hidx, Hw in Hw'.
  apply clause_unique in Hw' as [-> _]; [| done..]. lia.
Qed.

Lemma replace_first_detected w m repl :
  exec detectRe w 0 = Some m -> (DOLLAR ∉ repl) ->
  replace (clauseRe (p_rel (predOfMatch m)) (p_field (predOfMatch m))) 2 w
    repl
  = take (m_index m) w ++ repl ++ drop (m_end m) w.
Proof.
  intros He Hd. destruct (first_detected_span _ _ He) as (m' & Hm' & <- & <-).
  by apply replace_plain.
Qed.

(** ** The loop body, case by case *)

Section Facts.

Variable JSON_parse : str -> option JsVal.

#[local] Abbreviation body := (loopBody JSON_parse).
#[local] Abbreviation resolved := (resolve JSON_parse).

Lemma body_unconfigured env a relsForOs apiBase st p :
  configured relsForOs (p_rel p) = None ->
  body env a relsForOs apiBase st p = st.
Proof. unfold loopBody. by intros ->. Qed.

Lemma body_unusable env a relsForOs apiBase st p rc :
  configured relsForOs (p_rel p) = Some rc -> unusable rc = true ->
  body env a relsForOs apiBase st p = st.
Proof. unfold loopBody. by intros -> ->. Qed.

Lemma body_throw env a relsForOs apiBase st p rc e :
  configured relsForOs (p_rel p) = Some rc -> unusable rc = false ->
  resolved a apiBase (ls_calls st) rc p = Throw e ->
  body env a relsForOs apiBase st p
  = mkLoopState
      (push_error
         (push_step (set_mode (ls_plan st) ModePrefetch)
            (announce env a rc p))
         (mkPlanError (Some (p_rel p)) e))
      (ls_where st) (ls_params st)
      (fst (issue a apiBase rc p st)) (snd (issue a apiBase rc p st)).
Proof.
  unfold loopBody. intros -> -> ->.
  by destruct (issue a apiBase rc p st).
Qed.

Lemma body_no_keys env a relsForOs apiBase st p rc outKeys n :
  configured relsForOs (p_rel p) = Some rc -> unusable rc = false ->
  resolved a apiBase (ls_calls st) rc p = Ok (outKeys, n) ->
  usedKeys (maxKeysOf env rc) outKeys = [] ->
  body env a relsForOs apiBase st p
  = mkLoopState
      (planResolved env a st p rc outKeys
         (falseClauseOf (rootJoinFieldOf rc))
         (Some (u "no related matches")))
      (replace (clauseRe (p_rel p) (p_field p)) 2 (ls_where st)
         (falseClauseOf (rootJoinFieldOf rc)))
      (ls_params st)
      (fst (issue a apiBase rc p st)) (snd (issue a apiBase rc p st)).
Proof.
  unfold loopBody, planResolved. intros -> -> -> Hk.
  destruct (issue a apiBase rc p st). by rewrite Hk.
Qed.

Lemma body_keys env a relsForOs apiBase st p rc outKeys n :
  configured relsForOs (p_rel p) = Some rc -> unusable rc = false ->
  resolved a apiBase (ls_calls st) rc p = Ok (outKeys, n) ->
  usedKeys (maxKeysOf env rc) outKeys <> [] ->
  body env a relsForOs apiBase st p
  = mkLoopState
      (planResolved env a st p rc outKeys
         (buildOrBlock (rootJoinFieldOf rc)
            (usedKeys (maxKeysOf env rc) outKeys))
         None)
      (replace (clauseRe (p_rel p) (p_field p)) 2 (ls_where st)
         (buildOrBlock (rootJoinFieldOf rc)
            (usedKeys (maxKeysOf env rc) outKeys)))
      (ls_params st)
      (fst (issue a apiBase rc p st)) (snd (issue a apiBase rc p st)).
Proof.
  unfold loopBody, planResolved. intros -> -> -> Hk.
  destruct (issue a apiBase rc p st).
  destruct (usedKeys (maxKeysOf env rc) outKeys) eqn:E; [done |]. done.
Qed.

(** An iteration leaves the working filter alone or rewrites it through
    the predicate's pattern. *)
Lemma body_where env a relsForOs apiBase st p :
  ls_where (body env a relsForOs apiBase st p) = ls_where st
  \/ exists r,
       ls_where (body env a relsForOs apiBase st p)
       = replace (clauseRe (p_rel p) (p_field p)) 2 (ls_where st) r.
Proof.
  destruct (configured relsForOs (p_rel p)) as [rc|] eqn:Hc;
    [| left; by rewrite body_unconfigured].
  destruct (unusable rc) eqn:Hu; [left; by erewrite body_unusable |].
  destruct (resolved a apiBase (ls_calls st) rc p)
    as [[outKeys n]|e] eqn:Hr.
  - right.
    destruct (usedKeys (maxKeysOf env rc) outKeys) as [|k ks] eqn:Hk.
    + rewrite (body_no_keys _ _ _ _ _ _ _ _ _ Hc Hu Hr Hk). by eexists.
    + assert (usedKeys (maxKeysOf env rc) outKeys <> []) as Hne
        by (by rewrite Hk).
      rewrite (body_keys _ _ _ _ _ _ _ _ _ Hc Hu Hr Hne). by eexists.
  - left. by rewrite (body_throw _ _ _ _ _ _ _ _ Hc Hu Hr).
Qed.

(** A related resource whose name cannot be encoded: the prefetch throws
    before the headers are asked for and before the transport is called. *)
Lemma resolve_malformed a apiBase st rc p :
  wellFormed (relatedOsOf rc) = false ->
  resolved a apiBase (ls_calls st) rc p = Throw URI_MALFORMED
  /\ issue a apiBase rc p st = (ls_calls st, ls_trace st).
Proof. unfold resolve, prefetchKeys, issue. by intros ->. Qed.

(** The five cases are all there are. *)
Lemma body_cases env a relsForOs apiBase st p :
  body env a relsForOs apiBase st p = st
  \/ exists rc,
       configured relsForOs (p_rel p) = Some rc /\ unusable rc = false
       /\ ls_params (body env a relsForOs apiBase st p) = ls_params st
       /\ (forall s, s ∈ steps (ls_plan (body env a relsForOs apiBase st p)) ->
             s ∈ steps (ls_plan st) \/ step_relationship s = p_rel p)
       /\ (forall e, e ∈ errors (ls_plan (body env a relsForOs apiBase st p)) ->
             e ∈ errors (ls_plan st) \/ err_relationship e = Some (p_rel p))
       /\ exists evs,
            ls_trace (body env a relsForOs apiBase st p) = ls_trace st ++ evs
            /\ forall ev, ev ∈ evs -> exists req, ev = EvFetch req (ls_params st).
Proof.
  destruct (configured relsForOs (p_rel p)) as [rc|] eqn:Hc;
    [| left; by apply body_unconfigured].
  destruct (unusable rc) eqn:Hu; [left; by eapply body_unusable |].
  right. exists rc. split; [done |]. split; [done |].
  assert (exists evs,
    snd (issue a apiBase rc p st) = ls_trace st ++ evs
    /\ forall ev, ev ∈ evs -> exists req, ev = EvFetch req (ls_params st))
    as Htrace.
  { unfold issue.
    destruct (wellFormed (relatedOsOf rc)); simpl;
      [destruct (authHeaders a) as [h|]; simpl |].
    - eexists. split; [done |]. intros ev ->%list_elem_of_singleton.
      by eexists.
    - exists []. split; [by rewrite app_nil_r |]. by intros ev ?%elem_of_nil.
    - exists []. split; [by rewrite app_nil_r |]. by intros ev ?%elem_of_nil. }
  destruct (resolved a apiBase (ls_calls st) rc p) as [[outKeys n]|e] eqn:Hr.
  - destruct (usedKeys (maxKeysOf env rc) outKeys) as [|k ks] eqn:Hk.
    + rewrite (body_no_keys _ _ _ _ _ _ _ _ _ Hc Hu Hr Hk).
      unfold planResolved. rewrite Hk. simpl.
      split; [done |]. split; [| split; [| done]].
      * destruct (length outKeys); simpl; intros s;
          rewrite !elem_of_app, !list_elem_of_singleton;
          intros [[[? | ->] | ->] | ->]; auto.
      * destruct (length outKeys); simpl; auto.
    + assert (usedKeys (maxKeysOf env rc) outKeys <> []) as Hne
        by (by rewrite Hk).
      rewrite (body_keys _ _ _ _ _ _ _ _ _ Hc Hu Hr Hne).
      unfold planResolved. rewrite Hk. simpl.
      split; [done |]. split; [| split; [| done]].
      * destruct (S (length ks) <? length outKeys)%nat; simpl; intros s;
          rewrite !elem_of_app, !list_elem_of_singleton;
          intros [[[? | ->] | ->] | ->]; auto.
      * destruct (S (length ks) <? length outKeys)%nat; simpl; auto.
  - rewrite (body_throw _ _ _ _ _ _ _ _ Hc Hu Hr). simpl.
    split; [done |]. split; [| split; [| done]].
    + intros s. rewrite !elem_of_app, !list_elem_of_singleton.
      intros [? | ->]; auto.
    + intros s. rewrite !elem_of_app, !list_elem_of_singleton.
      intros [? | ->]; auto.
Qed.

(** ** The loop as a whole *)

Lemma loop_frame env a relsForOs apiBase preds : forall st,
  let st' := fold_left (body env a relsForOs apiBase) preds st in
  ls_params st' = ls_params st
  /\ (forall s, s ∈ steps (ls_plan st') ->
        s ∈ steps (ls_plan st)
        \/ is_Some (configured relsForOs (step_relationship s)))
  /\ (forall e, e ∈ errors (ls_plan st') ->
        e ∈ errors (ls_plan st)
        \/ exists r, err_relationship e = Some r
             /\ is_Some (configured relsForOs r))
  /\ exists evs,
       ls_trace st' = ls_trace st ++ evs
       /\ forall ev, ev ∈ evs -> exists req, ev = EvFetch req (ls_params st).
Proof.
  induction preds as [|p preds IH]; intros st; simpl.
  { split; [done |]. split; [by left |]. split; [by left |].
    exists []. split; [by rewrite app_nil_r |]. by intros ev ?%elem_of_nil. }
  destruct (IH (body env a relsForOs apiBase st p))
    as (Hp & Hs & He & evs & Ht & Hev).
  destruct (body_cases env a relsForOs apiBase st p)
    as [Heq | (rc & Hc & Hu & Hp1 & Hs1 & He1 & evs1 & Ht1 & Hev1)].
  { rewrite Heq in *. split; [done |]. split; [done |]. split; [done |].
    by exists evs. }
  split; [by rewrite Hp, Hp1 |]. split; [| split].
  - intros s Hin. destruct (Hs s Hin) as [H | H]; [| by right].
    destruct (Hs1 s H) as [H' | H']; [by left |].
    right. rewrite H', Hc. by eexists.
  - intros e Hin. destruct (He e Hin) as [H | H]; [| by right].
    destruct (He1 e H) as [H' | H']; [by left |].
    right. exists (p_rel p). split; [done |]. rewrite Hc. by eexists.
  - exists (evs1 ++ evs). split; [by rewrite Ht, Ht1, app_assoc |].
    intros ev. rewrite elem_of_app. intros [H | H]; [by apply Hev1 |].
    rewrite <- Hp1. by apply Hev.
Qed.

Lemma loop_unconfigured env a relsForOs apiBase preds : forall st,
  (forall p, p ∈ preds -> configured relsForOs (p_rel p) = None) ->
  fold_left (body env a relsForOs apiBase) preds st = st.
Proof.
  induction preds as [|p preds IH]; intros st H; simpl; [done |].
  rewrite body_unconfigured; [| apply H; by left].
  apply IH. intros p' Hp'. apply H. by right.
Qed.

(** What a call returns, by the path it takes. *)
Lemma apply_paths env a :
  let where_ := whereOf (params a) in
  let preds := detectRelationshipPredicates where_ in
  (applyRelationshipPrefetch JSON_parse env a
     = Ok (mkResult emptyPlan (params a) [])
   /\ (where_ = [] \/ preds = []))
  \/ (exists e, maximoApiBase a = Throw e
        /\ applyRelationshipPrefetch JSON_parse env a
           = Ok (mkResult
                   (push_error
                      (set_mode (set_detected emptyPlan preds) ModeError)
                      (mkPlanError None e))
                   (params a) []))
  \/ (exists apiBase, maximoApiBase a = Ok apiBase
        /\ let st := runLoop JSON_parse env a apiBase in
           (ls_where st = where_
            /\ applyRelationshipPrefetch JSON_parse env a
               = Ok (mkResult (ls_plan st) (ls_params st) (ls_trace st)))
           \/ (ls_where st <> where_
               /\ applyRelationshipPrefetch JSON_parse env a
                  = Ok (mkResult (ls_plan st)
                          (<[WHERE := JStr (ls_where st)]> (ls_params st))
                          (ls_trace st
                             ++ [EvWrite WHERE (JStr (ls_where st))])))).
Proof.
  intros where_ preds. unfold applyRelationshipPrefetch, tryBody.
  fold where_. fold preds.
  destruct where_ as [|c w] eqn:Hw; [left; split; [done | by left] |].
  destruct preds as [|p ps] eqn:Hp; [left; split; [done | by right] |].
  simpl isEmpty. cbv iota.
  destruct (maximoApiBase a) as [apiBase | e].
  - right; right. exists apiBase. split; [done |]. simpl.
    unfold str_eqb. case_bool_decide as Heq; simpl.
    + left. by rewrite Heq.
    + right. done.
  - right; left. by exists e.
Qed.

Lemma runLoop_frame env a apiBase :
  let st := runLoop JSON_parse env a apiBase in
  ls_params st = params a
  /\ (forall s, s ∈ steps (ls_plan st) ->
        is_Some (configured (relsFor env a) (step_relationship s)))
  /\ (forall e, e ∈ errors (ls_plan st) ->
        exists r, err_relationship e = Some r
          /\ is_Some (configured (relsFor env a) r))
  /\ forall ev, ev ∈ ls_trace st -> exists req, ev = EvFetch req (params a).
Proof.
  unfold runLoop.
  match goal with |- context [fold_left ?f ?l ?s] =>
    destruct (loop_frame env a (relsFor env a) apiBase l s)
      as (Hp & Hs & He & evs & Ht & Hev)
  end.
  simpl in *. split; [done |]. split; [| split].
  - intros s Hin. destruct (Hs s Hin) as [H | H]; [| done].
    by apply elem_of_nil in H.
  - intros e Hin. destruct (He e Hin) as [H | H]; [| done].
    by apply elem_of_nil in H.
  - intros ev Hin. unfold relsFor in Ht. rewrite Ht in Hin. by apply Hev.
Qed.

(** ** Claims about the orchestration *)

(** A predicate whose relation alias has no configuration entry for the
    root resource is skipped: processing it
    changes neither the working filter nor the plan; no step or error of
    the returned plan names its relation; when no detected predicate is
    configured the call leaves the parameter bag as it was and records no
    step and no prefetch; and the rewrite made for another predicate keeps
    every part of the working filter, such as the clause of the skipped
    predicate, that the match of that rewrite's pattern does not
    overlap. *)
Theorem unconfigured_predicate_passes_through env a p :
  configured (relsFor env a) (p_rel p) = None ->
  (forall apiBase st,
     loopBody JSON_parse env a (relsFor env a) apiBase st p = st)
  /\ (forall res, applyRelationshipPrefetch JSON_parse env a = Ok res ->
        (forall s, s ∈ steps (r_plan res) -> step_relationship s <> p_rel p)
        /\ (forall e, e ∈ errors (r_plan res) ->
              err_relationship e <> Some (p_rel p)))
  /\ ((forall p', p' ∈ detectRelationshipPredicates (whereOf (params a)) ->
         configured (relsFor env a) (p_rel p') = None) ->
      forall res, applyRelationshipPrefetch JSON_parse env a = Ok res ->
        r_params res = params a /\ steps (r_plan res) = []
        /\ r_trace res = [])
  /\ (forall apiBase st p' pre c post,
        ls_where st = pre ++ c ++ post ->
        (forall m,
           exec (clauseRe (p_rel p') (p_field p')) (ls_where st) 0 = Some m ->
           (m_end m <= length pre)%nat
           \/ (length pre + length c <= m_index m)%nat) ->
        exists pre' post',
          ls_where (loopBody JSON_parse env a (relsFor env a) apiBase st p')
          = pre' ++ c ++ post').
Proof.
  intros Hc. split; [| split; [| split]]; cycle 3.
  { intros apiBase st p' pre c post Hw Hm.
    destruct (body_where env a (relsFor env a) apiBase st p')
      as [-> | (r & ->)]; [by exists pre, post |].
    by eapply replace_frame. }
  - intros apiBase st. by apply body_unconfigured.
  - intros res Hres.
    destruct (apply_paths env a)
      as [[H _] | [(e & _ & H) | (apiBase & _ & [[_ H] | [_ H]])]];
      rewrite H in Hres; injection Hres as <-; simpl.
    + split; by intros ? ?%elem_of_nil.
    + split; [by intros ? ?%elem_of_nil |].
      intros x ->%list_elem_of_singleton. done.
    + destruct (runLoop_frame env a apiBase) as (_ & Hs & He & _).
      split.
      * intros s Hin Heq. apply Hs in Hin. rewrite Heq, Hc in Hin.
        by destruct Hin.
      * intros x Hin Heq. apply He in Hin as (r & Hr & Hsome).
        rewrite Heq in Hr. injection Hr as <-. rewrite Hc in Hsome.
        by destruct Hsome.
    + destruct (runLoop_frame env a apiBase) as (_ & Hs & He & _).
      split.
      * intros s Hin Heq. apply Hs in Hin. rewrite Heq, Hc in Hin.
        by destruct Hin.
      * intros x Hin Heq. apply He in Hin as (r & Hr & Hsome).
        rewrite Heq in Hr. injection Hr as <-. rewrite Hc in Hsome.
        by destruct Hsome.
  - intros Hall res Hres.
    destruct (apply_paths env a)
      as [[H _] | [(e & _ & H) | (apiBase & _ & Hloop)]].
    + rewrite H in Hres. by injection Hres as <-.
    + rewrite H in Hres. by injection Hres as <-.
    + assert (runLoop JSON_parse env a apiBase
              = mkLoopState
                  (set_detected emptyPlan
                     (detectRelationshipPredicates (whereOf (params a))))
                  (whereOf (params a)) (params a) 0 []) as Hrun.
      { unfold runLoop. by apply loop_unconfigured. }
      cbv zeta in Hloop. rewrite Hrun in Hloop. simpl in Hloop.
      destruct Hloop as [[_ H] | [Hne _]]; [| done].
      rewrite H in Hres. by injection Hres as <-.
Qed.

(** C6: the parameter bag is written at most once, after every predicate
    has been processed: the events of a call are its prefetches, each
    issued with the bag as the caller passed it, followed by at most one
    write, which stores the filter reached after the whole loop under the
    where parameter; every other parameter is as it was. *)
Theorem params_written_once env a :
  exists res fetches writes,
    applyRelationshipPrefetch JSON_parse env a = Ok res
    /\ (forall k, k <> WHERE -> r_params res !! k = params a !! k)
    /\ r_trace res = fetches ++ writes
    /\ (forall ev, ev ∈ fetches -> exists req, ev = EvFetch req (params a))
    /\ ((writes = [] /\ r_params res = params a)
        \/ exists apiBase,
             maximoApiBase a = Ok apiBase
             /\ writes
                = [EvWrite WHERE
                     (JStr (ls_where (runLoop JSON_parse env a apiBase)))]
             /\ r_params res
                = <[WHERE :=
                      JStr (ls_where (runLoop JSON_parse env a apiBase))]>
                    (params a)).
Proof.
  destruct (apply_paths env a)
    as [[H _] | [(e & _ & H) | (apiBase & Hb & [[_ H] | [_ H]])]].
  - eexists _, [], []. split; [exact H |]. simpl.
    split; [done |]. split; [done |].
    split; [by intros ? ?%elem_of_nil | by left].
  - eexists _, [], []. split; [exact H |]. simpl.
    split; [done |]. split; [done |].
    split; [by intros ? ?%elem_of_nil | by left].
  - destruct (runLoop_frame env a apiBase) as (Hp & _ & _ & Hev).
    eexists _, _, []. split; [exact H |]. simpl.
    split; [by rewrite Hp |]. split; [by rewrite app_nil_r |].
    split; [done |]. left. by rewrite Hp.
  - destruct (runLoop_frame env a apiBase) as (Hp & _ & _ & Hev).
    eexists _, _, _. split; [exact H |]. simpl.
    split; [| split; [done | split; [done |]]].
    + intros k Hk. rewrite Hp. by apply lookup_insert_ne.
    + right. exists apiBase. by rewrite Hp.
Qed.


(** ** Claims about the rewriting *)

(** When the resolver returns no key for a configured predicate, the
    first text of the working filter that matches the predicate's pattern
    is replaced by the sentinel clause on the root join field, and the
    plan records the prefetch, its empty result and the rewrite.  That
    text is a clause of the predicate's relation and field, and there is
    one whenever the predicate was detected in the working filter; when
    the predicate is the first one detected there, it is exactly the
    detected clause.  The root join field is a field name, free of the
    dollar sign. *)
Theorem no_keys_rewrites_to_sentinel env a relsForOs apiBase st p rc n :
  configured relsForOs (p_rel p) = Some rc -> unusable rc = false ->
  resolve JSON_parse a apiBase (ls_calls st) rc p = Ok ([], n) ->
  (DOLLAR ∉ rootJoinFieldOf rc) ->
  let st' := loopBody JSON_parse env a relsForOs apiBase st p in
  let sentinel :=
    rootJoinFieldOf rc ++ u "=" ++ [DQUOTE] ++ u "__NO_MATCH__" ++ [DQUOTE] in
  steps (ls_plan st')
    = steps (ls_plan st)
        ++ [announce env a rc p; StepPrefetchResult (p_rel p) 0 0;
            StepRewrite (p_rel p) sentinel (Some (u "no related matches"))]
  /\ truncated (ls_plan st') = truncated (ls_plan st)
  /\ (forall m,
        exec (clauseRe (p_rel p) (p_field p)) (ls_where st) 0 = Some m ->
        ls_where st'
        = take (m_index m) (ls_where st) ++ sentinel
            ++ drop (m_end m) (ls_where st))
  /\ (p ∈ detectRelationshipPredicates (ls_where st) ->
      exists m cl,
        exec (clauseRe (p_rel p) (p_field p)) (ls_where st) 0 = Some m
        /\ wfClause cl = true
        /\ ci_eq (p_rel p) (c_rel cl) = true
        /\ ci_eq (p_field p) (c_field cl) = true
        /\ ls_where st
           = take (m_index m) (ls_where st) ++ clauseText cl
               ++ drop (m_end m) (ls_where st))
  /\ (forall m0,
        exec detectRe (ls_where st) 0 = Some m0 -> predOfMatch m0 = p ->
        ls_where st'
        = take (m_index m0) (ls_where st) ++ sentinel
            ++ drop (m_end m0) (ls_where st)).
Proof.
  intros Hc Hu Hr Hd st' sentinel. subst st'.
  assert (usedKeys (maxKeysOf env rc) [] = []) as Hk
    by (unfold usedKeys; by rewrite take_nil).
  rewrite (body_no_keys _ _ _ _ _ _ _ _ _ Hc Hu Hr Hk).
  unfold planResolved. rewrite Hk. simpl.
  assert (DOLLAR ∉ falseClauseOf (rootJoinFieldOf rc)) as Hplain.
  { destruct DOLLAR_plain as [_ H2]. by apply falseClause_free. }
  split; [by rewrite <- !app_assoc |]. split; [done |].
  split; [| split].
  - intros m Hm. by apply replace_plain.
  - apply detected_clause_found.
  - intros m0 Hm0 <-. by apply replace_first_detected.
Qed.


(** ** Escaping *)

Lemma escape_quote_preceded v : forall i,
  escapeWhereString v !! i = Some DQUOTE ->
  exists j, i = S j /\ escapeWhereString v !! j = Some BACKSLASH.
Proof.
  induction v as [|x v IH]; intros i H; simpl in *; [done |].
  destruct (x =? DQUOTE) eqn:E.
  - destruct i as [|[|i]]; simpl in *.
    + done.
    + by exists 0%nat.
    + destruct (IH i H) as (j & -> & Hj). by exists (S (S j)).
  - destruct i as [|i]; simpl in *.
    + injection H as ->. done.
    + destruct (IH i H) as (j & -> & Hj). by exists (S j).
Qed.

Lemma escape_head v :
  match escapeWhereString v with
  | c :: _ => c <> DQUOTE
  | [] => True
  end.
Proof.
  destruct v as [|x v]; simpl; [done |].
  destruct (x =? DQUOTE) eqn:E; [done |]. by apply N.eqb_neq in E.
Qed.

Lemma unescape_escape v : unescapeQuotes (escapeWhereString v) = v.
Proof.
  induction v as [|x v IH]; [done |].
  simpl escapeWhereString. destruct (x =? DQUOTE) eqn:E.
  - apply N.eqb_eq in E as ->. simpl. by rewrite IH.
  - pose proof (escape_head v) as Hh.
    change (unescapeQuotes (x :: escapeWhereString v)) with
      (match escapeWhereString v with
       | d :: t' =>
           if (x =? BACKSLASH) && (d =? DQUOTE)
           then DQUOTE :: unescapeQuotes t'
           else x :: unescapeQuotes (escapeWhereString v)
       | [] => [x]
       end).
    destruct (escapeWhereString v) as [|d t'] eqn:Hv.
    + destruct v as [|y v]; [done |]. simpl in Hv.
      by destruct (y =? DQUOTE).
    + apply N.eqb_neq in Hh. rewrite Hh, andb_false_r. by rewrite IH.
Qed.

Lemma readQuoted_cons2 c d t :
  readQuoted (c :: d :: t)
  = if c =? DQUOTE then Some ([], d :: t)
    else if (c =? BACKSLASH) && (d =? DQUOTE)
         then consValue DQUOTE <$> readQuoted t
         else consValue c <$> readQuoted (d :: t).
Proof. reflexivity. Qed.

Lemma readQuoted_escape v rest :
  last v <> Some BACKSLASH ->
  readQuoted (escapeWhereString v ++ [DQUOTE] ++ rest) = Some (v, rest).
Proof.
  induction v as [|x v IH]; intros Hl; [done |].
  assert (last v <> Some BACKSLASH) as Hl'.
  { intros Hv. apply Hl. rewrite last_cons. by rewrite Hv. }
  specialize (IH Hl').
  simpl escapeWhereString. destruct (x =? DQUOTE) eqn:E.
  - apply N.eqb_eq in E as ->.
    change ((BACKSLASH :: DQUOTE :: escapeWhereString v) ++ [DQUOTE] ++ rest)
      with (BACKSLASH :: DQUOTE
              :: (escapeWhereString v ++ [DQUOTE] ++ rest)).
    rewrite readQuoted_cons2, IH. done.
  - pose proof (escape_head v) as Hh.
    destruct (escapeWhereString v) as [|d t'] eqn:Hv.
    + destruct v as [|y v];
        [| simpl in Hv; by destruct (y =? DQUOTE)].
      change (([x] ++ [DQUOTE] ++ rest)) with (x :: DQUOTE :: rest).
      rewrite readQuoted_cons2, E.
      destruct (x =? BACKSLASH) eqn:Eb.
      { apply N.eqb_eq in Eb as ->. done. }
      done.
    + change ((x :: d :: t') ++ [DQUOTE] ++ rest)
        with (x :: d :: (t' ++ [DQUOTE] ++ rest)).
      rewrite readQuoted_cons2, E.
      apply N.eqb_neq in Hh. rewrite Hh, andb_false_r.
      change (d :: t' ++ [DQUOTE] ++ rest)
        with ((d :: t') ++ [DQUOTE] ++ rest).
      by rewrite IH.
Qed.

Lemma escape_cons x v :
  escapeWhereString (x :: v)
  = if x =? DQUOTE then BACKSLASH :: DQUOTE :: escapeWhereString v
    else x :: escapeWhereString v.
Proof. reflexivity. Qed.

Lemma readQuoted_trailing_backslash v : forall rest val r,
  last v = Some BACKSLASH ->
  readQuoted (escapeWhereString v ++ [DQUOTE] ++ rest) = Some (val, r) ->
  val !! (length v - 1)%nat = Some DQUOTE.
Proof.
  induction v as [|x v IH]; intros rest val r Hl Hread; [done |].
  destruct v as [|y v].
  - simpl in Hl. injection Hl as ->.
    change (escapeWhereString [BACKSLASH] ++ [DQUOTE] ++ rest)
      with (BACKSLASH :: DQUOTE :: rest) in Hread.
    rewrite readQuoted_cons2 in Hread. cbn in Hread.
    destruct (readQuoted rest) as [[val' r']|]; [| done].
    injection Hread as <- _. done.
  - assert (last (y :: v) = Some BACKSLASH) as Hl'
      by (by rewrite last_cons_cons in Hl).
    assert (length (x :: y :: v) - 1 = S (length (y :: v) - 1))%nat as Hlen
      by (simpl; lia).
    rewrite Hlen. clear Hlen.
    set (v1 := y :: v) in *.
    assert (exists d t', escapeWhereString v1 = d :: t' /\ d <> DQUOTE)
      as (d & t' & Hv & Hh).
    { pose proof (escape_head v1) as Hh.
      destruct (escapeWhereString v1) as [|d t'] eqn:Hv.
      - unfold v1 in Hv. simpl in Hv. by destruct (y =? DQUOTE).
      - by exists d, t'. }
    rewrite (escape_cons x v1) in Hread. destruct (x =? DQUOTE) eqn:E.
    + change ((BACKSLASH :: DQUOTE :: escapeWhereString v1)
                ++ [DQUOTE] ++ rest)
        with (BACKSLASH :: DQUOTE
                :: (escapeWhereString v1 ++ [DQUOTE] ++ rest)) in Hread.
      rewrite readQuoted_cons2 in Hread.
      change (BACKSLASH =? DQUOTE) with false in Hread.
      change ((BACKSLASH =? BACKSLASH) && (DQUOTE =? DQUOTE)) with true
        in Hread. cbv iota in Hread.
      destruct (readQuoted (escapeWhereString v1 ++ [DQUOTE] ++ rest))
        as [[val' r']|] eqn:Hrd; [| done].
      injection Hread as <- _.
      by apply (IH rest val' r' Hl') in Hrd.
    + rewrite Hv in Hread.
      change ((x :: d :: t') ++ [DQUOTE] ++ rest)
        with (x :: d :: (t' ++ [DQUOTE] ++ rest)) in Hread.
      rewrite readQuoted_cons2, E in Hread.
      apply N.eqb_neq in Hh. rewrite Hh, andb_false_r in Hread.
      change (d :: t' ++ [DQUOTE] ++ rest)
        with ((d :: t') ++ [DQUOTE] ++ rest) in Hread.
      rewrite <- Hv in Hread.
      destruct (readQuoted (escapeWhereString v1 ++ [DQUOTE] ++ rest))
        as [[val' r']|] eqn:Hrd; [| done].
      injection Hread as <- _.
      by apply (IH rest val' r' Hl') in Hrd.
Qed.

(** The escaping puts a backslash before every double quote of a value:
    in the escaped text every double quote follows a backslash, and
    dropping those backslashes gives the value back.  A reader that
    honours the escape reads the value back out of the literal, and stops
    at its closing quote, exactly when the value does not end in a
    backslash (the escaping leaves backslashes as they are). *)
Theorem escaped_literal_reads_back v :
  (forall i, escapeWhereString v !! i = Some DQUOTE ->
     exists j, i = S j /\ escapeWhereString v !! j = Some BACKSLASH)
  /\ unescapeQuotes (escapeWhereString v) = v
  /\ (forall rest,
        readQuoted (escapeWhereString v ++ [DQUOTE] ++ rest) = Some (v, rest)
        <-> last v <> Some BACKSLASH).
Proof.
  split; [apply escape_quote_preceded |].
  split; [apply unescape_escape |].
  intros rest. split; [| by apply readQuoted_escape].
  intros Hread Hl.
  pose proof (readQuoted_trailing_backslash v rest v rest Hl Hread) as Hq.
  destruct (last_Some v BACKSLASH) as [(v' & Hv) _]; [done |].
  rewrite Hv in Hq. rewrite length_app in Hq. simpl in Hq.
  replace (length v' + 1 - 1)%nat with (length v' + 0)%nat in Hq by lia.
  rewrite lookup_app_r in Hq by lia.
  replace (length v' + 0 - length v')%nat with 0%nat in Hq by lia.
  simpl in Hq. by injection Hq.
Qed.

(** ** Configuration layers *)

Lemma lookup_spread {V} (a b : gmap str V) k :
  spread a b !! k = match b !! k with Some v => Some v | None => a !! k end.
Proof.
  unfold spread. rewrite lookup_union.
  by destruct (b !! k), (a !! k).
Qed.

(** C1 (as amended): the three layers are merged at root-resource
    granularity.  For every root resource, the relation map of the merged
    configuration is, whole, the map of the latest layer (tenant file,
    then defaults file, then built-in) that defines that root resource;
    so a relation entry is that layer's entire entry, and an alias that
    only an earlier layer defines for the resource is not in the merged
    result. *)
Theorem layers_merge_by_resource env dataDir tenantId os_ :
  relationships (loadRelationshipsConfig env dataDir tenantId) !! os_
  = mergedByResource env dataDir tenantId os_.
Proof.
  unfold loadRelationshipsConfig, mergedByResource.
  destruct (readRelationships env dataDir
              (u "relationships." ++ tenantId ++ u ".json")) as [t|];
    destruct (readRelationships env dataDir
                (u "relationships.defaults.json")) as [d|];
    simpl; rewrite ?lookup_spread; try done.

Qed.

(** ** Keys into a disjunction *)

(** When neither the root join field nor a key holds a dollar sign, a
    non-empty key list of size k is rewritten as the claim C3 says: the
    text matched by the predicate's pattern is replaced by the
    parenthesised disjunction of the first min(k, maxKeys) keys, in the
    order returned, each as an equality clause on the root join field, and
    the truncated flag is set exactly when k exceeds maxKeys (and is left
    as it was otherwise). *)
Theorem keys_rewrite_to_disjunction
    env a relsForOs apiBase st p rc outKeys n :
  configured relsForOs (p_rel p) = Some rc -> unusable rc = false ->
  resolve JSON_parse a apiBase (ls_calls st) rc p = Ok (outKeys, n) ->
  outKeys <> [] -> (1 <= maxKeysOf env rc)%Z ->
  (DOLLAR ∉ rootJoinFieldOf rc) ->
  (forall k, k ∈ outKeys -> DOLLAR ∉ k) ->
  let st' := loopBody JSON_parse env a relsForOs apiBase st p in
  let keys := take (Z.to_nat (maxKeysOf env rc)) outKeys in
  let orBlock :=
    u "("
      ++ join (u " or ")
           (List.map
              (fun k =>
                 rootJoinFieldOf rc ++ u "=" ++ [DQUOTE]
                   ++ escapeWhereString k ++ [DQUOTE]) keys)
      ++ u ")" in
  length keys = Nat.min (Z.to_nat (maxKeysOf env rc)) (length outKeys)
  /\ (forall m,
        exec (clauseRe (p_rel p) (p_field p)) (ls_where st) 0 = Some m ->
        ls_where st'
        = take (m_index m) (ls_where st) ++ orBlock
            ++ drop (m_end m) (ls_where st))
  /\ truncated (ls_plan st')
     = (if Nat.ltb (Z.to_nat (maxKeysOf env rc)) (length outKeys) then true
        else truncated (ls_plan st))
  /\ steps (ls_plan st')
     = steps (ls_plan st)
         ++ [announce env a rc p;
             StepPrefetchResult (p_rel p) (length outKeys) (length keys);
             StepRewrite (p_rel p) orBlock None]
  /\ (forall m0,
        exec detectRe (ls_where st) 0 = Some m0 -> predOfMatch m0 = p ->
        ls_where st'
        = take (m_index m0) (ls_where st) ++ orBlock
            ++ drop (m_end m0) (ls_where st)).
Proof.
  intros Hc Hu Hr Hne Hmax Hfd Hkd st' keys orBlock.
  assert (usedKeys (maxKeysOf env rc) outKeys = keys) as Hk.
  { unfold usedKeys, keys. by rewrite Z.max_r by lia. }
  assert (keys <> []) as Hkne.
  { unfold keys. destruct outKeys as [|k ks]; [done |].
    destruct (Z.to_nat (maxKeysOf env rc)) eqn:E; [lia | done]. }
  assert (length keys = Nat.min (Z.to_nat (maxKeysOf env rc)) (length outKeys))
    as Hlen by (unfold keys; by rewrite length_take).
  subst st'.
  rewrite (body_keys _ _ _ _ _ _ _ _ _ Hc Hu Hr); [| by rewrite Hk].
  unfold planResolved. rewrite Hk. simpl.
  assert (DOLLAR ∉ buildOrBlock (rootJoinFieldOf rc) keys) as Hplain.
  { destruct DOLLAR_plain as [H1 _].
    apply buildOrBlock_free; try done.
    intros k Hin. apply Hkd. unfold keys in Hin.
    apply elem_of_take in Hin as (i & Hi & _).
    by eapply list_elem_of_lookup_2. }
  split; [done |]. split; [| split; [| split]].
  - intros m Hm. by apply replace_plain.
  - rewrite Hlen.
    destruct (Nat.ltb_spec (Z.to_nat (maxKeysOf env rc)) (length outKeys))
      as [Hlt | Hge].
    + rewrite Nat.min_l by lia.
      destruct (Nat.ltb_spec (Z.to_nat (maxKeysOf env rc)) (length outKeys));
        [done | lia].
    + rewrite Nat.min_r by lia. by rewrite Nat.ltb_irrefl.
  - destruct (length keys <? length outKeys)%nat; simpl;
      by rewrite <- !app_assoc.
  - intros m0 Hm0 <-. by apply replace_first_detected.
Qed.

(** ** Whole calls *)

Lemma detect_singleton w p :
  detectRelationshipPredicates w = [p] ->
  exists m, exec detectRe w 0 = Some m /\ predOfMatch m = p.
Proof.
  unfold detectRelationshipPredicates. simpl.
  destruct (exec detectRe w 0) as [m|]; [| done].
  simpl. intros H. injection H as H _. by exists m.
Qed.

Lemma falseClause_nonempty f : falseClauseOf f <> [].
Proof. unfold falseClauseOf. by destruct f. Qed.

Lemma buildOrBlock_nonempty f keys : buildOrBlock f keys <> [].
Proof. done. Qed.

Lemma whereOf_insert bag v :
  v <> [] -> whereOf (<[WHERE := JStr v]> bag) = v.
Proof.
  intros Hv. unfold whereOf. rewrite lookup_insert_eq. simpl.
  by destruct v.
Qed.

Lemma replacementFor_plain env rc outKeys :
  (DOLLAR ∉ rootJoinFieldOf rc) -> (forall k, k ∈ outKeys -> DOLLAR ∉ k) ->
  DOLLAR ∉ replacementFor env rc outKeys.
Proof.
  intros Hf Hk. destruct DOLLAR_plain as [H1 H2]. unfold replacementFor.
  destruct (usedKeys (maxKeysOf env rc) outKeys) eqn:E; simpl.
  - by apply falseClause_free.
  - rewrite <- E. apply buildOrBlock_free; try done.
    intros k Hin. apply Hk. unfold usedKeys in Hin.
    apply elem_of_take in Hin as (i & Hi & _).
    by eapply list_elem_of_lookup_2.
Qed.

Lemma body_resolved env a relsForOs apiBase st p rc outKeys n :
  configured relsForOs (p_rel p) = Some rc -> unusable rc = false ->
  resolve JSON_parse a apiBase (ls_calls st) rc p = Ok (outKeys, n) ->
  let st' := loopBody JSON_parse env a relsForOs apiBase st p in
  ls_where st'
  = replace (clauseRe (p_rel p) (p_field p)) 2 (ls_where st)
      (replacementFor env rc outKeys)
  /\ mode (ls_plan st') = ModePrefetch
  /\ errors (ls_plan st') = errors (ls_plan st)
  /\ truncated (ls_plan st')
     = (Nat.ltb (length (usedKeys (maxKeysOf env rc) outKeys))
          (length outKeys)
        || truncated (ls_plan st)).
Proof.
  intros Hc Hu Hr st'. subst st'. unfold replacementFor.
  destruct (usedKeys (maxKeysOf env rc) outKeys) as [|k ks] eqn:Hk.
  - rewrite (body_no_keys _ _ _ _ _ _ _ _ _ Hc Hu Hr Hk).
    unfold planResolved. rewrite Hk. simpl.
    by destruct (length outKeys).
  - assert (usedKeys (maxKeysOf env rc) outKeys <> []) as Hne
      by (by rewrite Hk).
    rewrite (body_keys _ _ _ _ _ _ _ _ _ Hc Hu Hr Hne).
    unfold planResolved. rewrite Hk. simpl.
    by destruct (S (length ks) <? length outKeys)%nat.
Qed.

(** A call whose filter holds one dotted-relation predicate, configured
    and resolved, with no dollar sign in the join field or the keys: the
    filter the call leaves is the original with exactly the detected
    clause replaced, by the disjunction over the keys used or, when there
    is none, by the sentinel clause. *)
Theorem single_predicate_call env a p rc apiBase outKeys n :
  detectRelationshipPredicates (whereOf (params a)) = [p] ->
  configured (relsFor env a) (p_rel p) = Some rc -> unusable rc = false ->
  maximoApiBase a = Ok apiBase ->
  resolve JSON_parse a apiBase 0 rc p = Ok (outKeys, n) ->
  (DOLLAR ∉ rootJoinFieldOf rc) -> (forall k, k ∈ outKeys -> DOLLAR ∉ k) ->
  exists res m cl,
    applyRelationshipPrefetch JSON_parse env a = Ok res
    /\ exec detectRe (whereOf (params a)) 0 = Some m
    /\ wfClause cl = true
    /\ whereOf (params a)
       = take (m_index m) (whereOf (params a)) ++ clauseText cl
           ++ drop (m_end m) (whereOf (params a))
    /\ p = mkPred (c_rel cl) (c_field cl) (normalizeOp (c_op cl))
             (c_inner cl)
    /\ whereOf (r_params res)
       = take (m_index m) (whereOf (params a))
           ++ replacementFor env rc outKeys
           ++ drop (m_end m) (whereOf (params a))
    /\ (forall k, k <> WHERE -> r_params res !! k = params a !! k)
    /\ mode (r_plan res) = ModePrefetch
    /\ errors (r_plan res) = []
    /\ truncated (r_plan res)
       = Nat.ltb (length (usedKeys (maxKeysOf env rc) outKeys))
           (length outKeys).
Proof.
  intros Hdet Hc Hu Hbase Hr Hfd Hkd.
  destruct (detect_singleton _ _ Hdet) as (m & Hm & Hpm).
  pose proof Hm as Hm'.
  apply exec_detect_inv in Hm' as (cl & Hwf & _ & Hw & _ & _ & Hcaps).
  pose proof (predOfMatch_clause _ _ Hwf Hcaps) as Hp. rewrite Hpm in Hp.
  assert (runLoop JSON_parse env a apiBase
          = loopBody JSON_parse env a (relsFor env a) apiBase
              (mkLoopState (set_detected emptyPlan [p])
                 (whereOf (params a)) (params a) 0 []) p) as Hrun.
  { unfold runLoop. by rewrite Hdet. }
  destruct (body_resolved env a (relsFor env a) apiBase
              (mkLoopState (set_detected emptyPlan [p])
                 (whereOf (params a)) (params a) 0 []) p rc outKeys n
              Hc Hu Hr) as (Hwhere & Hmode & Herr & Htr).
  rewrite <- Hrun in Hwhere, Hmode, Herr, Htr. simpl in Hwhere, Herr, Htr.
  rewrite orb_false_r in Htr.
  rewrite <- Hpm in Hwhere.
  rewrite replace_first_detected in Hwhere;
    [| done | by apply replacementFor_plain].
  destruct (runLoop_frame env a apiBase) as (Hpar & _).
  destruct (apply_paths env a)
    as [[_ [H | H]] | [(e & H & _) | (apiBase' & Hb & Hloop)]].
  - rewrite H in Hdet. by vm_compute in Hdet.
  - by rewrite H in Hdet.
  - by rewrite H in Hbase.
  - rewrite Hbase in Hb. injection Hb as <-. cbv zeta in Hloop.
    destruct Hloop as [[Heq Hres] | [Hne Hres]].
    + eexists _, m, cl. split; [exact Hres |]. simpl.
      rewrite Hpar, Hmode, Herr, Htr.
      repeat split; try done. by rewrite <- Hwhere, Heq.
    + eexists _, m, cl. split; [exact Hres |]. simpl.
      rewrite Hpar, Hmode, Herr, Htr.
      repeat split; try done.
      * rewrite whereOf_insert; [done |]. rewrite Hwhere.
        intros Hnil. apply app_eq_nil in Hnil as [_ Hnil].
        apply app_eq_nil in Hnil as [Hnil _]. revert Hnil.
        unfold replacementFor.
        destruct (isEmpty _);
          [apply falseClause_nonempty | apply buildOrBlock_nonempty].
      * intros k Hk. by apply lookup_insert_ne.
Qed.

(** A filter without a dotted-relation predicate: the call returns the
    empty plan, mode none, and leaves the bag as it was, without any
    prefetch. *)
Theorem no_predicate_no_change env a :
  detectRelationshipPredicates (whereOf (params a)) = [] ->
  applyRelationshipPrefetch JSON_parse env a
  = Ok (mkResult emptyPlan (params a) []).
Proof.
  intros Hdet. unfold applyRelationshipPrefetch, tryBody. rewrite Hdet.
  by destruct (whereOf (params a)).
Qed.

End Facts.

(** * The claims on concrete calls *)

Ltac compute_eq := vm_compute; reflexivity.
Ltac decide_by_computation := apply (bool_decide_unpack _); vm_compute; exact I.

(** The four end-to-end examples of the specification. *)

Example example_keys_found :
  filterAfter
    (applyRelationshipPrefetch parseNothing noFiles
       (callWith sensorFilter
          (answering (memberObjects "assetnum" [u "A100"; u "A101"]))))
  = Some (JStr (u "(assetnum=" ++ quoted "A100" ++ u " or assetnum="
                  ++ quoted "A101" ++ u ")")).
Proof. compute_eq. Qed.

Example example_no_keys :
  filterAfter
    (applyRelationshipPrefetch parseNothing noFiles
       (callWith sensorFilter (answering (memberObjects "assetnum" []))))
  = Some (JStr (u "assetnum=" ++ quoted "__NO_MATCH__")).
Proof. compute_eq. Qed.

Example example_not_configured :
  exists res,
    applyRelationshipPrefetch parseNothing noFiles
      (callWith vendorFilter (failing "unused")) = Ok res
    /\ r_params res !! WHERE = Some (JStr vendorFilter)
    /\ mode (r_plan res) = ModeNone
    /\ detected (r_plan res) = [vendorPred]
    /\ steps (r_plan res) = [].
Proof. eexists. split; [compute_eq |]. repeat split; compute_eq. Qed.

Example example_transport_throws :
  exists res,
    applyRelationshipPrefetch parseNothing noFiles
      (callWith sensorFilter (failing "boom")) = Ok res
    /\ r_params res !! WHERE = Some (JStr sensorFilter)
    /\ errors (r_plan res) = [mkPlanError (Some (u "asset")) (u "boom")]
    /\ List.map step_kind (steps (r_plan res)) = [u "prefetch"].
Proof. eexists. split; [compute_eq |]. repeat split; compute_eq. Qed.

(** C3: a key that holds a replacement pattern is not copied into the
    filter.  The related resource returns the single key PUMP$1 (one key,
    below maxKeys = 50); the plan records the disjunction
    (assetnum="PUMP$1"), but the filter written to the bag is
    (assetnum="PUMP="): [replace] expands [$1] to the first capture of
    the predicate's pattern, the operator. *)
Theorem dollar_key_is_expanded :
  let call :=
    callWith sensorFilter
      (answering (memberObjects "assetnum" [u "PUMP$1"])) in
  exists res,
    applyRelationshipPrefetch parseNothing noFiles call = Ok res
    /\ steps (r_plan res)
       = [announce noFiles call assetCfg sensorPred;
          StepPrefetchResult (u "asset") 1 1;
          StepRewrite (u "asset")
            (u "(assetnum=" ++ quoted "PUMP$1" ++ u ")") None]
    /\ truncated (r_plan res) = false
    /\ r_params res !! WHERE
       = Some (JStr (u "(assetnum=" ++ quoted "PUMP=" ++ u ")"))
    /\ buildOrBlock (u "assetnum") [u "PUMP$1"]
       <> u "(assetnum=" ++ quoted "PUMP=" ++ u ")".
Proof.
  eexists. split; [compute_eq |].
  split; [compute_eq |]. split; [compute_eq |]. split; [compute_eq |].
  by vm_compute.
Qed.

(** C10: a member value that is all white space gives an empty key.  The
    value passes [filter(Boolean)] (a non-empty string is truthy) and is
    trimmed afterwards, so the resolver returns one key, the empty
    string, and the rewritten filter is the clause on assetnum with an
    empty literal. *)
Theorem blank_member_gives_empty_key :
  let call :=
    callWith sensorFilter (answering (memberObjects "assetnum" [u "  "])) in
  resolve parseNothing call API 0 assetCfg sensorPred = Ok ([[]], 1%nat)
  /\ filterAfter (applyRelationshipPrefetch parseNothing noFiles call)
     = Some (JStr (u "(assetnum=" ++ [DQUOTE; DQUOTE] ++ u ")")).
Proof. split; compute_eq. Qed.

(** C1, as stated, fails: a tenant file that defines only the vendor
    relation for work orders removes the built-in asset relation of work
    orders from the merged configuration, although the tenant file does
    not define that alias. *)
Lemma relation_key_merge_fails :
  ~ (forall os_ rel,
       entryOf
         (Some (relationships
                  (loadRelationshipsConfig tenantOverride (u "/data")
                     (u "acme")))) os_ rel
       = mergedByRelationKey tenantOverride (u "/data") (u "acme") os_ rel).
Proof.
  intros H. specialize (H (u "mxapiwo") (u "asset")).
  vm_compute in H. discriminate.
Qed.

(** C8: a value that ends in a backslash is not kept inside its literal.
    The related resource returns two keys, the first of which holds a
    double quote and ends in a backslash.  Its double quote is escaped,
    but its backslash stands before the closing quote of the literal, and
    a reader that honours the escape reads on: the first literal of the
    filter written ends at the opening quote of the second.  The same
    happens to a predicate literal in the filter of the related-resource
    query, where the literal is never closed. *)
Theorem backslash_value_breaks_literal :
  let k := u "a" ++ [DQUOTE] ++ u "b" ++ [BACKSLASH] in
  let call :=
    callWith sensorFilter
      (answering (memberObjects "assetnum" [k; u "A2"])) in
  let p := mkPred (u "asset") (u "description") (u "=") k in
  exists res out,
    applyRelationshipPrefetch parseNothing noFiles call = Ok res
    /\ r_params res !! WHERE = Some (JStr out)
    /\ out
       = u "(assetnum=" ++ [DQUOTE] ++ u "a" ++ [BACKSLASH; DQUOTE] ++ u "b"
           ++ [BACKSLASH] ++ [DQUOTE] ++ u " or assetnum=" ++ quoted "A2"
           ++ u ")"
    /\ readQuoted (drop 11 out)
       = Some (u "a" ++ [DQUOTE] ++ u "b" ++ [DQUOTE] ++ u " or assetnum=",
               u "A2" ++ [DQUOTE] ++ u ")")
    /\ p ∈ detectRelationshipPredicates
             (u "asset.description='" ++ k ++ u "'")
    /\ predClause p
       = u "description = " ++ [DQUOTE] ++ u "a" ++ [BACKSLASH; DQUOTE]
           ++ u "b" ++ [BACKSLASH] ++ [DQUOTE]
    /\ readQuoted (drop 15 (predClause p)) = None.
Proof.
  eexists. eexists. split; [compute_eq |]. split; [compute_eq |].
  split; [compute_eq |]. split; [compute_eq |].
  split; [vm_compute; apply list_elem_of_here |].
  split; compute_eq.
Qed.

(** C4: the sentinel is put in the place of another clause.  The filter
    holds two clauses on the same relation and field, the alias of the
    first in another letter case, for which there is no configuration
    entry.  The second predicate is configured and resolves to no key;
    the pattern built for it matches names in any letter case, so the
    sentinel replaces the first clause, and the clause of the resolved
    predicate stays in the filter. *)
Theorem sentinel_replaces_other_clause :
  let a := callWith mixedCaseFilter (answering (memberObjects "assetnum" [])) in
  exists res,
    applyRelationshipPrefetch parseNothing noFiles a = Ok res
    /\ lowerMatch
       ∈ execAll (S (length mixedCaseFilter)) detectRe mixedCaseFilter 0
    /\ predOfMatch lowerMatch = sensorPred
    /\ configured (relsFor noFiles a) (p_rel sensorPred) = Some assetCfg
    /\ resolve parseNothing a API 0 assetCfg sensorPred = Ok ([], 0%nat)
    /\ whereOf (r_params res)
       = u "assetnum=" ++ quoted "__NO_MATCH__" ++ u " and asset.assettype="
           ++ quoted "SENSOR"
    /\ ~ replacedAt mixedCaseFilter (whereOf (r_params res)) lowerMatch
           (falseClauseOf (u "assetnum")).
Proof.
  intros a. eexists. split; [compute_eq |]. split.
  { vm_compute. apply list_elem_of_further, list_elem_of_here. }
  split; [compute_eq |]. split; [compute_eq |]. split; [compute_eq |].
  split; [compute_eq |].
  unfold replacedAt. vm_compute. discriminate.
Qed.

(** C5: the clause of a predicate without a configuration entry is
    rewritten.  In the same filter the first predicate has no entry (the
    lookup of the alias is by exact name) and is skipped, yet the rewrite
    made for the second predicate, whose pattern matches names in any
    letter case, removes the first predicate's clause from the filter. *)
Theorem unconfigured_clause_rewritten :
  let a :=
    callWith mixedCaseFilter
      (answering (memberObjects "assetnum" [u "A100"])) in
  exists res,
    applyRelationshipPrefetch parseNothing noFiles a = Ok res
    /\ upperMatch
       ∈ execAll (S (length mixedCaseFilter)) detectRe mixedCaseFilter 0
    /\ predOfMatch upperMatch = upperPred
    /\ configured (relsFor noFiles a) (p_rel upperPred) = None
    /\ whereOf (r_params res)
       = u "(assetnum=" ++ quoted "A100" ++ u ") and asset.assettype="
           ++ quoted "SENSOR"
    /\ ~ passesThrough mixedCaseFilter (whereOf (r_params res)) upperMatch.
Proof.
  intros a. eexists. split; [compute_eq |]. split.
  { vm_compute. apply list_elem_of_here. }
  split; [compute_eq |]. split; [compute_eq |]. split; [compute_eq |].
  intros H. apply occursIn_spec in H. by vm_compute in H.
Qed.



(** Witnesses: the theorems applied to concrete calls. *)


Lemma no_keys_rewrites_to_sentinel_witness :
  let a := callWith sensorFilter (answering (memberObjects "assetnum" [])) in
  (configured (relsFor noFiles a) (u "asset") = Some assetCfg
   /\ unusable assetCfg = false
   /\ resolve parseNothing a API 0 assetCfg sensorPred = Ok ([], 0%nat)
   /\ (DOLLAR ∉ rootJoinFieldOf assetCfg)
   /\ exec (clauseRe (u "asset") (u "assettype")) sensorFilter 0
      = Some sensorMatch)
  /\ ls_where
       (loopBody parseNothing noFiles a (relsFor noFiles a) API
          (sensorStart a) sensorPred)
     = u "assetnum=" ++ quoted "__NO_MATCH__".
Proof.
  intros a.
  assert (configured (relsFor noFiles a) (p_rel sensorPred) = Some assetCfg)
    as H1 by compute_eq.
  assert (unusable assetCfg = false) as H2 by compute_eq.
  assert (resolve parseNothing a API (ls_calls (sensorStart a)) assetCfg
            sensorPred = Ok ([], 0%nat)) as H3 by compute_eq.
  assert (DOLLAR ∉ rootJoinFieldOf assetCfg) as H4
    by decide_by_computation.
  assert (exec (clauseRe (p_rel sensorPred) (p_field sensorPred))
            (ls_where (sensorStart a)) 0 = Some sensorMatch) as H5
    by compute_eq.
  split; [exact (conj H1 (conj H2 (conj H3 (conj H4 H5)))) |].
  rewrite (proj1 (proj2 (proj2
             (no_keys_rewrites_to_sentinel parseNothing noFiles a
                (relsFor noFiles a) API (sensorStart a) sensorPred assetCfg
                0%nat H1 H2 H3 H4))) sensorMatch H5).
  compute_eq.
Defined.

Lemma unconfigured_predicate_passes_through_witness :
  let a := callWith vendorFilter (failing "unused") in
  configured (relsFor noFiles a) (u "vendor") = None
  /\ forall apiBase st,
       loopBody parseNothing noFiles a (relsFor noFiles a) apiBase st
         vendorPred = st.
Proof.
  intros a.
  assert (configured (relsFor noFiles a) (p_rel vendorPred) = None) as H1
    by compute_eq.
  split; [exact H1 |].
  exact (proj1 (unconfigured_predicate_passes_through parseNothing noFiles a
                  vendorPred H1)).
Defined.


Lemma keys_rewrite_to_disjunction_witness :
  let a :=
    callWith sensorFilter
      (answering (memberObjects "assetnum" [u "A100"; u "A101"])) in
  (resolve parseNothing a API 0 assetCfg sensorPred
     = Ok ([u "A100"; u "A101"], 2%nat)
   /\ (1 <= maxKeysOf noFiles assetCfg)%Z
   /\ exec (clauseRe (u "asset") (u "assettype")) sensorFilter 0
      = Some sensorMatch)
  /\ ls_where
       (loopBody parseNothing noFiles a (relsFor noFiles a) API
          (sensorStart a) sensorPred)
     = u "(assetnum=" ++ quoted "A100" ++ u " or assetnum="
         ++ quoted "A101" ++ u ")".
Proof.
  intros a.
  assert (configured (relsFor noFiles a) (p_rel sensorPred) = Some assetCfg)
    as H1 by compute_eq.
  assert (unusable assetCfg = false) as H2 by compute_eq.
  assert (resolve parseNothing a API (ls_calls (sensorStart a)) assetCfg
            sensorPred = Ok ([u "A100"; u "A101"], 2%nat)) as H3
    by compute_eq.
  assert ([u "A100"; u "A101"] <> []) as H4 by done.
  assert (1 <= maxKeysOf noFiles assetCfg)%Z as H5 by (by vm_compute).
  assert (DOLLAR ∉ rootJoinFieldOf assetCfg) as H6
    by decide_by_computation.
  assert (forall k, k ∈ [u "A100"; u "A101"] -> DOLLAR ∉ k) as H7.
  { intros k Hk. apply elem_of_cons in Hk as [-> | Hk];
      [decide_by_computation |].
    apply list_elem_of_singleton in Hk as ->. decide_by_computation. }
  assert (exec (clauseRe (p_rel sensorPred) (p_field sensorPred))
            (ls_where (sensorStart a)) 0 = Some sensorMatch) as H8
    by compute_eq.
  split; [exact (conj H3 (conj H5 H8)) |].
  rewrite (proj1 (proj2
             (keys_rewrite_to_disjunction parseNothing noFiles a
                (relsFor noFiles a) API (sensorStart a) sensorPred assetCfg
                [u "A100"; u "A101"] 2%nat H1 H2 H3 H4 H5 H6 H7))
             sensorMatch H8).
  compute_eq.
Defined.

Lemma single_predicate_call_witness :
  let a :=
    callWith sensorFilter
      (answering (memberObjects "assetnum" [u "A100"; u "A101"])) in
  (detectRelationshipPredicates (whereOf (params a)) = [sensorPred]
   /\ resolve parseNothing a API 0 assetCfg sensorPred
      = Ok ([u "A100"; u "A101"], 2%nat))
  /\ exists res,
       applyRelationshipPrefetch parseNothing noFiles a = Ok res
       /\ mode (r_plan res) = ModePrefetch
       /\ errors (r_plan res) = [].
Proof.
  intros a.
  assert (detectRelationshipPredicates (whereOf (params a)) = [sensorPred])
    as H1 by compute_eq.
  assert (configured (relsFor noFiles a) (p_rel sensorPred) = Some assetCfg)
    as H2 by compute_eq.
  assert (unusable assetCfg = false) as H3 by compute_eq.
  assert (maximoApiBase a = Ok API) as H4 by compute_eq.
  assert (resolve parseNothing a API 0 assetCfg sensorPred
          = Ok ([u "A100"; u "A101"], 2%nat)) as H5 by compute_eq.
  assert (DOLLAR ∉ rootJoinFieldOf assetCfg) as H6
    by decide_by_computation.
  assert (forall k, k ∈ [u "A100"; u "A101"] -> DOLLAR ∉ k) as H7.
  { intros k Hk. apply elem_of_cons in Hk as [-> | Hk];
      [decide_by_computation |].
    apply list_elem_of_singleton in Hk as ->. decide_by_computation. }
  split; [exact (conj H1 H5) |].
  destruct (single_predicate_call parseNothing noFiles a sensorPred assetCfg
              API [u "A100"; u "A101"] 2%nat H1 H2 H3 H4 H5 H6 H7)
    as (res & _ & _ & Hres & _ & _ & _ & _ & _ & _ & Hmode & Herr & _).
  exists res. exact (conj Hres (conj Hmode Herr)).
Defined.

Lemma no_predicate_no_change_witness :
  let a := callWith statusFilter (failing "unused") in
  detectRelationshipPredicates (whereOf (params a)) = []
  /\ applyRelationshipPrefetch parseNothing noFiles a
     = Ok (mkResult emptyPlan (params a) []).
Proof.
  intros a.
  assert (detectRelationshipPredicates (whereOf (params a)) = []) as H1
    by compute_eq.
  split; [exact H1 |].
  exact (no_predicate_no_change parseNothing noFiles a H1).
Defined.

(** * Further properties *)

(** ** Filters as sequences of clauses *)

(** Lemmas *)
Lemma not_char_forallb c (x : str) : forallb (not_char c) x = true <-> c ∉ x.
Proof.
  induction x as [|d x IH]; simpl.
  - split; [intros _ H; by apply elem_of_nil in H | done].
  - rewrite andb_true_iff, IH, not_elem_of_cons. unfold not_char.
    rewrite negb_true_iff, N.eqb_neq. tauto.
Qed.

Lemma first_dot_unique (a b x y : str) :
  (DOT ∉ a) -> (DOT ∉ b) -> a ++ DOT :: x = b ++ DOT :: y -> a = b /\ x = y.
Proof.
  revert b. induction a as [|c a IH]; intros [|d b] Ha Hb H; simpl in *.
  - by injection H as ->.
  - injection H as <- _. exfalso. apply Hb. by left.
  - injection H as -> _. exfalso. apply Ha. by left.
  - injection H as -> H. apply not_elem_of_cons in Ha as [_ Ha].
    apply not_elem_of_cons in Hb as [_ Hb].
    destruct (IH b Ha Hb H) as [-> ->]. done.
Qed.

Lemma char_before_length (x y : str) :
  char_before (x ++ y) (length x) = last x.
Proof.
  destruct x as [|c x' _] using rev_ind; [done |].
  rewrite last_snoc, length_app. simpl.
  replace (length x' + 1)%nat with (S (length x')) by lia.
  rewrite <- app_assoc. cbn [char_before app]. by apply list_lookup_middle.
Qed.

Lemma word_before_ends (x y : str) :
  endsPlain x = true -> word_before (stateAt (x ++ y) (length x)) = false.
Proof.
  unfold endsPlain, word_before, stateAt. simpl.
  rewrite char_before_length. destruct (last x); [| done].
  unfold not_word. by intros ?%negb_true_iff.
Qed.

Lemma word_no_dot (x : str) : forallb is_word x = true -> DOT ∉ x.
Proof.
  rewrite forallb_forall. intros H Hd. apply list_elem_of_In, H in Hd. done.
Qed.

Lemma space_no_dot (x : str) : forallb is_space x = true -> DOT ∉ x.
Proof.
  rewrite forallb_forall. intros H Hd. apply list_elem_of_In, H in Hd. done.
Qed.

Lemma last_drop_lt {A} (x : list A) n :
  (n < length x)%nat -> last (drop n x) = last x.
Proof.
  intros Hn. rewrite <- (take_drop n x) at 2. rewrite last_app.
  destruct (last (drop n x)) eqn:E; [done |].
  apply last_None in E. apply (f_equal length) in E.
  rewrite length_drop in E. simpl in E. lia.
Qed.

(** No clause starts inside a dot-free stretch that ends before a clause
    at a non-word character. *)
Lemma clause_not_early pre cl rest cl' rest' :
  wfClause cl = true -> wfClause cl' = true ->
  pre <> [] -> (DOT ∉ pre) -> endsPlain pre = true ->
  clauseText cl' ++ rest' = pre ++ clauseText cl ++ rest -> False.
Proof.
  intros Hwf Hwf' Hne Hd He Heq.
  apply wfClause_inv in Hwf as (Hrel & Hws1 & _).
  apply wfClause_inv in Hwf' as (Hrel' & Hws1' & _).
  apply identifier_word in Hrel'.
  destruct (identifier_head _ Hrel) as (r & rt & Hr & Hrw).
  unfold clauseText in Heq.
  assert ((c_rel cl' ++ c_ws1 cl') = pre ++ c_rel cl ++ c_ws1 cl) as Hpre.
  { refine (proj1 (first_dot_unique _ _ _ _ _ _ _)); cycle 2.
    - rewrite <- !app_assoc. simpl in *. rewrite <- !app_assoc in Heq.
      exact Heq.
    - rewrite not_elem_of_app. split; [by apply word_no_dot |].
      by apply space_no_dot.
    - rewrite !not_elem_of_app. split; [done |].
      split; [apply word_no_dot; by apply identifier_word |].
      by apply space_no_dot. }
  unfold endsPlain in He. destruct (last pre) as [c|] eqn:Hl;
    [| by apply last_None in Hl].
  apply last_Some in Hl as [pre'' ->].
  unfold not_word in He. apply negb_true_iff in He.
  assert (r ∈ c_ws1 cl' -> False) as Hspace.
  { intros Hin. rewrite forallb_forall in Hws1'.
    apply list_elem_of_In, Hws1', space_not_word in Hin. congruence. }
  rewrite Hr in Hpre. rewrite <- !app_assoc in Hpre.
  apply app_eq_inv in Hpre as [(k & Hk1 & Hk2) | (k & Hk1 & Hk2)].
  - destruct k as [|c' k].
    + simpl in Hk2. apply Hspace. rewrite <- Hk2.
      apply list_elem_of_further, list_elem_of_here.
    + simpl in Hk2. injection Hk2 as <- _.
      rewrite forallb_forall in Hrel'.
      assert (In c (c_rel cl')) as Hin.
      { rewrite Hk1. apply in_or_app. right. by left. }
      apply Hrel' in Hin. congruence.
  - apply Hspace. rewrite Hk2. rewrite !elem_of_app. right. right. left.
    apply list_elem_of_here.
Qed.

Lemma exec_detect_at x cl rest i :
  wfClause cl = true -> (i <= length x)%nat -> (DOT ∉ drop i x) ->
  endsPlain x = true ->
  exec detectRe (x ++ clauseText cl ++ rest) i
  = Some (matchOfClause (length x) cl).
Proof.
  intros Hwf Hi Hd He.
  set (w := x ++ clauseText cl ++ rest).
  assert (length x <= length w)%nat as Hlen
    by (unfold w; rewrite length_app; lia).
  assert (drop (length x) w = clauseText cl ++ rest) as Hdrop
    by (unfold w; by rewrite drop_app_length).
  destruct (detectRe_intro cl (stateAt w (length x)) rest Hwf) as (s1 & Hs1);
    [by apply word_before_ends | done |].
  pose proof (matchAt_complete _ _ _ _ _ Hs1) as Hsome.
  destruct (exec_complete detectRe w i (length x) (conj Hi Hlen) Hsome)
    as [m Hm].
  rewrite Hm. f_equal.
  pose proof Hm as Hm1. apply exec_inv in Hm1 as (Hidx & _ & Hleft).
  apply exec_detect_inv in Hm as (cl' & Hwf' & _ & Hw & _ & Hend & Hcaps).
  apply drop_middle in Hw; [| lia].
  assert (m_index m <= length x)%nat as Hle.
  { destruct (decide (m_index m <= length x)%nat); [done |].
    rewrite Hleft in Hsome; [by destruct Hsome | lia]. }
  assert (m_index m = length x) as Hix.
  { destruct (decide (m_index m = length x)) as [| Hne]; [done |].
    exfalso.
    assert (drop (m_index m) w
            = drop (m_index m) x ++ clauseText cl ++ rest) as Hsplit
      by (unfold w; by rewrite drop_app_le).
    rewrite Hsplit in Hw.
    apply (clause_not_early (drop (m_index m) x) cl rest cl'
             (drop (m_end m) w)); try done.
    - intros Hnil. apply (f_equal length) in Hnil.
      rewrite length_drop in Hnil. simpl in Hnil. lia.
    - intros Hin. apply Hd.
      replace (m_index m) with (i + (m_index m - i))%nat in Hin by lia.
      rewrite <- drop_drop in Hin. by eapply subseteq_drop.
    - unfold endsPlain. rewrite last_drop_lt by lia. done. }
  rewrite Hix, Hdrop in Hw.
  apply clause_unique in Hw as [<- _]; [| done..].
  destruct m as [mi me mc]. simpl in *. subst. done.
Qed.

Lemma exec_detect_none w i : (DOT ∉ drop i w) -> exec detectRe w i = None.
Proof.
  intros Hd. destruct (exec detectRe w i) as [m|] eqn:H; [| done].
  pose proof H as H1. apply exec_inv in H1 as (Hi & _).
  apply exec_detect_inv in H as (cl & _ & _ & Hw & _).
  apply drop_middle in Hw; [| lia].
  exfalso. apply Hd.
  replace (m_index m) with (i + (m_index m - i))%nat in Hw by lia.
  rewrite <- drop_drop in Hw.
  eapply (subseteq_drop (m_index m - i)). rewrite Hw, elem_of_app.
  left. apply clauseText_dot.
Qed.

Lemma clauseText_last cl : last (clauseText cl) = Some (c_quote cl).
Proof.
  unfold clauseText, clauseLiteral. rewrite !app_assoc. apply last_snoc.
Qed.

Lemma clauseText_length cl : (0 < length (clauseText cl))%nat.
Proof.
  pose proof (clauseText_dot cl) as Hd.
  destruct (clauseText cl); [by apply elem_of_nil in Hd | simpl; lia].
Qed.

Lemma plainGap_inv g :
  plainGap g = true -> (DOT ∉ g) /\ endsPlain g = true.
Proof.
  unfold plainGap. intros [H1 H2]%andb_true_iff.
  split; [by apply not_char_forallb | done].
Qed.

Lemma endsPlain_after_clause x cl g :
  wfClause cl = true -> endsPlain g = true ->
  endsPlain (x ++ clauseText cl ++ g) = true.
Proof.
  intros Hwf Hg. unfold endsPlain in *. rewrite !last_app.
  destruct (last g); [done |]. rewrite clauseText_last.
  apply wfClause_inv in Hwf as (_ & _ & _ & _ & _ & _ & _ & Hq & _).
  unfold not_word. by rewrite (quote_not_word _ Hq).
Qed.

Lemma execAll_segments : forall segs x i fuel,
  forallb wfSegment segs = true ->
  (i <= length x)%nat -> (DOT ∉ drop i x) -> endsPlain x = true ->
  (length (x ++ segmentsText segs) - i < fuel)%nat ->
  execAll fuel detectRe (x ++ segmentsText segs) i
  = segmentMatches (length x) segs.
Proof.
  induction segs as [|[cl g] segs IH]; intros x i fuel Hwf Hi Hd He Hf.
  - destruct fuel as [|fuel]; [lia |]. simpl.
    rewrite exec_detect_none; [done |]. by rewrite app_nil_r.
  - destruct fuel as [|fuel]; [lia |].
    cbn [forallb] in Hwf. apply andb_true_iff in Hwf as [Hseg Hwf].
    unfold wfSegment in Hseg. apply andb_true_iff in Hseg as [Hcl Hg].
    cbn [fst snd] in Hcl, Hg.
    destruct (plainGap_inv _ Hg) as [Hgd Hge].
    cbn [segmentsText execAll segmentMatches].
    rewrite exec_detect_at by done. f_equal.
    cbn [matchOfClause m_end].
    pose proof (clauseText_length cl) as Hpos.
    replace (x ++ clauseText cl ++ g ++ segmentsText segs)
      with ((x ++ clauseText cl ++ g) ++ segmentsText segs)
      by (by rewrite <- !app_assoc).
    replace (length x + length (clauseText cl) + length g)%nat
      with (length (x ++ clauseText cl ++ g))
      by (rewrite !length_app; lia).
    apply IH; try done.
    + rewrite !length_app. lia.
    + rewrite app_assoc, drop_app_length'; [done |].
      by rewrite length_app.
    + by apply endsPlain_after_clause.
    + cbn [segmentsText] in Hf. rewrite !length_app in *. lia.
Qed.

Lemma segmentMatches_preds : forall segs i,
  forallb wfSegment segs = true ->
  List.map predOfMatch (segmentMatches i segs)
  = List.map (fun seg => predOfClause (fst seg)) segs.
Proof.
  induction segs as [|[cl g] segs IH]; intros i Hwf; [done |].
  cbn [forallb] in Hwf. apply andb_true_iff in Hwf as [Hseg Hwf].
  unfold wfSegment in Hseg. apply andb_true_iff in Hseg as [Hcl _].
  simpl. f_equal; [| by apply IH].
  by apply predOfMatch_clause.
Qed.

Lemma plain_filter_detected g0 segs :
  plainGap g0 = true -> forallb wfSegment segs = true ->
  detectRelationshipPredicates (g0 ++ segmentsText segs)
  = List.map (fun seg => predOfClause (fst seg)) segs.
Proof.
  intros Hg Hwf. destruct (plainGap_inv _ Hg) as [Hd He].
  unfold detectRelationshipPredicates.
  rewrite (execAll_segments segs g0 0) by (try done; lia).
  by apply segmentMatches_preds.
Qed.

Theorem segmented_filter_detected g0 segs :
  plainGap g0 = true -> forallb wfSegment segs = true ->
  detectRelationshipPredicates (g0 ++ segmentsText segs)
  = List.map (fun seg => predOfClause (fst seg)) segs.
Proof.
  intros Hg Hwf. destruct (plainGap_inv _ Hg) as [Hd He].
  unfold detectRelationshipPredicates.
  rewrite (execAll_segments segs g0 0) by (try done; lia).
  by apply segmentMatches_preds.
Qed.

(** ** The detector's loop *)

Lemma execAll_detect_sorted w : forall fuel i,
  Forall (fun m => (i <= m_index m)%nat /\ (m_index m < m_end m)%nat
                    /\ (m_end m <= length w)%nat)
    (execAll fuel detectRe w i)
  /\ StronglySorted (fun m1 m2 => (m_end m1 <= m_index m2)%nat)
       (execAll fuel detectRe w i).
Proof.
  induction fuel as [|fuel IH]; intros i; simpl.
  { split; constructor. }
  destruct (exec detectRe w i) as [m|] eqn:He; [| split; constructor].
  pose proof He as He'. apply exec_inv in He' as (Hi & _ & _).
  apply exec_detect_inv in He as (cl & _ & _ & Hw & _ & Hend & _).
  pose proof (clauseText_length cl) as Hpos.
  assert (m_end m <= length w)%nat as Hle.
  { apply (f_equal length) in Hw. rewrite !length_app, length_take in Hw.
    lia. }
  destruct (IH (m_end m)) as [Hall Hsorted].
  split.
  - constructor; [lia |].
    eapply Forall_impl; [exact Hall |]. simpl. intros m' ?. lia.
  - constructor; [done |].
    eapply Forall_impl; [exact Hall |]. simpl. intros m' ?. lia.
Qed.

Lemma sorted_count (w : str) : forall (l : list Match) i,
  Forall (fun m => (i <= m_index m)%nat /\ (m_index m < m_end m)%nat
                   /\ (m_end m <= length w)%nat) l ->
  StronglySorted (fun m1 m2 => (m_end m1 <= m_index m2)%nat) l ->
  (length l + i <= length w)%nat \/ l = [].
Proof.
  induction l as [|m l IHl]; intros i Hl Hs; [by right |]. left.
  inversion Hl as [|? ? (H1 & H2 & H3) Hl']; subst.
  inversion Hs as [|? ? Hs' Hm]; subst.
  destruct (IHl (m_end m)) as [H | ->]; try done.
  - rewrite Forall_forall in Hl', Hm. apply Forall_forall.
    intros m' Hin. specialize (Hl' m' Hin). specialize (Hm m' Hin). lia.
  - simpl. lia.
  - simpl. lia.
Qed.

(** The detector's loop: the matches are found from left to right, none
    is empty and none overlaps another, each is the text of a clause of
    the grammar, and the loop ends: more iterations than the filter has
    characters find nothing more. *)
Theorem detector_matches_ordered w :
  let ms := execAll (S (length w)) detectRe w 0 in
  detectRelationshipPredicates w = List.map predOfMatch ms
  /\ Forall (fun m => (m_index m < m_end m)%nat /\ (m_end m <= length w)%nat
                      /\ exists cl, wfClause cl = true
                           /\ matched w m = clauseText cl
                           /\ predOfMatch m = predOfClause cl) ms
  /\ StronglySorted (fun m1 m2 => (m_end m1 <= m_index m2)%nat) ms
  /\ (forall fuel, (length w < fuel)%nat -> execAll fuel detectRe w 0 = ms)
  /\ (length ms <= length w)%nat.
Proof.
  intros ms. split; [done |].
  destruct (execAll_detect_sorted w (S (length w)) 0) as [Hall Hsorted].
  fold ms in Hall, Hsorted.
  split; [| split; [done | split]].
  - apply Forall_forall. intros m Hin.
    pose proof Hin as Hin'.
    rewrite Forall_forall in Hall. apply Hall in Hin as (_ & H1 & H2).
    split; [done |]. split; [done |].
    apply execAll_elem in Hin' as [j He].
    pose proof He as He'. apply exec_inv in He' as (Hi & _ & _).
    apply exec_detect_inv in He as (cl & Hwf & _ & Hw & _ & Hend & Hcaps).
    exists cl. split; [done |]. split; [| by apply predOfMatch_clause].
    unfold matched. apply drop_middle in Hw; [| lia]. rewrite Hw.
    replace (m_end m - m_index m)%nat with (length (clauseText cl)) by lia.
    by rewrite take_app_length.
  - intros fuel Hf. apply execAll_detect_fuel; lia.
  - destruct (sorted_count w ms 0 Hall Hsorted) as [H | ->]; simpl; lia.
Qed.

(** What the detector reports is read off a clause of the filter: the
    relation and the field are identifiers, the operator is one of [=],
    [!=] and [like] in lower case, and the value is the text between the
    quotes, free of the quote character that encloses it. *)
Theorem detected_predicate_shape w p :
  p ∈ detectRelationshipPredicates w ->
  exists cl pre post,
    wfClause cl = true /\ w = pre ++ clauseText cl ++ post
    /\ p = predOfClause cl
    /\ is_identifier (p_rel p) = true /\ is_identifier (p_field p) = true
    /\ (p_op p = u "=" \/ p_op p = u "!=" \/ p_op p = u "like")
    /\ (c_quote cl ∉ p_value p).
Proof.
  intros Hin. destruct (detected_wf _ _ Hin) as (Hr & Hf & Hop).
  apply detected_inv in Hin as (i & m & cl & _ & Hwf & _ & Hw & Hp).
  exists cl, (take (m_index m) w), (drop (m_end m) w).
  split; [done |]. split; [done |]. split; [done |].
  split; [done |]. split; [done |]. split; [done |].
  apply wfClause_inv in Hwf as (_ & _ & _ & _ & _ & _ & _ & _ & Hinner).
  rewrite Hp. simpl. by apply not_char_forallb.
Qed.

(** ** A call whose clauses all resolve *)

Lemma replacementFor_free c env rc outKeys :
  (c ∉ u "( or)=") -> (c ∉ u "=__NO_MATCH__") -> c <> DQUOTE ->
  c <> BACKSLASH ->
  (c ∉ rootJoinFieldOf rc) -> (forall k, k ∈ outKeys -> c ∉ k) ->
  c ∉ replacementFor env rc outKeys.
Proof.
  intros H1 H2 H3 H4 Hf Hk. unfold replacementFor.
  destruct (usedKeys (maxKeysOf env rc) outKeys) eqn:E; simpl.
  - by apply falseClause_free.
  - rewrite <- E. apply buildOrBlock_free; try done.
    intros k Hin. apply Hk. unfold usedKeys in Hin.
    apply elem_of_take in Hin as (i & Hi & _).
    by eapply list_elem_of_lookup_2.
Qed.

Lemma replacementFor_ends env rc outKeys :
  exists c, last (replacementFor env rc outKeys) = Some c
    /\ is_word c = false.
Proof.
  unfold replacementFor.
  destruct (isEmpty (usedKeys (maxKeysOf env rc) outKeys)).
  - exists DQUOTE. split; [| done].
    unfold falseClauseOf. rewrite !app_assoc. apply last_snoc.
  - exists 41. split; [| done].
    unfold buildOrBlock. change (u ")") with [41]. rewrite !app_assoc.
    apply last_snoc.
Qed.

Lemma endsPlain_after_replacement x env rc outKeys g :
  endsPlain g = true ->
  endsPlain (x ++ replacementFor env rc outKeys ++ g) = true.
Proof.
  intros Hg. unfold endsPlain in *. rewrite !last_app.
  destruct (last g); [done |].
  destruct (replacementFor_ends env rc outKeys) as (c & -> & Hc).
  unfold not_word. by rewrite Hc.
Qed.

Section Loop.

Variable JSON_parse : str -> option JsVal.

Lemma loop_segments env a relsForOs apiBase rcOf keysOf : forall segs x st,
  forallb wfSegment segs = true -> (DOT ∉ x) -> endsPlain x = true ->
  ls_where st = x ++ segmentsText segs ->
  allResolve JSON_parse env a relsForOs apiBase rcOf keysOf segs ->
  let st' :=
    fold_left (loopBody JSON_parse env a relsForOs apiBase)
      (List.map (fun seg => predOfClause (fst seg)) segs) st in
  ls_where st'
  = x ++ rewrittenText
           (fun cl =>
              replacementFor env (rcOf (predOfClause cl))
                (keysOf (predOfClause cl))) segs
  /\ errors (ls_plan st') = errors (ls_plan st)
  /\ (segs <> [] -> mode (ls_plan st') = ModePrefetch).
Proof.
  induction segs as [|[cl g] segs IH]; intros x st Hwf Hd He Hw Hall.
  { simpl. by rewrite Hw. }
  cbn [forallb] in Hwf. apply andb_true_iff in Hwf as [Hseg Hwf].
  unfold wfSegment in Hseg. apply andb_true_iff in Hseg as [Hcl Hg].
  cbn [fst snd] in Hcl, Hg.
  destruct (plainGap_inv _ Hg) as [Hgd Hge].
  destruct (Hall (cl, g)) as (Hc & Hu & Hr & Hfd & Hf & Hk); [by left |].
  cbn [fst] in Hc, Hu, Hr, Hfd, Hf, Hk.
  set (p := predOfClause cl) in *.
  destruct (Hr (ls_calls st)) as [cnt Hres].
  cbn [List.map fold_left fst]. fold p.
  destruct (body_resolved JSON_parse env a relsForOs apiBase st p (rcOf p)
              (keysOf p) cnt Hc Hu Hres) as (Hwhere & Hmode & Herr & _).
  set (st1 := loopBody JSON_parse env a relsForOs apiBase st p) in *.
  set (repl := replacementFor env (rcOf p) (keysOf p)) in *.
  assert (exec detectRe (ls_where st) 0
          = Some (matchOfClause (length x) cl)) as Hex.
  { rewrite Hw. cbn [segmentsText]. apply exec_detect_at; try done; lia. }
  assert (predOfMatch (matchOfClause (length x) cl) = p) as Hp
    by (by apply predOfMatch_clause).
  assert (ls_where st1 = (x ++ repl ++ g) ++ segmentsText segs) as Hw1.
  { rewrite Hwhere, <- Hp.
    rewrite replace_first_detected; [| done |].
    - cbn [matchOfClause m_index m_end]. rewrite Hw.
      cbn [segmentsText]. rewrite take_app_length.
      assert (drop (length x + length (clauseText cl))
                (x ++ clauseText cl ++ g ++ segmentsText segs)
              = g ++ segmentsText segs) as ->.
      { rewrite (app_assoc x). apply drop_app_length'.
        by rewrite length_app. }
      by rewrite <- !app_assoc.
    - apply replacementFor_plain; [done |].
      intros k Hin. by apply Hk. }
  destruct (IH (x ++ repl ++ g) st1) as (Hw2 & Herr2 & _); try done.
  - rewrite !not_elem_of_app. split; [done |]. split; [| done].
    destruct DOT_plain as [H1 H2].
    apply replacementFor_free; try done. intros k Hin. by apply Hk.
  - by apply endsPlain_after_replacement.
  - intros seg Hin. apply Hall. by right.
  - split; [| split].
    + rewrite Hw2. cbn [rewrittenText]. fold p. fold repl.
      by rewrite <- !app_assoc.
    + by rewrite Herr2, Herr.
    + intros _. destruct segs as [|seg segs']; [done |].
      destruct (IH (x ++ repl ++ g) st1) as (_ & _ & Hm); try done.
      * rewrite !not_elem_of_app. split; [done |]. split; [| done].
        destruct DOT_plain as [H1 H2].
        apply replacementFor_free; try done. intros k Hin. by apply Hk.
      * by apply endsPlain_after_replacement.
      * intros s Hin. apply Hall. by right.
      * by apply Hm.
Qed.

End Loop.

Section Calls.

Variable JSON_parse : str -> option JsVal.

Lemma body_detected env a relsForOs apiBase st p :
  detected (ls_plan (loopBody JSON_parse env a relsForOs apiBase st p))
  = detected (ls_plan st).
Proof.
  destruct (configured relsForOs (p_rel p)) as [rc|] eqn:Hc;
    [| by rewrite body_unconfigured].
  destruct (unusable rc) eqn:Hu; [by erewrite body_unusable |].
  destruct (resolve JSON_parse a apiBase (ls_calls st) rc p)
    as [[outKeys n]|e] eqn:Hr.
  - destruct (usedKeys (maxKeysOf env rc) outKeys) as [|k ks] eqn:Hk.
    + rewrite (body_no_keys _ _ _ _ _ _ _ _ _ _ Hc Hu Hr Hk).
      unfold planResolved. simpl.
      by destruct (_ <? _)%nat.
    + assert (usedKeys (maxKeysOf env rc) outKeys <> []) as Hne
        by (by rewrite Hk).
      rewrite (body_keys _ _ _ _ _ _ _ _ _ _ Hc Hu Hr Hne).
      unfold planResolved. simpl.
      by destruct (_ <? _)%nat.
  - by rewrite (body_throw _ _ _ _ _ _ _ _ _ Hc Hu Hr).
Qed.

Lemma loop_detected env a relsForOs apiBase preds : forall st,
  detected
    (ls_plan (fold_left (loopBody JSON_parse env a relsForOs apiBase) preds st))
  = detected (ls_plan st).
Proof.
  induction preds as [|p preds IH]; intros st; [done |].
  simpl. by rewrite IH, body_detected.
Qed.

Lemma rewrittenText_nonempty env rcOf keysOf segs :
  segs <> [] ->
  rewrittenText
    (fun cl =>
       replacementFor env (rcOf (predOfClause cl)) (keysOf (predOfClause cl)))
    segs <> [].
Proof.
  destruct segs as [|[cl g] segs]; [done |]. intros _. simpl.
  destruct (replacementFor_ends env (rcOf (predOfClause cl))
              (keysOf (predOfClause cl))) as (c & Hc & _).
  intros Hnil. apply app_eq_nil in Hnil as [Hnil _].
  by rewrite Hnil in Hc.
Qed.

Theorem resolved_call_rewrites_every_clause
    env a apiBase rcOf keysOf g0 segs :
  whereOf (params a) = g0 ++ segmentsText segs ->
  plainGap g0 = true -> forallb wfSegment segs = true -> segs <> [] ->
  maximoApiBase a = Ok apiBase ->
  allResolve JSON_parse env a (relsFor env a) apiBase rcOf keysOf segs ->
  exists res,
    applyRelationshipPrefetch JSON_parse env a = Ok res
    /\ detected (r_plan res)
       = List.map (fun seg => predOfClause (fst seg)) segs
    /\ whereOf (r_params res)
       = g0 ++ rewrittenText
                 (fun cl =>
                    replacementFor env (rcOf (predOfClause cl))
                      (keysOf (predOfClause cl))) segs
    /\ (forall k, k <> WHERE -> r_params res !! k = params a !! k)
    /\ mode (r_plan res) = ModePrefetch
    /\ errors (r_plan res) = [].
Proof.
  intros Hw Hg Hwf Hne Hbase Hall.
  destruct (plainGap_inv _ Hg) as [Hd He].
  pose proof (plain_filter_detected g0 segs Hg Hwf) as Hdet.
  rewrite <- Hw in Hdet.
  set (preds := List.map (fun seg => predOfClause (fst seg)) segs) in *.
  assert (runLoop JSON_parse env a apiBase
          = fold_left (loopBody JSON_parse env a (relsFor env a) apiBase)
              preds
              (mkLoopState (set_detected emptyPlan preds)
                 (whereOf (params a)) (params a) 0 [])) as Hrun.
  { unfold runLoop. by rewrite Hdet. }
  destruct (loop_segments JSON_parse env a (relsFor env a) apiBase rcOf
              keysOf segs g0
              (mkLoopState (set_detected emptyPlan preds)
                 (whereOf (params a)) (params a) 0 [])
              Hwf Hd He Hw Hall) as (Hwhere & Herr & Hmode).
  fold preds in Hwhere, Herr, Hmode. rewrite <- Hrun in Hwhere, Herr, Hmode.
  simpl in Herr. specialize (Hmode Hne).
  pose proof (loop_detected env a (relsFor env a) apiBase preds
                (mkLoopState (set_detected emptyPlan preds)
                   (whereOf (params a)) (params a) 0 [])) as Hdt.
  rewrite <- Hrun in Hdt. simpl in Hdt.
  destruct (runLoop_frame JSON_parse env a apiBase) as (Hpar & _).
  destruct (apply_paths JSON_parse env a)
    as [[_ [H | H]] | [(e & H & _) | (apiBase' & Hb & Hloop)]].
  - exfalso. rewrite H in Hdet.
    rewrite detect_no_dot in Hdet by (by intros ?%elem_of_nil).
    unfold preds in Hdet. by destruct segs.
  - exfalso. rewrite H in Hdet. unfold preds in Hdet. by destruct segs.
  - by rewrite H in Hbase.
  - rewrite Hbase in Hb. injection Hb as <-. cbv zeta in Hloop.
    destruct Hloop as [[Heq Hres] | [Hneq Hres]].
    + eexists. split; [exact Hres |]. simpl.
      rewrite Hpar, Hmode, Herr, Hdt.
      repeat split; try done. by rewrite <- Hwhere, Heq.
    + eexists. split; [exact Hres |]. simpl.
      rewrite Hpar, Hmode, Herr, Hdt.
      repeat split; try done.
      * rewrite whereOf_insert; [done |]. rewrite Hwhere.
        intros Hnil. apply app_eq_nil in Hnil as [_ Hnil].
        by apply rewrittenText_nonempty in Hnil.
      * intros k Hk. by apply lookup_insert_ne.
Qed.

End Calls.

(** ** Escaping *)

Lemma escape_app a b :
  escapeWhereString (a ++ b) = escapeWhereString a ++ escapeWhereString b.
Proof.
  induction a as [|c a IH]; simpl; [done |].
  destruct (c =? DQUOTE); simpl; by rewrite IH.
Qed.

(** Escaping goes through a text character by character: it distributes
    over concatenation, adds one character for every double quote, and
    leaves exactly the texts without a double quote as they are. *)
Theorem escape_is_local v :
  (forall a b,
     escapeWhereString (a ++ b) = escapeWhereString a ++ escapeWhereString b)
  /\ length (escapeWhereString v) = (length v + quotes v)%nat
  /\ (escapeWhereString v = v <-> DQUOTE ∉ v).
Proof.
  split; [apply escape_app |].
  assert (length (escapeWhereString v) = (length v + quotes v)%nat) as Hlen.
  { unfold quotes. induction v as [|c v IH]; simpl; [done |].
    destruct (c =? DQUOTE); simpl; rewrite IH; lia. }
  split; [done |]. split.
  - intros Heq Hin. rewrite Heq in Hlen.
    assert (0 < quotes v)%nat; [| lia].
    apply list_elem_of_In in Hin. unfold quotes.
    assert (In DQUOTE (List.filter (fun c => c =? DQUOTE) v)) as Hf
      by (apply filter_In; split; [done | apply N.eqb_refl]).
    destruct (List.filter _ v); [done | simpl; lia].
  - clear Hlen. induction v as [|c v IH]; [done |].
    rewrite not_elem_of_cons. intros [Hc Hv]. simpl.
    apply not_eq_sym, N.eqb_neq in Hc. rewrite Hc. by rewrite IH.
Qed.

(** ** The keys of a prefetch *)

Lemma trimStart_stops s : stops is_space (trimStart s).
Proof.
  induction s as [|c t IH]; simpl; [done |].
  destruct (is_space c) eqn:E; [done |]. by simpl.
Qed.

Lemma trimStart_split s :
  exists sp, s = sp ++ trimStart s /\ forallb is_space sp = true.
Proof.
  induction s as [|c t (sp & Ht & Hsp)]; simpl; [by exists [] |].
  destruct (is_space c) eqn:E.
  - exists (c :: sp). simpl. rewrite E, Hsp. split; [| done].
    by rewrite <- Ht.
  - by exists [].
Qed.

Lemma trim_fix s :
  stops is_space s -> stops is_space (rev s) -> trim s = s.
Proof.
  intros H1 H2. unfold trim, trimEnd.
  rewrite (trimStart_id s) by (by destruct s).
  rewrite (trimStart_id (rev s)) by (by destruct (rev s)).
  apply rev_involutive.
Qed.

Lemma trim_stops s :
  stops is_space (trim s) /\ stops is_space (rev (trim s)).
Proof.
  unfold trim, trimEnd. rewrite rev_involutive.
  split; [| apply trimStart_stops].
  pose proof (trimStart_stops s) as Ha.
  destruct (trimStart_split (rev (trimStart s))) as (sp & Hb & _).
  set (b := trimStart (rev (trimStart s))) in *.
  apply (f_equal (@rev N)) in Hb.
  rewrite rev_involutive, rev_app_distr in Hb.
  destruct (rev b) as [|c t]; [done |].
  rewrite Hb in Ha. done.
Qed.

Lemma trim_idem s : trim (trim s) = trim s.
Proof. destruct (trim_stops s). by apply trim_fix. Qed.

Section Keys.

Variable JSON_parse : str -> option JsVal.

(** The keys a prefetch returns are trimmed, as many as the count says,
    and no more than the answer has members with a truthy key field; a
    prefetch that returns has called the transport. *)
Theorem prefetched_keys_trimmed
    a callNo apiBase relatedOs relatedWhere select pageSize relatedKeyField
    keys n :
  prefetchKeys JSON_parse a callNo apiBase relatedOs relatedWhere select
    pageSize relatedKeyField = Ok (keys, n) ->
  n = length keys
  /\ Forall (fun k => trim k = k) keys
  /\ exists headers answer,
       authHeaders a = Ok headers
       /\ maximoFetch a callNo
            (requestOf a headers apiBase relatedOs relatedWhere select
               pageSize relatedKeyField) = Ok answer.
Proof.
  unfold prefetchKeys.
  destruct (wellFormed relatedOs); [| done]. simpl.
  destruct (authHeaders a) as [headers|]; [| done].
  destruct (maximoFetch a callNo _) as [answer|] eqn:Hf; [| done].
  intros H. injection H as <- <-.
  split; [done |]. split; [| by exists headers, answer].
  apply Forall_forall. intros k Hin.
  apply list_elem_of_In, in_map_iff in Hin as (v & <- & _).
  apply trim_idem.
Qed.

(** The two shapes of a transport answer give the same keys: an envelope
    whose text parses to a body, and that body itself. *)
Theorem envelope_same_as_body
    a callNo apiBase relatedOs relatedWhere select pageSize relatedKeyField
    (f1 f2 : nat -> Request -> Exc JsVal) response respText body :
  (forall req, f1 callNo req = Ok (envelope response respText)) ->
  (forall req, f2 callNo req = Ok body) ->
  truthy response = true ->
  JSON_parse respText = Some body -> isNullish body = false ->
  truthy (getProp body (u "r")) = false ->
  prefetchKeys JSON_parse (withTransport a f1) callNo apiBase relatedOs
    relatedWhere select pageSize relatedKeyField
  = prefetchKeys JSON_parse (withTransport a f2) callNo apiBase relatedOs
      relatedWhere select pageSize relatedKeyField.
Proof.
  intros H1 H2 Hr Hp Hn Hb. unfold prefetchKeys.
  destruct (wellFormed relatedOs); [| done]. simpl.
  destruct (authHeaders a) as [headers|]; [| done].
  rewrite H1, H2. unfold envelope.
  assert (getProp (JObj [(u "r", response); (u "respText", JStr respText)])
            (u "respText") = JStr respText) as -> by done.
  assert (getProp (JObj [(u "r", response); (u "respText", JStr respText)])
            (u "r") = response) as -> by done.
  rewrite Hr. simpl. unfold safeJson. rewrite Hp, Hn.
  destruct (getProp body (u "respText")) eqn:E; try done.
  rewrite Hb. by rewrite !andb_false_r.
Qed.

(** A body that does not parse is not a failure: the envelope then gives
    no key. *)
Theorem unparsable_body_gives_no_key
    a callNo apiBase relatedOs relatedWhere select pageSize relatedKeyField
    headers response respText :
  wellFormed relatedOs = true -> authHeaders a = Ok headers ->
  maximoFetch a callNo
    (requestOf a headers apiBase relatedOs relatedWhere select pageSize
       relatedKeyField) = Ok (envelope response respText) ->
  truthy response = true -> JSON_parse respText = None ->
  prefetchKeys JSON_parse a callNo apiBase relatedOs relatedWhere select
    pageSize relatedKeyField = Ok ([], 0%nat).
Proof.
  intros Hw Hh Hf Hr Hp. unfold prefetchKeys.
  rewrite Hw, Hh. cbn [negb]. cbv zeta. rewrite Hf. unfold envelope.
  assert (getProp (JObj [(u "r", response); (u "respText", JStr respText)])
            (u "respText") = JStr respText) as -> by done.
  assert (getProp (JObj [(u "r", response); (u "respText", JStr respText)])
            (u "r") = response) as -> by done.
  rewrite Hr. simpl. unfold safeJson. by rewrite Hp.
Qed.

End Keys.

(** ** The plan of a call *)

Lemma countKind_app k l1 l2 :
  countKind k (l1 ++ l2) = (countKind k l1 + countKind k l2)%nat.
Proof. unfold countKind. by rewrite List.filter_app, length_app. Qed.

Lemma usedKeys_le maxKeys outKeys :
  (length (usedKeys maxKeys outKeys) <= length outKeys)%nat.
Proof. unfold usedKeys. rewrite length_take. lia. Qed.

Section Plans.

Variable JSON_parse : str -> option JsVal.

Lemma resolve_ok_issued a apiBase rc p st x :
  resolve JSON_parse a apiBase (ls_calls st) rc p = Ok x ->
  exists headers,
    issue a apiBase rc p st
    = (S (ls_calls st),
       ls_trace st
         ++ [EvFetch (requestFor a apiBase rc p headers) (ls_params st)]).
Proof.
  unfold resolve, prefetchKeys, issue.
  destruct (wellFormed (relatedOsOf rc)); [| done]. simpl.
  destruct (authHeaders a) as [headers|]; [| done].
  intros _. by exists headers.
Qed.

Lemma issue_bounds a apiBase rc p st :
  (length (snd (issue a apiBase rc p st)) <= S (length (ls_trace st)))%nat
  /\ (length (ls_trace st) <= length (snd (issue a apiBase rc p st)))%nat.
Proof.
  unfold issue. destruct (wellFormed (relatedOsOf rc)); simpl; [| lia].
  destruct (authHeaders a); simpl; rewrite ?length_app; simpl; lia.
Qed.

Lemma body_balanced env a relsForOs apiBase st p :
  Balanced st ->
  Balanced (loopBody JSON_parse env a relsForOs apiBase st p).
Proof.
  intros [B1 B2 B3 B4 B5 B6 B7 B8].
  destruct (configured relsForOs (p_rel p)) as [rc|] eqn:Hc;
    [| by rewrite body_unconfigured].
  destruct (unusable rc) eqn:Hu; [by erewrite body_unusable |].
  pose proof (issue_bounds a apiBase rc p st) as [Hi1 Hi2].
  destruct (resolve JSON_parse a apiBase (ls_calls st) rc p)
    as [[outKeys n]|e] eqn:Hr.
  - destruct (resolve_ok_issued _ _ _ _ _ _ Hr) as [headers Hissue].
    pose proof (usedKeys_le (maxKeysOf env rc) outKeys) as Hle.
    assert (forall replacement note,
      Balanced
        (mkLoopState
           (planResolved env a st p rc outKeys replacement note)
           (replace (clauseRe (p_rel p) (p_field p)) 2 (ls_where st)
              replacement)
           (ls_params st)
           (fst (issue a apiBase rc p st))
           (snd (issue a apiBase rc p st)))) as Hok.
    { intros replacement note. rewrite Hissue. unfold planResolved.
      set (keys := usedKeys (maxKeysOf env rc) outKeys) in *.
      assert (forall pl,
        steps (if (length keys <? length outKeys)%nat
               then set_truncated pl else pl) = steps pl
        /\ errors (if (length keys <? length outKeys)%nat
                   then set_truncated pl else pl) = errors pl
        /\ mode (if (length keys <? length outKeys)%nat
                 then set_truncated pl else pl) = mode pl
        /\ truncated (if (length keys <? length outKeys)%nat
                      then set_truncated pl else pl)
           = ((length keys <? length outKeys)%nat || truncated pl)) as Hif.
      { intros pl. by destruct (length keys <? length outKeys)%nat. }
      split; cbn [ls_plan ls_trace push_step steps errors mode truncated fst snd];
        rewrite ?(proj1 (Hif _)), ?(proj1 (proj2 (Hif _))),
          ?(proj1 (proj2 (proj2 (Hif _)))),
          ?(proj2 (proj2 (proj2 (Hif _))));
        cbn [push_step set_mode steps errors mode truncated];
        rewrite ?countKind_app, ?length_app, ?existsb_app, ?forallb_app;
        change (countKind (u "prefetch") [announce env a rc p]) with 1%nat;
        change (countKind (u "prefetch_result") [announce env a rc p])
          with 0%nat;
        change (countKind (u "rewrite") [announce env a rc p]) with 0%nat;
        change (countKind (u "prefetch")
                  [StepPrefetchResult (p_rel p) (length outKeys)
                     (length keys)]) with 0%nat;
        change (countKind (u "prefetch_result")
                  [StepPrefetchResult (p_rel p) (length outKeys)
                     (length keys)]) with 1%nat;
        change (countKind (u "rewrite")
                  [StepPrefetchResult (p_rel p) (length outKeys)
                     (length keys)]) with 0%nat;
        change (countKind (u "prefetch")
                  [StepRewrite (p_rel p) replacement note]) with 0%nat;
        change (countKind (u "prefetch_result")
                  [StepRewrite (p_rel p) replacement note]) with 0%nat;
        change (countKind (u "rewrite")
                  [StepRewrite (p_rel p) replacement note]) with 1%nat;
        simpl length; try lia.
      - by destruct (steps (ls_plan st)).
      - rewrite B7. simpl.
        rewrite !orb_false_r. apply orb_comm.
      - rewrite B8. simpl. rewrite !andb_true_r.
        by apply Nat.leb_le. }
    destruct (usedKeys (maxKeysOf env rc) outKeys) as [|k ks] eqn:Hk.
    + rewrite (body_no_keys _ _ _ _ _ _ _ _ _ _ Hc Hu Hr Hk). apply Hok.
    + assert (usedKeys (maxKeysOf env rc) outKeys <> []) as Hne
        by (by rewrite Hk).
      rewrite (body_keys _ _ _ _ _ _ _ _ _ _ Hc Hu Hr Hne).
      apply Hok.
  - rewrite (body_throw _ _ _ _ _ _ _ _ _ Hc Hu Hr).
    split; cbn [ls_plan ls_trace push_step push_error set_mode steps errors
                mode truncated fst snd];
      rewrite ?countKind_app, ?length_app, ?existsb_app, ?forallb_app;
      change (countKind (u "prefetch") [announce env a rc p]) with 1%nat;
      change (countKind (u "prefetch_result") [announce env a rc p])
        with 0%nat;
      change (countKind (u "rewrite") [announce env a rc p]) with 0%nat;
      simpl length; try lia.
    + by destruct (steps (ls_plan st)).
    + rewrite B7. simpl. by rewrite orb_false_r.
    + rewrite B8. done.
Qed.

Lemma loop_balanced env a relsForOs apiBase preds : forall st,
  Balanced st ->
  Balanced (fold_left (loopBody JSON_parse env a relsForOs apiBase) preds st).
Proof.
  induction preds as [|p preds IH]; intros st H; [done |].
  simpl. by apply IH, body_balanced.
Qed.

(** What an iteration adds to the plan. *)
Lemma body_steps env a relsForOs apiBase st p :
  let st' := loopBody JSON_parse env a relsForOs apiBase st p in
  st' = st
  \/ (exists rc e,
        resolve JSON_parse a apiBase (ls_calls st) rc p = Throw e
        /\ steps (ls_plan st') = steps (ls_plan st) ++ [announce env a rc p]
        /\ errors (ls_plan st')
           = errors (ls_plan st) ++ [mkPlanError (Some (p_rel p)) e]
        /\ ls_where st' = ls_where st
        /\ truncated (ls_plan st') = truncated (ls_plan st))
  \/ (exists rc outKeys n replacement note,
        resolve JSON_parse a apiBase (ls_calls st) rc p = Ok (outKeys, n)
        /\ steps (ls_plan st')
           = steps (ls_plan st)
               ++ [announce env a rc p;
                   StepPrefetchResult (p_rel p) (length outKeys)
                     (length (usedKeys (maxKeysOf env rc) outKeys));
                   StepRewrite (p_rel p) replacement note]
        /\ errors (ls_plan st') = errors (ls_plan st)).
Proof.
  intros st'. subst st'.
  destruct (configured relsForOs (p_rel p)) as [rc|] eqn:Hc;
    [| left; by rewrite body_unconfigured].
  destruct (unusable rc) eqn:Hu; [left; by erewrite body_unusable |].
  destruct (resolve JSON_parse a apiBase (ls_calls st) rc p)
    as [[outKeys n]|e] eqn:Hr.
  - right; right.
    assert (forall replacement note,
      steps (planResolved env a st p rc outKeys replacement note)
      = steps (ls_plan st)
          ++ [announce env a rc p;
              StepPrefetchResult (p_rel p) (length outKeys)
                (length (usedKeys (maxKeysOf env rc) outKeys));
              StepRewrite (p_rel p) replacement note]
      /\ errors (planResolved env a st p rc outKeys replacement note)
         = errors (ls_plan st)) as Hok.
    { intros replacement note. unfold planResolved.
      destruct (_ <? _)%nat; simpl; by rewrite <- !app_assoc. }
    destruct (decide (usedKeys (maxKeysOf env rc) outKeys = []))
      as [Hk | Hne].
    + rewrite (body_no_keys _ _ _ _ _ _ _ _ _ _ Hc Hu Hr Hk).
      eexists rc, outKeys, n, _, _. split; [done |]. apply Hok.
    + rewrite (body_keys _ _ _ _ _ _ _ _ _ _ Hc Hu Hr Hne).
      eexists rc, outKeys, n, _, _. split; [done |]. apply Hok.
  - right; left. rewrite (body_throw _ _ _ _ _ _ _ _ _ Hc Hu Hr).
    by exists rc, e.
Qed.

Lemma loop_prefetch_le env a relsForOs apiBase preds : forall st,
  let st' := fold_left (loopBody JSON_parse env a relsForOs apiBase) preds st in
  (countKind (u "prefetch") (steps (ls_plan st'))
   <= countKind (u "prefetch") (steps (ls_plan st)) + length preds)%nat
  /\ (forallb ofRelation (errors (ls_plan st)) = true ->
      forallb ofRelation (errors (ls_plan st')) = true).
Proof.
  induction preds as [|p preds IH]; intros st; simpl; [split; [lia | done] |].
  destruct (IH (loopBody JSON_parse env a relsForOs apiBase st p))
    as [H1 H2].
  destruct (body_steps env a relsForOs apiBase st p)
    as [Heq | [(rc & e & _ & Hs & He & _)
              | (rc & outKeys & n & r & note & _ & Hs & He)]].
  - rewrite Heq in *. split; [lia | done].
  - rewrite Hs, He in *. rewrite countKind_app in H1.
    change (countKind (u "prefetch") [announce env a rc p]) with 1%nat in H1.
    split; [lia |]. intros H. apply H2. rewrite forallb_app, H. done.
  - rewrite Hs, He in *. rewrite countKind_app in H1.
    change (countKind (u "prefetch")
              [announce env a rc p;
               StepPrefetchResult (p_rel p) (length outKeys)
                 (length (usedKeys (maxKeysOf env rc) outKeys));
               StepRewrite (p_rel p) r note]) with 1%nat in H1.
    split; [lia | done].
Qed.

(** The paths of a call, told apart. *)
Lemma call_paths env a :
  let where_ := whereOf (params a) in
  let preds := detectRelationshipPredicates where_ in
  (preds = []
   /\ applyRelationshipPrefetch JSON_parse env a
      = Ok (mkResult emptyPlan (params a) []))
  \/ (preds <> [] /\ exists e, maximoApiBase a = Throw e
        /\ applyRelationshipPrefetch JSON_parse env a
           = Ok (mkResult
                   (push_error
                      (set_mode (set_detected emptyPlan preds) ModeError)
                      (mkPlanError None e))
                   (params a) []))
  \/ (preds <> [] /\ exists apiBase, maximoApiBase a = Ok apiBase
        /\ let st := runLoop JSON_parse env a apiBase in
           (ls_where st = where_
            /\ applyRelationshipPrefetch JSON_parse env a
               = Ok (mkResult (ls_plan st) (ls_params st) (ls_trace st)))
           \/ (ls_where st <> where_
               /\ applyRelationshipPrefetch JSON_parse env a
                  = Ok (mkResult (ls_plan st)
                          (<[WHERE := JStr (ls_where st)]> (ls_params st))
                          (ls_trace st
                             ++ [EvWrite WHERE (JStr (ls_where st))])))).
Proof.
  intros where_ preds.
  destruct preds as [|p ps] eqn:Hp.
  - left. split; [done |].
    destruct (apply_paths JSON_parse env a)
      as [[H _] | [(e & Hb & H) | (apiBase & Hb & Hloop)]]; [done | |].
    + unfold applyRelationshipPrefetch, tryBody.
      fold where_. fold preds. rewrite Hp.
      by destruct where_.
    + unfold applyRelationshipPrefetch, tryBody.
      fold where_. fold preds. rewrite Hp.
      by destruct where_.
  - destruct (apply_paths JSON_parse env a)
      as [[_ [H | H]] | [(e & Hb & H) | (apiBase & Hb & Hloop)]].
    + exfalso. fold where_ in H. unfold preds in Hp. rewrite H in Hp.
      by vm_compute in Hp.
    + exfalso. fold where_ in H. fold preds in H. by rewrite H in Hp.
    + right; left. split; [done |]. exists e. split; [done |].
      fold where_ in H. fold preds in H. by rewrite <- Hp.
    + right; right. split; [done |]. by exists apiBase.
Qed.

End Plans.

Lemma countFetch_all (l : list Event) bag :
  (forall ev, ev ∈ l -> exists req, ev = EvFetch req bag) ->
  countFetch l = length l.
Proof.
  unfold countFetch. induction l as [|ev l IH]; intros H; [done |].
  destruct (H ev) as [req ->]; [by left |]. simpl.
  rewrite IH; [done |]. intros ev' Hin. apply H. by right.
Qed.

Lemma countFetch_write (l : list Event) k v :
  countFetch (l ++ [EvWrite k v]) = countFetch l.
Proof.
  unfold countFetch. rewrite List.filter_app, length_app. simpl. lia.
Qed.

Lemma forallb_filter_length {A} (f : A -> bool) l :
  forallb f l = true -> length (List.filter f l) = length l.
Proof.
  induction l as [|x l IH]; simpl; [done |].
  intros [Hx Hl]%andb_true_iff. rewrite Hx. simpl. by rewrite IH.
Qed.

Section WholePlans.

Variable JSON_parse : str -> option JsVal.

Lemma start_balanced preds w bag :
  Balanced (mkLoopState (set_detected emptyPlan preds) w bag 0 []).
Proof. by split. Qed.

Lemma runLoop_balanced env a apiBase :
  let st := runLoop JSON_parse env a apiBase in
  Balanced st
  /\ (countKind (u "prefetch") (steps (ls_plan st))
      <= length (detectRelationshipPredicates (whereOf (params a))))%nat
  /\ forallb ofRelation (errors (ls_plan st)) = true
  /\ detected (ls_plan st)
     = detectRelationshipPredicates (whereOf (params a))
  /\ countFetch (ls_trace st) = length (ls_trace st).
Proof.
  unfold runLoop.
  set (preds := detectRelationshipPredicates (whereOf (params a))).
  set (st0 := mkLoopState (set_detected emptyPlan preds)
                (whereOf (params a)) (params a) 0 []).
  split; [apply loop_balanced, start_balanced |].
  destruct (loop_prefetch_le JSON_parse env a
              (relsForOsOf env
                 (loadRelationshipsConfig env (DATA_DIR env) (tenantId a))
                 (os a)) apiBase preds st0) as [H1 H2].
  split; [exact H1 |]. split; [by apply H2 |].
  split; [by rewrite loop_detected |].
  destruct (runLoop_frame JSON_parse env a apiBase) as (_ & _ & _ & Hev).
  by eapply countFetch_all.
Qed.


(** The truncated flag and the result steps agree. *)
Theorem truncation_shows_in_steps env a :
  exists res,
    applyRelationshipPrefetch JSON_parse env a = Ok res
    /\ (truncated (r_plan res) = true
        <-> exists rel returned used,
              StepPrefetchResult rel returned used ∈ steps (r_plan res)
              /\ (used < returned)%nat)
    /\ (forall rel returned used,
          StepPrefetchResult rel returned used ∈ steps (r_plan res) ->
          (used <= returned)%nat).
Proof.
  assert (forall pl,
    truncated pl = existsb cutShort (steps pl) ->
    forallb withinReturned (steps pl) = true ->
    (truncated pl = true
     <-> exists rel returned used,
           StepPrefetchResult rel returned used ∈ steps pl
           /\ (used < returned)%nat)
    /\ (forall rel returned used,
          StepPrefetchResult rel returned used ∈ steps pl ->
          (used <= returned)%nat)) as Hgoal.
  { intros pl Ht Hw. split.
    - rewrite Ht, existsb_exists. split.
      + intros (s & Hin & Hs). destruct s as [| rel returned used |];
          try done.
        exists rel, returned, used. split; [by apply list_elem_of_In |].
        by apply Nat.ltb_lt.
      + intros (rel & returned & used & Hin & Hlt).
        exists (StepPrefetchResult rel returned used).
        split; [by apply list_elem_of_In |]. by apply Nat.ltb_lt.
    - intros rel returned used Hin. rewrite forallb_forall in Hw.
      apply list_elem_of_In, Hw in Hin. by apply Nat.leb_le. }
  destruct (call_paths JSON_parse env a)
    as [[Hp H] | [(Hp & e & Hb & H) | (Hp & apiBase & Hb & Hloop)]].
  - eexists. split; [exact H |]. by apply Hgoal.
  - eexists. split; [exact H |]. by apply Hgoal.
  - destruct (runLoop_balanced env a apiBase)
      as ([B1 B2 B3 B4 B5 B6 B7 B8] & _).
    cbv zeta in Hloop. destruct Hloop as [[_ H] | [_ H]];
      (eexists; split; [exact H |]; by apply Hgoal).
Qed.

(** The base address cannot be had: the call reports one error for the
    whole call and touches nothing. *)
Theorem api_base_failure_reported env a e :
  detectRelationshipPredicates (whereOf (params a)) <> [] ->
  maximoApiBase a = Throw e ->
  applyRelationshipPrefetch JSON_parse env a
  = Ok (mkResult
          (mkPlan ModeError
             (detectRelationshipPredicates (whereOf (params a))) [] false
             [mkPlanError None e])
          (params a) []).
Proof.
  intros Hp Hb.
  destruct (call_paths JSON_parse env a)
    as [[Hp' H] | [(_ & e' & Hb' & H) | (_ & apiBase & Hb' & _)]].
  - done.
  - rewrite Hb in Hb'. injection Hb' as <-. by rewrite H.
  - by rewrite Hb in Hb'.
Qed.

Lemma resolve_throws a apiBase n rc p :
  (forall k req, exists e, maximoFetch a k req = Throw e) ->
  exists e, resolve JSON_parse a apiBase n rc p = Throw e.
Proof.
  intros Hf. unfold resolve, prefetchKeys.
  destruct (wellFormed (relatedOsOf rc)); simpl; [| by eexists].
  destruct (authHeaders a) as [headers|]; [| by eexists].
  destruct (Hf n (requestOf a headers apiBase (relatedOsOf rc)
                    (relatedWhereOf a (relatedSiteFieldOf rc) p)
                    (selectOf rc) (pageSizeOf rc) (relatedKeyFieldOf rc)))
    as [e ->].
  by eexists.
Qed.

Lemma loop_all_fail env a relsForOs apiBase preds : forall st,
  (forall k req, exists e, maximoFetch a k req = Throw e) ->
  let st' := fold_left (loopBody JSON_parse env a relsForOs apiBase) preds st in
  ls_where st' = ls_where st
  /\ truncated (ls_plan st') = truncated (ls_plan st)
  /\ countKind (u "prefetch_result") (steps (ls_plan st'))
     = countKind (u "prefetch_result") (steps (ls_plan st)).
Proof.
  induction preds as [|p preds IH]; intros st Hf; simpl; [done |].
  destruct (IH (loopBody JSON_parse env a relsForOs apiBase st p) Hf)
    as (H1 & H2 & H3).
  destruct (body_steps JSON_parse env a relsForOs apiBase st p)
    as [Heq | [(rc & e & _ & Hs & He & Hw & Ht)
              | (rc & outKeys & n & r & note & Hr & _)]].
  - by rewrite Heq in *.
  - rewrite H1, H2, H3, Hw, Ht, Hs, countKind_app.
    split; [done |]. split; [done |].
    change (countKind (u "prefetch_result") [announce env a rc p])
      with 0%nat. lia.
  - destruct (resolve_throws a apiBase (ls_calls st) rc p Hf) as [e He].
    by rewrite He in Hr.
Qed.

(** A transport that fails every request: the call returns, the
    parameter bag is as it was, and the plan holds no result, no rewrite
    and no truncation. *)
Theorem failing_transport_changes_nothing env a :
  (forall k req, exists e, maximoFetch a k req = Throw e) ->
  exists res,
    applyRelationshipPrefetch JSON_parse env a = Ok res
    /\ r_params res = params a
    /\ countFetch (r_trace res) = length (r_trace res)
    /\ countKind (u "prefetch_result") (steps (r_plan res)) = 0%nat
    /\ countKind (u "rewrite") (steps (r_plan res)) = 0%nat
    /\ length (steps (r_plan res))
       = length (List.filter ofRelation (errors (r_plan res)))
    /\ truncated (r_plan res) = false.
Proof.
  intros Hf.
  destruct (call_paths JSON_parse env a)
    as [[Hp H] | [(Hp & e & Hb & H) | (Hp & apiBase & Hb & Hloop)]].
  - eexists. split; [exact H |]. by vm_compute.
  - eexists. split; [exact H |]. by vm_compute.
  - destruct (runLoop_balanced env a apiBase)
      as ([B1 B2 B3 B4 B5 B6 B7 B8] & _ & Hrel & _ & Hfetch).
    destruct (runLoop_frame JSON_parse env a apiBase) as (Hpar & _).
    pose proof (loop_all_fail env a (relsFor env a) apiBase
                  (detectRelationshipPredicates (whereOf (params a)))
                  (mkLoopState
                     (set_detected emptyPlan
                        (detectRelationshipPredicates (whereOf (params a))))
                     (whereOf (params a)) (params a) 0 []) Hf)
      as (Hw & Ht & Hc).
    change (fold_left _ _ _) with (runLoop JSON_parse env a apiBase)
      in Hw, Ht, Hc.
    cbv zeta in Hloop. simpl in Hw, Ht, Hc.
    change (countKind (u "prefetch_result") []) with 0%nat in Hc.
    destruct Hloop as [[_ H] | [Hne _]]; [| done].
    eexists. split; [exact H |]. simpl.
    rewrite (forallb_filter_length _ _ Hrel).
    split; [done |]. split; [done |]. split; [done |].
    split; [lia |]. split; [lia | done].
Qed.

End WholePlans.

(** ** The site guard *)

Lemma test_at_start r w s1 :
  Matches r (mkMState None w 0 []) s1 -> test r w = true.
Proof.
  intros H. unfold test.
  destruct (exec_complete r w 0 0) as [m ->]; [lia | | done].
  simpl. rewrite drop_0. by eapply matchAt_complete.
Qed.

Lemma siteRe_own_field field op rest :
  ci_eq (u "siteid") field = true -> op = u "=" \/ op = u "!=" ->
  test siteRe (field ++ u " " ++ op ++ rest) = true.
Proof.
  intros Hf Hop.
  set (w := field ++ u " " ++ op ++ rest).
  set (s0 := mkMState None w 0 []).
  assert (CanRead
            (seqs [Lit (u "siteid"); StarC is_space;
                   Grp 2 (Alt (Lit (u "="))
                            (Alt (Lit (u "!="))
                               (seqs [WordB; Lit (u "in"); WordB])))])
            (field ++ u " " ++ op)) as Hread.
  { apply CanRead_Seq; [by apply CanRead_Lit |].
    apply CanRead_Seq; [by apply CanRead_StarC |].
    apply CanRead_Grp. destruct Hop as [-> | ->].
    - apply CanRead_AltL, CanRead_Lit. apply ci_eq_refl.
    - apply CanRead_AltR, CanRead_AltL, CanRead_Lit. apply ci_eq_refl. }
  destruct (Hread (set_cap 1 s0 s0) rest) as (s1 & Hm & _).
  { simpl. unfold w. by rewrite <- !app_assoc. }
  apply (test_at_start _ _ s1).
  change siteRe with
    (Seq (Grp 1 (Alt Bol (Chr not_word)))
       (seqs [Lit (u "siteid"); StarC is_space;
              Grp 2 (Alt (Lit (u "="))
                       (Alt (Lit (u "!="))
                          (seqs [WordB; Lit (u "in"); WordB])))])).
  eapply M_Seq; [| exact Hm].
  apply M_Grp, M_AltL, M_Bol. done.
Qed.

(** A predicate on the site field itself, compared with [=] or [!=], is
    sent to the related resource as it is: the guard finds the site
    filter and no second one is put before it. *)
Theorem site_clause_not_scoped_twice a relatedSiteField p :
  ci_eq (u "siteid") (p_field p) = true -> p_op p <> u "like" ->
  relatedWhereOf a relatedSiteField p = predClause p.
Proof.
  intros Hf Hop. unfold relatedWhereOf.
  assert (test siteRe (predClause p) = true) as ->.
  { unfold predClause. apply siteRe_own_field; [done |].
    unfold clauseOp, str_eqb.
    repeat case_bool_decide; auto. done. }
  by destruct (_ && _).
Qed.

(** ** The key limit *)

Section Limit.

Variable JSON_parse : str -> option JsVal.

(** A limit of zero or less uses no key: whatever the resolver returns,
    the clause is rewritten to the sentinel, and the plan is marked
    truncated when keys were returned. *)
Theorem nonpositive_limit_uses_no_key
    env a relsForOs apiBase st p rc outKeys n :
  configured relsForOs (p_rel p) = Some rc -> unusable rc = false ->
  resolve JSON_parse a apiBase (ls_calls st) rc p = Ok (outKeys, n) ->
  (maxKeysOf env rc <= 0)%Z ->
  let st' := loopBody JSON_parse env a relsForOs apiBase st p in
  ls_where st'
  = replace (clauseRe (p_rel p) (p_field p)) 2 (ls_where st)
      (falseClauseOf (rootJoinFieldOf rc))
  /\ steps (ls_plan st')
     = steps (ls_plan st)
         ++ [announce env a rc p;
             StepPrefetchResult (p_rel p) (length outKeys) 0;
             StepRewrite (p_rel p) (falseClauseOf (rootJoinFieldOf rc))
               (Some (u "no related matches"))]
  /\ truncated (ls_plan st')
     = (negb (isEmpty outKeys) || truncated (ls_plan st)).
Proof.
  intros Hc Hu Hr Hmax st'. subst st'.
  assert (usedKeys (maxKeysOf env rc) outKeys = []) as Hk.
  { unfold usedKeys. rewrite Z.max_l by lia. done. }
  rewrite (body_no_keys _ _ _ _ _ _ _ _ _ _ Hc Hu Hr Hk).
  unfold planResolved. rewrite Hk. simpl.
  split; [done |].
  destruct outKeys as [|k ks]; simpl; by rewrite <- !app_assoc.
Qed.

End Limit.

(** ** What the concept catalog page saves *)

Lemma split_nonempty sep s : split sep s <> [].
Proof.
  destruct s as [|c t]; simpl; [done |].
  destruct (c =? sep); [done |]. by destruct (split sep t).
Qed.

Lemma split_free sep s : Forall (fun part => sep ∉ part) (split sep s).
Proof.
  induction s as [|c t IH]; simpl.
  - constructor; [| done]. by intros ?%elem_of_nil.
  - destruct (c =? sep) eqn:E.
    + constructor; [| done]. by intros ?%elem_of_nil.
    + apply N.eqb_neq in E.
      destruct (split sep t) as [|part parts].
      * constructor; [| done].
        intros Hin%list_elem_of_singleton. congruence.
      * inversion IH as [|? ? Hp Hps]; subst.
        constructor; [| done].
        rewrite not_elem_of_cons. split; [congruence | done].
Qed.

Lemma split_plain sep s : (sep ∉ s) -> split sep s = [s].
Proof.
  induction s as [|c t IH]; [done |].
  rewrite not_elem_of_cons. intros [Hc Ht]. simpl.
  apply not_eq_sym, N.eqb_neq in Hc. rewrite Hc.
  by rewrite IH.
Qed.

Lemma split_app sep a b :
  (sep ∉ a) ->
  split sep (a ++ sep :: b) = a :: split sep b.
Proof.
  induction a as [|c a IH]; simpl.
  - by rewrite N.eqb_refl.
  - rewrite not_elem_of_cons. intros [Hc Ha].
    apply not_eq_sym, N.eqb_neq in Hc. rewrite Hc.
    by rewrite IH.
Qed.

Lemma split_join sep parts :
  parts <> [] -> Forall (fun part => sep ∉ part) parts ->
  split sep (join [sep] parts) = parts.
Proof.
  induction parts as [|part parts IH]; [done |]. intros _ Hall.
  inversion Hall as [|? ? Hp Hps]; subst.
  destruct parts as [|part' parts'].
  - simpl. by apply split_plain.
  - change (join [sep] (part :: part' :: parts'))
      with (part ++ sep :: join [sep] (part' :: parts')).
    rewrite split_app by done. f_equal. by apply IH.
Qed.

Lemma toStr_strings (l : list str) :
  toStr (JArr (List.map JStr l)) = join [COMMA] l.
Proof.
  simpl. change (u ",") with [COMMA]. f_equal.
  induction l as [|x l IH]; simpl; [done |]. by rewrite IH.
Qed.

Lemma trimStart_sub s c : c ∈ trimStart s -> c ∈ s.
Proof.
  induction s as [|x t IH]; simpl; [done |].
  destruct (is_space x); intros H; [| done].
  apply list_elem_of_further. by apply IH.
Qed.

Lemma trim_sub s c : c ∈ trim s -> c ∈ s.
Proof.
  unfold trim, trimEnd. intros H.
  rewrite list_elem_of_In, <- in_rev, <- list_elem_of_In in H.
  apply trimStart_sub in H.
  rewrite list_elem_of_In, <- in_rev, <- list_elem_of_In in H.
  by apply trimStart_sub.
Qed.

Lemma entityOf_candidates e :
  Forall (fun c => c <> [] /\ trim c = c /\ (COMMA ∉ c))
    (ent_osCandidates (entityOf e)).
Proof.
  simpl. apply Forall_forall. intros c Hin.
  apply list_elem_of_In, filter_In in Hin as [Hin Hne].
  apply in_map_iff in Hin as (part & <- & Hpart).
  split; [by destruct (trim part) |]. split; [apply trim_idem |].
  intros Hc%trim_sub.
  pose proof (split_free COMMA (textOf e "osCandidates")) as Hfree.
  rewrite Forall_forall in Hfree.
  apply (Hfree part); [by apply list_elem_of_In | done].
Qed.

Lemma kept_entity_clean e :
  keepEntity (entityOf e) = true -> cleanEntity (entityOf e).
Proof.
  unfold keepEntity. intros [H1 H2]%andb_true_iff.
  split; [by destruct (ent_label (entityOf e)) |].
  split; [apply trim_idem |].
  split; [by destruct (ent_osCandidates (entityOf e)) |].
  apply entityOf_candidates.
Qed.

Lemma kept_phrase_clean s :
  keepPhrase (phraseOf s) = true -> cleanPhrase (phraseOf s).
Proof.
  unfold keepPhrase. intros [H1 H2]%andb_true_iff.
  split; [by destruct (ph_label (phraseOf s)) |].
  split; [apply trim_idem |].
  split; [by destruct (ph_text (phraseOf s)) |]. apply trim_idem.
Qed.

Lemma filter_id {A} (f : A -> bool) (l : list A) :
  Forall (fun x => f x = true) l -> List.filter f l = l.
Proof.
  induction 1 as [|x l Hx _ IH]; simpl; [done |]. by rewrite Hx, IH.
Qed.

Lemma map_id_on {A} (f : A -> A) (l : list A) :
  Forall (fun x => f x = x) l -> List.map f l = l.
Proof.
  induction 1 as [|x l Hx _ IH]; simpl; [done |]. by rewrite Hx, IH.
Qed.

Lemma clean_entity_fixed e :
  cleanEntity e -> entityOf (rowOfEntity e) = e /\ keepEntity e = true.
Proof.
  intros (Hl & Htl & Hc & Hcs). destruct e as [l cs]. simpl in *.
  split.
  - unfold entityOf, rowOfEntity, textOf. cbn [ent_label ent_osCandidates].
    assert (getProp
              (JObj [(u "label", JStr l);
                     (u "osCandidates", JArr (List.map JStr cs))])
              (u "label") = JStr l) as -> by done.
    assert (getProp
              (JObj [(u "label", JStr l);
                     (u "osCandidates", JArr (List.map JStr cs))])
              (u "osCandidates") = JArr (List.map JStr cs)) as -> by done.
    assert (truthy (JStr l) = true) as -> by (by destruct l).
    cbn [truthy]. rewrite toStr_strings.
    change (toStr (JStr l)) with l. rewrite Htl. f_equal.
    rewrite split_join; [| done |].
    + rewrite map_id_on.
      * apply filter_id. eapply Forall_impl; [exact Hcs |].
        intros c (Hne & _). by destruct c.
      * eapply Forall_impl; [exact Hcs |]. by intros c (_ & Ht & _).
    + eapply Forall_impl; [exact Hcs |]. by intros c (_ & _ & Hf).
  - unfold keepEntity. simpl. by destruct l, cs.
Qed.

Lemma clean_phrase_fixed s :
  cleanPhrase s -> phraseOf (rowOfPhrase s) = s /\ keepPhrase s = true.
Proof.
  intros (Hl & Htl & Ht & Htt). destruct s as [l t]. simpl in *.
  split.
  - unfold phraseOf, rowOfPhrase, textOf. cbn [ph_label ph_text].
    assert (getProp (JObj [(u "label", JStr l); (u "text", JStr t)])
              (u "label") = JStr l) as -> by done.
    assert (getProp (JObj [(u "label", JStr l); (u "text", JStr t)])
              (u "text") = JStr t) as -> by done.
    assert (truthy (JStr l) = true) as -> by (by destruct l).
    assert (truthy (JStr t) = true) as -> by (by destruct t).
    simpl. by rewrite Htl, Htt.
  - unfold keepPhrase. simpl. by destruct l, t.
Qed.

Lemma savedEntities_clean entities :
  Forall cleanEntity (savedEntities entities).
Proof.
  apply Forall_forall. intros e Hin.
  apply list_elem_of_In, filter_In in Hin as [Hin Hk].
  apply in_map_iff in Hin as (row & <- & _). by apply kept_entity_clean.
Qed.

Lemma savedPhrases_clean phrases :
  Forall cleanPhrase (savedPhrases phrases).
Proof.
  apply Forall_forall. intros e Hin.
  apply list_elem_of_In, filter_In in Hin as [Hin Hk].
  apply in_map_iff in Hin as (row & <- & _). by apply kept_phrase_clean.
Qed.

Lemma filter_map_swap {A B} (f : B -> bool) (g : A -> B) (l : list A) :
  List.filter f (List.map g l)
  = List.map g (List.filter (fun x => f (g x)) l).
Proof.
  induction l as [|x l IH]; [done |].
  simpl. destruct (f (g x)); simpl; by rewrite IH.
Qed.

Lemma isEmpty_filter {A} (f : A -> bool) (l : list A) :
  isEmpty (List.filter f l) = negb (existsb f l).
Proof.
  induction l as [|x l IH]; [done |].
  simpl. by destruct (f x).
Qed.

Lemma keepEntity_sendable row :
  keepEntity (entityOf row) = sendableEntity row.
Proof.
  unfold keepEntity, entityOf, sendableEntity. cbn [ent_label ent_osCandidates].
  f_equal. rewrite isEmpty_filter, negb_involutive.
  induction (split COMMA (textOf row "osCandidates")) as [|c l IH]; [done |].
  simpl. by rewrite IH.
Qed.

(** What [save] sends is clean, and in the order of the table: every
    entity has a label and at least one candidate, every phrase a label
    and a text, none of them blank or with white space around it, and no
    candidate holds a comma; the entities sent are, in the order of the
    table, those of the rows with a label and a candidate that are not
    blank, and the phrases those of the rows with a label and a text that
    are not blank. *)
Theorem saved_overrides_are_clean entities phrases :
  Forall cleanEntity (savedEntities entities)
  /\ Forall cleanPhrase (savedPhrases phrases)
  /\ savedEntities entities
     = List.map entityOf (List.filter sendableEntity entities)
  /\ savedPhrases phrases
     = List.map phraseOf (List.filter sendablePhrase phrases).
Proof.
  split; [apply savedEntities_clean |].
  split; [apply savedPhrases_clean |]. split.
  - unfold savedEntities. rewrite filter_map_swap. f_equal.
    apply List.filter_ext. intros row. apply keepEntity_sendable.
  - unfold savedPhrases. by rewrite filter_map_swap.
Qed.

(** Saving what was saved changes nothing: the overrides that [save]
    sends, loaded into the tables again and saved once more, are sent as
    they are. *)
Theorem saving_again_changes_nothing entities phrases :
  savedEntities (List.map rowOfEntity (savedEntities entities))
  = savedEntities entities
  /\ savedPhrases (List.map rowOfPhrase (savedPhrases phrases))
     = savedPhrases phrases.
Proof.
  pose proof (savedEntities_clean entities) as He.
  pose proof (savedPhrases_clean phrases) as Hp.
  split.
  - unfold savedEntities at 1. rewrite List.map_map.
    rewrite map_id_on.
    + apply filter_id. eapply Forall_impl; [exact He |].
      intros e Hc. by apply clean_entity_fixed.
    + eapply Forall_impl; [exact He |].
      intros e Hc. by apply clean_entity_fixed.
  - unfold savedPhrases at 1. rewrite List.map_map.
    rewrite map_id_on.
    + apply filter_id. eapply Forall_impl; [exact Hp |].
      intros s Hc. by apply clean_phrase_fixed.
    + eapply Forall_impl; [exact Hp |].
      intros s Hc. by apply clean_phrase_fixed.
Qed.

(** ** The checks of the relationships editor *)

Lemma badRows_spec items : forall i n,
  n ∈ badRows i items
  <-> exists j it, n = S (i + j) /\ items !! j = Some it
        /\ incomplete it = true.
Proof.
  induction items as [|it rest IH]; intros i n; simpl.
  - split; [by intros ?%elem_of_nil | by intros (j & x & _ & ? & _)].
  - destruct (incomplete it) eqn:E.
    + rewrite elem_of_cons, IH. split.
      * intros [-> | (j & x & -> & Hj & Hx)].
        -- exists 0%nat, it. split; [lia | done].
        -- exists (S j), x. split; [lia | done].
      * intros ([|j] & x & -> & Hj & Hx).
        -- left. lia.
        -- right. exists j, x. split; [lia | done].
    + rewrite IH. split.
      * intros (j & x & -> & Hj & Hx). exists (S j), x. split; [lia | done].
      * intros ([|j] & x & -> & Hj & Hx).
        -- simpl in Hj. injection Hj as <-. congruence.
        -- exists j, x. split; [lia | done].
Qed.

Lemma badRows_nil items i :
  badRows i items = [] <-> Forall (fun it => incomplete it = false) items.
Proof.
  revert i. induction items as [|it rest IH]; intros i; simpl.
  - split; [constructor | done].
  - destruct (incomplete it) eqn:E.
    + split; [done |]. intros H. inversion H; congruence.
    + rewrite IH. split; [by constructor |]. by inversion 1.
Qed.



Lemma badRows_sorted items : forall i,
  StronglySorted lt (badRows i items)
  /\ Forall (fun n => (i < n)%nat) (badRows i items).
Proof.
  induction items as [|it items IH]; intros i; simpl.
  - split; constructor.
  - destruct (IH (S i)) as [Hs Hb].
    assert (Forall (fun n => (i < n)%nat) (badRows (S i) items)) as Hb'.
    { eapply Forall_impl; [exact Hb |]. intros n Hn. simpl in *. lia. }
    destruct (incomplete it); [| done]. split.
    + constructor; [done |]. exact Hb.
    + constructor; [lia | done].
Qed.

(** Rows with a required field missing are reported before any
    duplicate: the message lists, in rising order and each once, the
    numbers, counted from one, of exactly the incomplete rows. *)
Theorem validate_reports_incomplete_rows items :
  existsb isNullish items = false -> existsb incomplete items = true ->
  exists rows,
    validate items
    = Rejected
        (u "Missing required fields in row(s): "
           ++ join (u ", ") (List.map decimal rows))
    /\ rows <> []
    /\ StronglySorted lt rows
    /\ forall n,
         n ∈ rows
         <-> exists j it, n = S j /\ items !! j = Some it
               /\ incomplete it = true.
Proof.
  intros Hn Hi. exists (badRows 0 items). unfold validate. rewrite Hn.
  assert (badRows 0 items <> []) as Hne.
  { intros Hnil. apply badRows_nil in Hnil.
    apply existsb_exists in Hi as (it & Hin & Hit).
    rewrite Forall_forall in Hnil.
    apply list_elem_of_In, Hnil in Hin. congruence. }
  split; [by destruct (badRows 0 items) |]. split; [done |].
  split; [apply badRows_sorted |].
  intros n. apply badRows_spec.
Qed.

(** ** A call that passes over some clauses *)

Lemma clauseText_split c :
  clauseText c = (c_rel c ++ c_ws1 c) ++ DOT :: clauseTail c.
Proof. unfold clauseText, clauseTail. by rewrite <- !app_assoc. Qed.

Lemma segmentsText_app a b :
  segmentsText (a ++ b) = segmentsText a ++ segmentsText b.
Proof.
  induction a as [|[c g] a IH]; [done |].
  simpl. by rewrite IH, <- !app_assoc.
Qed.

Lemma wfOp_no_dot c : wfOp c = true -> DOT ∉ c_op c.
Proof.
  unfold wfOp, str_eqb. rewrite !orb_true_iff, andb_true_iff.
  rewrite !bool_decide_eq_true.
  intros [[H | H] | [H _]].
  - rewrite H. apply (bool_decide_unpack _). by vm_compute.
  - rewrite H. apply (bool_decide_unpack _). by vm_compute.
  - apply word_no_dot. eapply ci_eq_word; [exact H |]. by vm_compute.
Qed.

Lemma clauseTail_no_dot c :
  wfClause c = true -> (DOT ∉ c_inner c) -> DOT ∉ clauseTail c.
Proof.
  intros Hwf Hin.
  apply wfClause_inv in Hwf
    as (_ & _ & Hws2 & Hf & Hws3 & Hop & Hws4 & Hq & _).
  unfold clauseTail, clauseLiteral. rewrite !not_elem_of_app.
  assert (DOT ∉ [c_quote c]) as Hquote.
  { intros Hd%list_elem_of_singleton.
    apply orb_true_iff in Hq as [Hq | Hq]; apply N.eqb_eq in Hq;
      rewrite Hq in Hd; by vm_compute in Hd. }
  repeat split; try done.
  - by apply space_no_dot.
  - by apply word_no_dot, identifier_word.
  - by apply space_no_dot.
  - by apply wfOp_no_dot.
  - by apply space_no_dot.
Qed.

Lemma next_clause cl rest ks :
  wfClause cl = true -> forallb wfSegment ks = true ->
  exists cn restn,
    wfClause cn = true
    /\ segmentsText ks ++ clauseText cl ++ rest = clauseText cn ++ restn.
Proof.
  intros Hwf Hks. destruct ks as [|[c g] ks].
  - by exists cl, rest.
  - cbn [forallb] in Hks. apply andb_true_iff in Hks as [Hseg _].
    unfold wfSegment in Hseg. apply andb_true_iff in Hseg as [Hc _].
    exists c, (g ++ segmentsText ks ++ clauseText cl ++ rest).
    split; [done |]. simpl. by rewrite <- !app_assoc.
Qed.

(** No detector match starts inside the relation name of a clause. *)
Lemma no_match_inside_name d rel ws1 R j m :
  is_identifier rel = true -> forallb is_space ws1 = true ->
  (length d < j <= length d + length (rel ++ ws1))%nat ->
  let w := d ++ (rel ++ ws1) ++ DOT :: R in
  matchAt detectRe (char_before w j) (drop j w) j = Some m -> False.
Proof.
  intros Hrel Hws Hj w Hm.
  assert (j <= length w)%nat as Hjw.
  { unfold w. rewrite !length_app. simpl. rewrite length_app in Hj. lia. }
  apply matchAt_detect_inv in Hm as (cl' & Hwf' & Hwb & Hw & _); [| done].
  apply drop_middle in Hw; [| done].
  set (k := (j - length d)%nat).
  assert (drop j w = drop k (rel ++ ws1) ++ DOT :: R) as Hdrop.
  { unfold w. rewrite drop_app_ge by lia. fold k.
    rewrite drop_app_le by lia. done. }
  rewrite Hdrop, clauseText_split, <- app_assoc in Hw.
  pose proof Hwf' as Hwf2.
  apply wfClause_inv in Hwf2 as (Hrel' & Hws1' & _).
  apply first_dot_unique in Hw as [Hpre _]; cycle 1.
  { intros Hin. apply subseteq_drop in Hin.
    apply elem_of_app in Hin as [Hin | Hin].
    - by apply (word_no_dot rel); [apply identifier_word |].
    - by apply (space_no_dot ws1). }
  { rewrite not_elem_of_app. split.
    - by apply word_no_dot, identifier_word.
    - by apply space_no_dot. }
  destruct (identifier_head _ Hrel') as (r' & rt' & Hr' & Hrw').
  rewrite Hr' in Hpre. cbn [app] in Hpre.
  assert ((rel ++ ws1) !! k = Some r') as Hk.
  { rewrite <- (Nat.add_0_r k), <- lookup_drop, Hpre. done. }
  assert (k < length rel)%nat as Hklt.
  { destruct (decide (k < length rel)%nat) as [| Hge]; [done | exfalso].
    rewrite lookup_app_r in Hk by lia.
    apply list_elem_of_lookup_2 in Hk.
    rewrite forallb_forall in Hws.
    apply list_elem_of_In, Hws, space_not_word in Hk. congruence. }
  assert (exists c, rel !! (k - 1)%nat = Some c) as [c Hc].
  { apply lookup_lt_is_Some. lia. }
  assert (is_word c = true) as Hcw.
  { apply identifier_word in Hrel. rewrite forallb_forall in Hrel.
    apply Hrel, list_elem_of_In. by eapply list_elem_of_lookup_2. }
  unfold word_before, stateAt in Hwb. cbn [ms_prev] in Hwb.
  assert (char_before w j = Some c) as Hcb.
  { unfold char_before. destruct j as [|j']; [lia |].
    unfold w. rewrite lookup_app_r by lia.
    rewrite lookup_app_l by (rewrite length_app; lia).
    rewrite lookup_app_l by lia.
    rewrite <- Hc. f_equal. unfold k. lia. }
  rewrite Hcb in Hwb. congruence.
Qed.

Lemma segments_no_inner_dot_tail (ks : list (Clause * str)) seg :
  (forall s, s ∈ seg :: ks -> DOT ∉ c_inner (fst s)) ->
  (DOT ∉ c_inner (fst seg)) /\ forall s, s ∈ ks -> DOT ∉ c_inner (fst s).
Proof.
  intros H. split; [apply H; by left |]. intros s Hs. apply H. by right.
Qed.

Lemma clause_in_text (d : str) c R :
  d ++ clauseText c ++ R
  = d ++ (c_rel c ++ c_ws1 c) ++ DOT :: (clauseTail c ++ R).
Proof.
  rewrite clauseText_split. f_equal. rewrite <- (app_assoc (c_rel c ++ c_ws1 c)).
  done.
Qed.

(** A detector match that starts inside a run of kept clauses starts at
    one of them. *)
Lemma match_in_kept cl rest : forall ks d c g j m,
  wfClause cl = true -> wfClause c = true -> (DOT ∉ c_inner c) ->
  plainGap g = true -> forallb wfSegment ks = true ->
  (forall s, s ∈ ks -> DOT ∉ c_inner (fst s)) ->
  let w := d ++ clauseText c ++ g ++ segmentsText ks ++ clauseText cl ++ rest in
  (length d <= j
   < length d + length (clauseText c) + length g
     + length (segmentsText ks))%nat ->
  matchAt detectRe (char_before w j) (drop j w) j = Some m ->
  exists c' tail,
    (c' = c \/ c' ∈ List.map fst ks)
    /\ drop j w = clauseText c' ++ tail.
Proof.
  induction ks as [|[c2 g2] ks IH]; intros d c g j m Hcl Hc Hin Hg Hks Hdots
    w Hj Hm.
  - (* the last kept clause *)
    destruct (plainGap_inv _ Hg) as [Hgd Hge].
    cbn [segmentsText length] in Hj.
    destruct (decide (j = length d)) as [-> | Hne].
    { exists c, (g ++ segmentsText [] ++ clauseText cl ++ rest).
      split; [by left |]. unfold w. by rewrite drop_app_length. }
    exfalso.
    pose proof Hc as Hc'. apply wfClause_inv in Hc' as (Hrel & Hws1 & _).
    destruct (decide (j <= length d + length (c_rel c ++ c_ws1 c))%nat)
      as [Hle | Hgt].
    + apply (no_match_inside_name d (c_rel c) (c_ws1 c)
               (clauseTail c ++ g ++ segmentsText [] ++ clauseText cl ++ rest)
               j m Hrel Hws1); [lia |].
      cbv zeta. unfold w in Hm. by rewrite clause_in_text in Hm.
    + assert (j <= length w)%nat as Hjw.
      { unfold w. rewrite !length_app. lia. }
      apply matchAt_detect_inv in Hm as (cl' & Hwf' & _ & Hw & _); [| done].
      apply drop_middle in Hw; [| done].
      set (k := (j - length d)%nat).
      assert (drop j w
              = drop k (clauseText c ++ g) ++ clauseText cl ++ rest)
        as Hdrop.
      { unfold w. rewrite drop_app_ge by lia. fold k.
        cbn [segmentsText app]. rewrite (app_assoc (clauseText c)).
        rewrite drop_app_le by (rewrite length_app; lia). done. }
      rewrite Hdrop in Hw.
      apply (clause_not_early (drop k (clauseText c ++ g)) cl rest cl'
               (drop (m_end m) w)); try done.
      * intros Hnil. apply (f_equal length) in Hnil.
        rewrite length_drop, length_app in Hnil. simpl in Hnil. lia.
      * rewrite clauseText_split, <- app_assoc. cbn [app].
        replace k
          with (S (length (c_rel c ++ c_ws1 c))
                + (k - S (length (c_rel c ++ c_ws1 c))))%nat by lia.
        rewrite <- drop_drop.
        change (S (length (c_rel c ++ c_ws1 c)))
          with (1 + length (c_rel c ++ c_ws1 c))%nat.
        rewrite Nat.add_comm, <- drop_drop, drop_app_length.
        cbn [drop]. intros Hd%subseteq_drop.
        apply elem_of_app in Hd as [Hd | Hd]; [| done].
        by apply (clauseTail_no_dot c).
      * unfold endsPlain.
        rewrite last_drop_lt by (rewrite length_app; lia).
        pose proof (endsPlain_after_clause [] c g Hc Hge) as He.
        unfold endsPlain in He. by cbn [app] in He.
  - (* a kept clause followed by more *)
    destruct (plainGap_inv _ Hg) as [Hgd Hge].
    cbn [forallb] in Hks. apply andb_true_iff in Hks as [Hseg Hks].
    unfold wfSegment in Hseg. apply andb_true_iff in Hseg as [Hc2 Hg2].
    cbn [fst snd] in Hc2, Hg2.
    destruct (segments_no_inner_dot_tail ks (c2, g2) Hdots) as [Hin2 Hdots'].
    cbn [fst] in Hin2.
    destruct (decide (j = length d)) as [-> | Hne].
    { eexists c, _. split; [by left |]. unfold w.
      by rewrite drop_app_length. }
    destruct (decide
                (j < length d + length (clauseText c) + length g)%nat)
      as [Hlt | Hge2].
    + exfalso.
      pose proof Hc as Hc'. apply wfClause_inv in Hc' as (Hrel & Hws1 & _).
      destruct (decide (j <= length d + length (c_rel c ++ c_ws1 c))%nat)
        as [Hle | Hgt].
      * apply (no_match_inside_name d (c_rel c) (c_ws1 c)
                 (clauseTail c ++ g ++ segmentsText ((c2, g2) :: ks)
                    ++ clauseText cl ++ rest)
                 j m Hrel Hws1); [lia |].
        cbv zeta. unfold w in Hm. by rewrite clause_in_text in Hm.
      * assert (j <= length w)%nat as Hjw.
        { unfold w. rewrite !length_app. lia. }
        apply matchAt_detect_inv in Hm as (cl' & Hwf' & _ & Hw & _);
          [| done].
        apply drop_middle in Hw; [| done].
        set (k := (j - length d)%nat).
        assert (drop j w
                = drop k (clauseText c ++ g) ++ clauseText c2
                    ++ (g2 ++ segmentsText ks ++ clauseText cl ++ rest))
          as Hdrop.
        { unfold w. rewrite drop_app_ge by lia. fold k.
          cbn [segmentsText]. rewrite (app_assoc (clauseText c)).
          rewrite drop_app_le by (rewrite length_app; lia).
          by rewrite <- !app_assoc. }
        rewrite Hdrop in Hw.
        apply (clause_not_early (drop k (clauseText c ++ g)) c2
                 (g2 ++ segmentsText ks ++ clauseText cl ++ rest) cl'
                 (drop (m_end m) w)); try done.
        -- intros Hnil. apply (f_equal length) in Hnil.
           rewrite length_drop, length_app in Hnil. simpl in Hnil. lia.
        -- rewrite clauseText_split, <- app_assoc. cbn [app].
           replace k
             with (S (length (c_rel c ++ c_ws1 c))
                   + (k - S (length (c_rel c ++ c_ws1 c))))%nat by lia.
           rewrite <- drop_drop.
           change (S (length (c_rel c ++ c_ws1 c)))
             with (1 + length (c_rel c ++ c_ws1 c))%nat.
           rewrite Nat.add_comm, <- drop_drop, drop_app_length.
           cbn [drop]. intros Hd%subseteq_drop.
           apply elem_of_app in Hd as [Hd | Hd]; [| done].
           by apply (clauseTail_no_dot c).
        -- unfold endsPlain.
           rewrite last_drop_lt by (rewrite length_app; lia).
           pose proof (endsPlain_after_clause [] c g Hc Hge) as He.
           unfold endsPlain in He. by cbn [app] in He.
    + destruct (IH (d ++ clauseText c ++ g) c2 g2 j m Hcl Hc2 Hin2 Hg2 Hks
                  Hdots') as (c' & tail & Hc' & Htail).
      * cbn [segmentsText] in Hj. rewrite !length_app in Hj |- *. lia.
      * unfold w in Hm. cbn [segmentsText] in Hm.
        by rewrite <- !app_assoc in Hm |- *.
      * exists c', tail. split.
        -- right. destruct Hc' as [-> | Hc'];
             [apply list_elem_of_here | by apply list_elem_of_further].
        -- rewrite <- Htail. unfold w. cbn [segmentsText].
           by rewrite <- !app_assoc.
Qed.

Lemma segments_endsPlain : forall ks h0,
  endsPlain h0 = true -> forallb wfSegment ks = true ->
  endsPlain (h0 ++ segmentsText ks) = true.
Proof.
  induction ks as [|[c g] ks IH]; intros h0 Hh Hks.
  - simpl. by rewrite app_nil_r.
  - cbn [forallb] in Hks. apply andb_true_iff in Hks as [Hseg Hks].
    unfold wfSegment in Hseg. apply andb_true_iff in Hseg as [Hc Hg].
    cbn [fst snd] in Hc, Hg. destruct (plainGap_inv _ Hg) as [_ Hge].
    cbn [segmentsText].
    replace (h0 ++ clauseText c ++ g ++ segmentsText ks)
      with ((h0 ++ clauseText c ++ g) ++ segmentsText ks)
      by (by rewrite <- !app_assoc).
    apply IH; [| done]. by apply endsPlain_after_clause.
Qed.

(** A detector match that starts before the clause [cl], in a text of a
    plain gap and kept clauses, starts at one of the kept clauses. *)
Lemma match_in_prefix cl rest h0 ks j m :
  wfClause cl = true -> plainGap h0 = true ->
  forallb wfSegment ks = true ->
  (forall s, s ∈ ks -> DOT ∉ c_inner (fst s)) ->
  let w := h0 ++ segmentsText ks ++ clauseText cl ++ rest in
  (j < length h0 + length (segmentsText ks))%nat ->
  matchAt detectRe (char_before w j) (drop j w) j = Some m ->
  exists c' tail,
    c' ∈ List.map fst ks /\ drop j w = clauseText c' ++ tail.
Proof.
  intros Hcl Hh Hks Hdots w Hj Hm.
  destruct (plainGap_inv _ Hh) as [Hhd Hhe].
  destruct (decide (j < length h0)%nat) as [Hlt | Hge].
  - exfalso.
    destruct (next_clause cl rest ks Hcl Hks) as (cn & restn & Hcn & Hnext).
    assert (j <= length w)%nat as Hjw.
    { unfold w. rewrite !length_app. lia. }
    apply matchAt_detect_inv in Hm as (cl' & Hwf' & _ & Hw & _); [| done].
    apply drop_middle in Hw; [| done].
    assert (drop j w = drop j h0 ++ clauseText cn ++ restn) as Hdrop.
    { unfold w. rewrite drop_app_le by lia. by rewrite Hnext. }
    rewrite Hdrop in Hw.
    apply (clause_not_early (drop j h0) cn restn cl' (drop (m_end m) w));
      try done.
    + intros Hnil. apply (f_equal length) in Hnil.
      rewrite length_drop in Hnil. simpl in Hnil. lia.
    + intros Hd%subseteq_drop. done.
    + unfold endsPlain. by rewrite last_drop_lt by lia.
  - destruct ks as [|[c g] ks]; [simpl in Hj; lia |].
    cbn [forallb] in Hks. apply andb_true_iff in Hks as [Hseg Hks].
    unfold wfSegment in Hseg. apply andb_true_iff in Hseg as [Hc Hg].
    cbn [fst snd] in Hc, Hg.
    destruct (segments_no_inner_dot_tail ks (c, g) Hdots) as [Hin Hdots'].
    cbn [fst] in Hin.
    destruct (match_in_kept cl rest ks h0 c g j m Hcl Hc Hin Hg Hks Hdots')
      as (c' & tail & Hc' & Htail).
    + cbn [segmentsText] in Hj. rewrite !length_app in Hj. lia.
    + unfold w in Hm. cbn [segmentsText] in Hm.
      by rewrite <- !app_assoc in Hm.
    + exists c', tail. split.
      * destruct Hc' as [-> | Hc'];
          [apply list_elem_of_here | by apply list_elem_of_further].
      * rewrite <- Htail. unfold w. cbn [segmentsText].
        by rewrite <- !app_assoc.
Qed.

(** The first match of the pattern of the clause [cl], in a text where
    only kept clauses of other relations come before it, is [cl]. *)
Lemma clause_first_match cl rest h0 ks :
  wfClause cl = true -> plainGap h0 = true ->
  forallb wfSegment ks = true ->
  (forall s, s ∈ ks -> DOT ∉ c_inner (fst s)) ->
  (forall s, s ∈ ks -> ci_eq (c_rel cl) (c_rel (fst s)) = false) ->
  let x := h0 ++ segmentsText ks in
  exists m,
    exec (clauseRe (c_rel cl) (c_field cl)) (x ++ clauseText cl ++ rest) 0
    = Some m
    /\ m_index m = length x
    /\ m_end m = (length x + length (clauseText cl))%nat.
Proof.
  intros Hcl Hh Hks Hdots Hci x.
  destruct (plainGap_inv _ Hh) as [Hhd Hhe].
  pose proof Hcl as Hcl'.
  apply wfClause_inv in Hcl' as (Hrel & _ & _ & Hfield & _).
  set (w := x ++ clauseText cl ++ rest).
  assert (length x <= length w)%nat as Hlen
    by (unfold w; rewrite length_app; lia).
  assert (drop (length x) w = clauseText cl ++ rest) as Hdrop
    by (unfold w; by rewrite drop_app_length).
  destruct (clauseRe_intro (c_rel cl) (c_field cl) cl
              (stateAt w (length x)) rest Hcl (ci_eq_refl _) (ci_eq_refl _))
    as (s1 & Hs1).
  { apply word_before_ends. by apply segments_endsPlain. }
  { done. }
  pose proof (matchAt_complete _ _ _ _ _ Hs1) as Hsome.
  destruct (exec_complete (clauseRe (c_rel cl) (c_field cl)) w 0 (length x)
              (conj (Nat.le_0_l _) Hlen) Hsome) as [m Hm].
  exists m. split; [done |].
  pose proof Hm as Hm1. apply exec_inv in Hm1 as (Hidx & Hat & Hleft).
  assert (m_index m <= length x)%nat as Hle.
  { destruct (decide (m_index m <= length x)%nat); [done |].
    rewrite Hleft in Hsome; [by destruct Hsome | lia]. }
  assert (m_index m = length x) as Hix.
  { destruct (decide (m_index m = length x)) as [| Hne]; [done | exfalso].
    destruct (clause_match_detected _ _ _ _ _ Hrel Hfield (proj2 Hidx) Hat)
      as [md Hmd].
    unfold w, x in Hmd. rewrite <- app_assoc in Hmd.
    apply match_in_prefix in Hmd as (c' & tail & Hc' & Htail); try done;
      [| unfold x in Hle, Hne; rewrite length_app in Hle, Hne; lia].
    apply matchAt_inv in Hat as (s2 & Hs2 & _).
    apply clauseRe_inv in Hs2
      as (cl2 & Hwf2 & Hci2 & _ & _ & [(Hrest & _) _]); [| done..].
    cbn [ms_rest] in Hrest.
    unfold w, x in Hrest. rewrite <- app_assoc in Hrest.
    rewrite Htail in Hrest.
    apply list_elem_of_fmap in Hc' as (s & -> & Hs).
    assert (wfClause (fst s) = true) as Hwfs.
    { rewrite forallb_forall in Hks.
      apply list_elem_of_In, Hks in Hs. unfold wfSegment in Hs.
      by apply andb_true_iff in Hs as [Hs _]. }
    apply clause_unique in Hrest as [Heq _]; [| done..].
    rewrite <- Heq in Hci2. rewrite (Hci s Hs) in Hci2. done. }
  split; [done |].
  apply clause_match_inv in Hm as (cl2 & Hwf2 & _ & _ & Hw & Hend & _);
    [| done..].
  apply drop_middle in Hw; [| lia].
  rewrite Hix, Hdrop in Hw.
  apply clause_unique in Hw as [<- _]; [| done..].
  by rewrite Hend, Hix.
Qed.

Lemma endsPlain_app (a b : str) :
  endsPlain a = true -> endsPlain b = true -> endsPlain (a ++ b) = true.
Proof.
  unfold endsPlain. rewrite last_app. by destruct (last b).
Qed.

Lemma plainGap_app (a b : str) :
  plainGap a = true -> plainGap b = true -> plainGap (a ++ b) = true.
Proof.
  intros [Ha1 Ha2]%plainGap_inv [Hb1 Hb2]%plainGap_inv.
  unfold plainGap. apply andb_true_iff. split.
  - apply not_char_forallb. rewrite not_elem_of_app. done.
  - by apply endsPlain_app.
Qed.

(** A plain text after a run of kept clauses joins the last gap. *)
Lemma append_plain ks : forall h0 q,
  plainGap h0 = true -> forallb wfSegment ks = true -> plainGap q = true ->
  exists h0' ks',
    plainGap h0' = true /\ forallb wfSegment ks' = true
    /\ List.map fst ks' = List.map fst ks
    /\ h0' ++ segmentsText ks' = (h0 ++ segmentsText ks) ++ q.
Proof.
  induction ks as [|[c g] ks _] using rev_ind; intros h0 q Hh Hks Hq.
  - exists (h0 ++ q), []. split; [by apply plainGap_app |].
    split; [done |]. split; [done |]. simpl. by rewrite !app_nil_r.
  - rewrite forallb_app in Hks. apply andb_true_iff in Hks as [Hks Hlast].
    cbn [forallb] in Hlast. rewrite andb_true_r in Hlast.
    unfold wfSegment in Hlast. apply andb_true_iff in Hlast as [Hc Hg].
    cbn [fst snd] in Hc, Hg.
    exists h0, (ks ++ [(c, g ++ q)]). split; [done |]. split; [| split].
    + rewrite forallb_app. apply andb_true_iff. split; [done |].
      cbn [forallb]. rewrite andb_true_r. unfold wfSegment.
      apply andb_true_iff. split; [done |]. by apply plainGap_app.
    + by rewrite !map_app.
    + rewrite !segmentsText_app. simpl. rewrite !app_nil_r.
      by rewrite <- !app_assoc.
Qed.

Lemma taken_cons_skipped relsForOs seg segs :
  skipped relsForOs (fst seg) = true ->
  taken relsForOs (seg :: segs) = taken relsForOs segs.
Proof. intros H. unfold taken. simpl. by rewrite H. Qed.

Lemma taken_cons_taken relsForOs seg segs :
  skipped relsForOs (fst seg) = false ->
  taken relsForOs (seg :: segs) = seg :: taken relsForOs segs.
Proof. intros H. unfold taken. simpl. by rewrite H. Qed.

Section Mixed.

Variable JSON_parse : str -> option JsVal.

Lemma body_skipped env a relsForOs apiBase st cl :
  skipped relsForOs cl = true ->
  loopBody JSON_parse env a relsForOs apiBase st (predOfClause cl) = st.
Proof.
  unfold skipped. intros Hs.
  destruct (configured relsForOs (c_rel cl)) as [rc|] eqn:Hc.
  - by apply (body_unusable JSON_parse env a relsForOs apiBase st
                (predOfClause cl) rc).
  - by apply body_unconfigured.
Qed.

Lemma body_trace_resolved env a relsForOs apiBase st p rc outKeys n :
  configured relsForOs (p_rel p) = Some rc -> unusable rc = false ->
  resolve JSON_parse a apiBase (ls_calls st) rc p = Ok (outKeys, n) ->
  length (ls_trace (loopBody JSON_parse env a relsForOs apiBase st p))
  = S (length (ls_trace st)).
Proof.
  intros Hc Hu Hr.
  destruct (resolve_ok_issued JSON_parse a apiBase rc p st _ Hr)
    as (headers & Hissue).
  destruct (decide (usedKeys (maxKeysOf env rc) outKeys = [])) as [Hk | Hk].
  - rewrite (body_no_keys JSON_parse _ _ _ _ _ _ _ _ _ Hc Hu Hr Hk).
    cbn [ls_trace]. rewrite Hissue. cbn [snd]. rewrite length_app. simpl. lia.
  - rewrite (body_keys JSON_parse _ _ _ _ _ _ _ _ _ Hc Hu Hr Hk).
    cbn [ls_trace]. rewrite Hissue. cbn [snd]. rewrite length_app. simpl. lia.
Qed.

Lemma loop_mixed env a relsForOs apiBase rcOf keysOf : forall segs h0 ks st,
  forallb wfSegment segs = true -> plainGap h0 = true ->
  forallb wfSegment ks = true ->
  (forall c, c ∈ List.map fst ks ->
     (DOT ∉ c_inner c)
     /\ forall s', s' ∈ taken relsForOs segs ->
          ci_eq (c_rel (fst s')) (c_rel c) = false) ->
  keptApart relsForOs segs ->
  allResolve JSON_parse env a relsForOs apiBase rcOf keysOf
    (taken relsForOs segs) ->
  ls_where st = (h0 ++ segmentsText ks) ++ segmentsText segs ->
  let st' :=
    fold_left (loopBody JSON_parse env a relsForOs apiBase)
      (List.map (fun seg => predOfClause (fst seg)) segs) st in
  ls_where st'
  = (h0 ++ segmentsText ks)
      ++ mixedText (skipped relsForOs)
           (fun cl =>
              replacementFor env (rcOf (predOfClause cl))
                (keysOf (predOfClause cl))) segs
  /\ errors (ls_plan st') = errors (ls_plan st)
  /\ (taken relsForOs segs <> [] -> mode (ls_plan st') = ModePrefetch)
  /\ (taken relsForOs segs = [] -> mode (ls_plan st') = mode (ls_plan st))
  /\ length (ls_trace st')
     = (length (ls_trace st) + length (taken relsForOs segs))%nat.
Proof.
  induction segs as [|[cl g] segs IH];
    intros h0 ks st Hwf Hh Hks Hkept Hapart Hall Hw.
  { simpl. rewrite Hw. simpl. repeat split; try done; lia. }
  cbn [forallb] in Hwf. apply andb_true_iff in Hwf as [Hseg Hwf].
  unfold wfSegment in Hseg. apply andb_true_iff in Hseg as [Hcl Hg].
  cbn [fst snd] in Hcl, Hg.
  cbn [List.map fold_left fst mixedText].
  destruct (skipped relsForOs cl) eqn:Hsk.
  - (* the clause is passed over *)
    rewrite body_skipped by done.
    rewrite taken_cons_skipped in Hkept, Hall |- * by done.
    destruct (Hapart (cl, g)) as [Hind Hci];
      [apply list_elem_of_here | done |].
    cbn [fst] in Hind, Hci. rewrite taken_cons_skipped in Hci by done.
    destruct (IH h0 (ks ++ [(cl, g)]) st)
      as (Hw' & Herr & Hmode & Hmode' & Htr); try done.
    + rewrite forallb_app. apply andb_true_iff. split; [done |].
      cbn [forallb]. rewrite andb_true_r. unfold wfSegment.
      by apply andb_true_iff.
    + intros c Hcin. rewrite map_app in Hcin.
      apply elem_of_app in Hcin as [Hcin | Hcin]; [by apply Hkept |].
      apply list_elem_of_singleton in Hcin as ->. done.
    + intros s Hs Hss. destruct (Hapart s) as [H1 H2];
        [by apply list_elem_of_further | done |].
      split; [done |]. intros s' Hs'. apply H2.
      by rewrite taken_cons_skipped.
    + rewrite Hw, segmentsText_app. simpl. rewrite app_nil_r.
      by rewrite <- !app_assoc.
    + split; [| done]. rewrite Hw', segmentsText_app. simpl.
      rewrite app_nil_r. by rewrite <- !app_assoc.
  - (* the clause resolves *)
    rewrite taken_cons_taken in Hkept, Hall |- * by done.
    destruct (plainGap_inv _ Hg) as [Hgd Hge].
    destruct (Hall (cl, g)) as (Hc & Hu & Hr & Hfd & Hf & Hk);
      [apply list_elem_of_here |].
    cbn [fst] in Hc, Hu, Hr, Hfd, Hf, Hk.
    set (p := predOfClause cl) in *.
    destruct (Hr (ls_calls st)) as [cnt Hres].
    destruct (body_resolved JSON_parse env a relsForOs apiBase st p (rcOf p)
                (keysOf p) cnt Hc Hu Hres) as (Hwhere & Hmode1 & Herr1 & _).
    set (st1 := loopBody JSON_parse env a relsForOs apiBase st p) in *.
    set (repl := replacementFor env (rcOf p) (keysOf p)) in *.
    destruct (clause_first_match cl (g ++ segmentsText segs) h0 ks)
      as (m & Hm & Hmi & Hme); try done.
    { intros s Hs. apply Hkept. apply list_elem_of_fmap. by exists s. }
    { intros s Hs.
      assert (fst s ∈ List.map fst ks) as Hin
        by (apply list_elem_of_fmap; by exists s).
      destruct (Hkept _ Hin) as [_ H2].
      apply (H2 (cl, g)). apply list_elem_of_here. }
    assert (plainGap (repl ++ g) = true) as Hq.
    { unfold plainGap. apply andb_true_iff. split.
      - apply not_char_forallb. rewrite not_elem_of_app. split; [| done].
        destruct DOT_plain as [H1 H2].
        apply replacementFor_free; try done. intros k Hin. by apply Hk.
      - pose proof (endsPlain_after_replacement [] env (rcOf p) (keysOf p) g
                      Hge) as He. by cbn [app] in He. }
    destruct (append_plain ks h0 (repl ++ g) Hh Hks Hq)
      as (h0' & ks' & Hh' & Hks' & Hmap & Htext).
    assert (ls_where st1 = (h0' ++ segmentsText ks') ++ segmentsText segs)
      as Hw1.
    { rewrite Hwhere. unfold p at 1 2. cbn [predOfClause p_rel p_field].
      rewrite Hw. cbn [segmentsText].
      rewrite (replace_plain _ _ _ _ m Hm).
      - rewrite Hmi, Hme, take_app_length.
        assert (drop (length (h0 ++ segmentsText ks)
                      + length (clauseText cl))
                  ((h0 ++ segmentsText ks)
                     ++ clauseText cl ++ g ++ segmentsText segs)
                = g ++ segmentsText segs) as ->.
        { rewrite (app_assoc (h0 ++ segmentsText ks)).
          apply drop_app_length'. rewrite !length_app. lia. }
        rewrite Htext. by rewrite <- !app_assoc.
      - apply replacementFor_plain; [done |].
        intros k Hin. by apply Hk. }
    assert (length (ls_trace st1) = S (length (ls_trace st))) as Htr1
      by (by eapply body_trace_resolved).
    destruct (IH h0' ks' st1) as (Hw' & Herr & _ & Hmode' & Htr); try done.
    + rewrite Hmap. intros c Hcin. destruct (Hkept c Hcin) as [H1 H2].
      split; [done |]. intros s' Hs'. apply H2.
      by apply list_elem_of_further.
    + intros s Hs Hss. destruct (Hapart s) as [H1 H2];
        [by apply list_elem_of_further | done |].
      split; [done |]. intros s' Hs'. apply H2.
      rewrite taken_cons_taken by done. by apply list_elem_of_further.
    + intros s Hs. apply Hall. by apply list_elem_of_further.
    + split; [| split; [| split; [| split]]].
      * rewrite Hw', Htext. fold p. fold repl. by rewrite <- !app_assoc.
      * by rewrite Herr, Herr1.
      * intros _.
        destruct (decide (taken relsForOs segs = [])) as [He | Hne].
        -- by rewrite Hmode'.
        -- destruct (IH h0' ks' st1) as (_ & _ & Hmode & _ & _); try done.
           ++ rewrite Hmap. intros c Hcin. destruct (Hkept c Hcin) as [H1 H2].
              split; [done |]. intros s' Hs'. apply H2.
              by apply list_elem_of_further.
           ++ intros s Hs Hss. destruct (Hapart s) as [H1 H2];
                [by apply list_elem_of_further | done |].
              split; [done |]. intros s' Hs'. apply H2.
              rewrite taken_cons_taken by done.
              by apply list_elem_of_further.
           ++ intros s Hs. apply Hall. by apply list_elem_of_further.
           ++ by apply Hmode.
      * done.
      * rewrite Htr, Htr1. simpl. lia.
Qed.

End Mixed.

Section MixedCalls.

Variable JSON_parse : str -> option JsVal.

Lemma mixedText_nonempty keep env rcOf keysOf segs :
  segs <> [] ->
  mixedText keep
    (fun cl =>
       replacementFor env (rcOf (predOfClause cl)) (keysOf (predOfClause cl)))
    segs <> [].
Proof.
  destruct segs as [|[cl g] segs]; [done |]. intros _. simpl.
  intros Hnil. apply app_eq_nil in Hnil as [Hnil _].
  destruct (keep cl).
  - pose proof (clauseText_length cl) as Hlen. rewrite Hnil in Hlen.
    simpl in Hlen. lia.
  - destruct (replacementFor_ends env (rcOf (predOfClause cl))
                (keysOf (predOfClause cl))) as (c & Hc & _).
    by rewrite Hnil in Hc.
Qed.

(** The result of a call whose loop ran and left a filter that is not
    empty. *)
Lemma call_of_loop env a apiBase :
  detectRelationshipPredicates (whereOf (params a)) <> [] ->
  maximoApiBase a = Ok apiBase ->
  let st := runLoop JSON_parse env a apiBase in
  ls_where st <> [] ->
  exists res,
    applyRelationshipPrefetch JSON_parse env a = Ok res
    /\ r_plan res = ls_plan st
    /\ whereOf (r_params res) = ls_where st
    /\ (forall k, k <> WHERE -> r_params res !! k = params a !! k)
    /\ countFetch (r_trace res) = length (ls_trace st).
Proof.
  intros Hdet Hbase st Hne.
  destruct (runLoop_frame JSON_parse env a apiBase) as (Hpar & _).
  destruct (runLoop_balanced JSON_parse env a apiBase)
    as (_ & _ & _ & _ & Hcount).
  fold st in Hpar, Hcount.
  destruct (call_paths JSON_parse env a)
    as [[H _] | [(_ & e & H & _) | (_ & apiBase' & Hb & Hloop)]].
  - done.
  - by rewrite H in Hbase.
  - rewrite Hbase in Hb. injection Hb as <-. cbv zeta in Hloop. fold st in Hloop.
    destruct Hloop as [[Heq Hres] | [Hneq Hres]].
    + eexists. split; [exact Hres |]. cbn [r_plan r_params r_trace].
      rewrite Hpar. repeat split; try done.
    + eexists. split; [exact Hres |]. cbn [r_plan r_params r_trace].
      rewrite Hpar. repeat split; try done.
      * by rewrite whereOf_insert.
      * intros k Hk. by apply lookup_insert_ne.
      * by rewrite countFetch_write.
Qed.

(** The state the loop leaves on a filter of clauses some of which it
    passes over. *)
Lemma runLoop_mixed env a apiBase rcOf keysOf g0 segs :
  whereOf (params a) = g0 ++ segmentsText segs ->
  plainGap g0 = true -> forallb wfSegment segs = true ->
  keptApart (relsFor env a) segs ->
  allResolve JSON_parse env a (relsFor env a) apiBase rcOf keysOf
    (taken (relsFor env a) segs) ->
  let st := runLoop JSON_parse env a apiBase in
  detectRelationshipPredicates (whereOf (params a))
  = List.map (fun seg => predOfClause (fst seg)) segs
  /\ detected (ls_plan st)
     = List.map (fun seg => predOfClause (fst seg)) segs
  /\ ls_where st
     = g0 ++ mixedText (skipped (relsFor env a))
               (fun cl =>
                  replacementFor env (rcOf (predOfClause cl))
                    (keysOf (predOfClause cl))) segs
  /\ errors (ls_plan st) = []
  /\ (taken (relsFor env a) segs <> [] -> mode (ls_plan st) = ModePrefetch)
  /\ length (ls_trace st) = length (taken (relsFor env a) segs).
Proof.
  intros Hw Hg Hwf Hapart Hall st.
  pose proof (plain_filter_detected g0 segs Hg Hwf) as Hdet.
  rewrite <- Hw in Hdet.
  set (preds := List.map (fun seg => predOfClause (fst seg)) segs) in *.
  set (st0 := mkLoopState (set_detected emptyPlan preds)
                (whereOf (params a)) (params a) 0 []).
  assert (st
          = fold_left (loopBody JSON_parse env a (relsFor env a) apiBase)
              preds st0) as Hrun.
  { unfold st, runLoop. by rewrite Hdet. }
  destruct (loop_mixed JSON_parse env a (relsFor env a) apiBase rcOf keysOf
              segs g0 [] st0 Hwf Hg eq_refl)
    as (Hwhere & Herr & Hmode & _ & Htrace); try done.
  { intros c Hc. by apply elem_of_nil in Hc. }
  { unfold st0. cbn [ls_where segmentsText]. by rewrite app_nil_r. }
  fold preds in Hwhere, Herr, Hmode, Htrace.
  rewrite <- Hrun in Hwhere, Herr, Hmode, Htrace.
  cbn [segmentsText] in Hwhere. rewrite app_nil_r in Hwhere.
  pose proof (loop_detected JSON_parse env a (relsFor env a) apiBase preds
                st0) as Hdt.
  rewrite <- Hrun in Hdt.
  repeat split; try done.
Qed.

(** In a filter of clauses and plain gaps where the clauses without a
    usable entry hold no dot in their literal and share no relation name,
    up to case, with the others, and every other clause resolves, the call
    leaves the former where they are, puts its replacement in the place of
    each of the latter, and sends one request for each of the latter. *)
Theorem skipped_clauses_stay_in_place
    env a apiBase rcOf keysOf g0 segs :
  whereOf (params a) = g0 ++ segmentsText segs ->
  plainGap g0 = true -> forallb wfSegment segs = true -> segs <> [] ->
  maximoApiBase a = Ok apiBase ->
  keptApart (relsFor env a) segs ->
  allResolve JSON_parse env a (relsFor env a) apiBase rcOf keysOf
    (taken (relsFor env a) segs) ->
  exists res,
    applyRelationshipPrefetch JSON_parse env a = Ok res
    /\ detected (r_plan res)
       = List.map (fun seg => predOfClause (fst seg)) segs
    /\ whereOf (r_params res)
       = g0 ++ mixedText (skipped (relsFor env a))
                 (fun cl =>
                    replacementFor env (rcOf (predOfClause cl))
                      (keysOf (predOfClause cl))) segs
    /\ (forall k, k <> WHERE -> r_params res !! k = params a !! k)
    /\ errors (r_plan res) = []
    /\ (taken (relsFor env a) segs <> [] ->
        mode (r_plan res) = ModePrefetch)
    /\ countFetch (r_trace res) = length (taken (relsFor env a) segs).
Proof.
  intros Hw Hg Hwf Hne Hbase Hapart Hall.
  destruct (runLoop_mixed env a apiBase rcOf keysOf g0 segs Hw Hg Hwf Hapart
              Hall) as (Hdet & Hdt & Hwhere & Herr & Hmode & Htrace).
  destruct (call_of_loop env a apiBase)
    as (res & Hres & Hplan & Hpar & Hframe & Hcount); try done.
  { rewrite Hdet. by destruct segs. }
  { rewrite Hwhere. intros Hnil. apply app_eq_nil in Hnil as [_ Hnil].
    by apply mixedText_nonempty in Hnil. }
  exists res. rewrite Hplan, Hpar, Hcount. done.
Qed.

Lemma replacement_plainGap env rc outKeys :
  (DOT ∉ rootJoinFieldOf rc) -> (forall k, k ∈ outKeys -> DOT ∉ k) ->
  plainGap (replacementFor env rc outKeys) = true.
Proof.
  intros Hf Hk. unfold plainGap. apply andb_true_iff. split.
  - apply not_char_forallb. destruct DOT_plain as [H1 H2].
    by apply replacementFor_free.
  - unfold endsPlain.
    destruct (replacementFor_ends env rc outKeys) as (c & -> & Hc).
    unfold not_word. by rewrite Hc.
Qed.

(** A filter in which some clauses gave way to plain texts is again a
    filter of clauses and plain gaps: of the clauses that were kept. *)
Lemma mixedText_segments keep repl : forall segs h0 ks,
  forallb wfSegment segs = true -> plainGap h0 = true ->
  forallb wfSegment ks = true ->
  (forall s, s ∈ segs -> keep (fst s) = false ->
     plainGap (repl (fst s)) = true) ->
  exists h0' ks',
    plainGap h0' = true /\ forallb wfSegment ks' = true
    /\ List.map fst ks'
       = List.map fst ks ++ List.filter keep (List.map fst segs)
    /\ (h0 ++ segmentsText ks) ++ mixedText keep repl segs
       = h0' ++ segmentsText ks'.
Proof.
  induction segs as [|[cl g] segs IH]; intros h0 ks Hwf Hh Hks Hrepl.
  { exists h0, ks. simpl. by rewrite !app_nil_r. }
  cbn [forallb] in Hwf. apply andb_true_iff in Hwf as [Hseg Hwf].
  unfold wfSegment in Hseg. apply andb_true_iff in Hseg as [Hcl Hg].
  cbn [fst snd] in Hcl, Hg.
  cbn [mixedText List.map List.filter fst].
  destruct (keep cl) eqn:Hkeep.
  - destruct (IH h0 (ks ++ [(cl, g)])) as (h0' & ks' & H1 & H2 & H3 & H4);
      try done.
    + rewrite forallb_app. apply andb_true_iff. split; [done |].
      cbn [forallb]. rewrite andb_true_r. unfold wfSegment.
      by apply andb_true_iff.
    + intros s Hs. apply Hrepl. by apply list_elem_of_further.
    + exists h0', ks'. split; [done |]. split; [done |]. split.
      * rewrite H3, map_app. simpl. by rewrite <- app_assoc.
      * rewrite <- H4, segmentsText_app. simpl. rewrite app_nil_r.
        by rewrite <- !app_assoc.
  - assert (plainGap (repl cl ++ g) = true) as Hq.
    { apply plainGap_app; [| done].
      apply (Hrepl (cl, g)); [apply list_elem_of_here | done]. }
    destruct (append_plain ks h0 (repl cl ++ g) Hh Hks Hq)
      as (h1 & ks1 & Hh1 & Hks1 & Hmap & Htext).
    destruct (IH h1 ks1) as (h0' & ks' & H1 & H2 & H3 & H4); try done.
    + intros s Hs. apply Hrepl. by apply list_elem_of_further.
    + exists h0', ks'. split; [done |]. split; [done |]. split.
      * by rewrite H3, Hmap.
      * rewrite <- H4, Htext. by rewrite <- !app_assoc.
Qed.

(** In a filter of clauses and plain gaps where the clauses without a
    usable entry hold no dot in their literal and share no relation name,
    up to case, with the others, and every other clause resolves, the
    detector finds in the rewritten filter the clauses the call passed
    over, in their order, and nothing else; when no clause was passed
    over, a call on the rewritten filter changes nothing and sends
    nothing. *)
Theorem rewritten_filter_holds_skipped_only
    env a apiBase rcOf keysOf g0 segs :
  whereOf (params a) = g0 ++ segmentsText segs ->
  plainGap g0 = true -> forallb wfSegment segs = true -> segs <> [] ->
  maximoApiBase a = Ok apiBase ->
  keptApart (relsFor env a) segs ->
  allResolve JSON_parse env a (relsFor env a) apiBase rcOf keysOf
    (taken (relsFor env a) segs) ->
  exists res,
    applyRelationshipPrefetch JSON_parse env a = Ok res
    /\ detectRelationshipPredicates (whereOf (r_params res))
       = List.map predOfClause
           (List.filter (skipped (relsFor env a)) (List.map fst segs))
    /\ ((forall s, s ∈ segs -> skipped (relsFor env a) (fst s) = false) ->
        forall env' a',
          whereOf (params a') = whereOf (r_params res) ->
          applyRelationshipPrefetch JSON_parse env' a'
          = Ok (mkResult emptyPlan (params a') [])).
Proof.
  intros Hw Hg Hwf Hne Hbase Hapart Hall.
  destruct (runLoop_mixed env a apiBase rcOf keysOf g0 segs Hw Hg Hwf Hapart
              Hall) as (Hdet & _ & Hwhere & _).
  destruct (call_of_loop env a apiBase)
    as (res & Hres & _ & Hpar & _); try done.
  { rewrite Hdet. by destruct segs. }
  { rewrite Hwhere. intros Hnil. apply app_eq_nil in Hnil as [_ Hnil].
    by apply mixedText_nonempty in Hnil. }
  exists res. split; [done |].
  destruct (mixedText_segments (skipped (relsFor env a))
              (fun cl =>
                 replacementFor env (rcOf (predOfClause cl))
                   (keysOf (predOfClause cl))) segs g0 [] Hwf Hg eq_refl)
    as (h0' & ks' & Hh' & Hks' & Hmap & Htext).
  { intros s Hs Hsk.
    destruct (Hall s) as (_ & _ & _ & Hfd & _ & Hk).
    - unfold taken. apply list_elem_of_In, filter_In. split.
      + by apply list_elem_of_In.
      + by rewrite Hsk.
    - apply replacement_plainGap; [done |]. intros k Hin. by apply Hk. }
  cbn [segmentsText List.map app] in Htext, Hmap.
  rewrite app_nil_r in Htext.
  assert (detectRelationshipPredicates (whereOf (r_params res))
          = List.map predOfClause
              (List.filter (skipped (relsFor env a)) (List.map fst segs)))
    as Hnew.
  { rewrite Hpar, Hwhere, Htext.
    rewrite (plain_filter_detected h0' ks' Hh' Hks').
    by rewrite <- Hmap, List.map_map. }
  split; [done |].
  intros Hnone env' a' Hsame.
  assert (List.filter (skipped (relsFor env a)) (List.map fst segs) = [])
    as Hempty.
  { clear -Hnone. induction segs as [|s segs IH]; [done |].
    simpl. rewrite (Hnone s) by apply list_elem_of_here.
    apply IH. intros s' Hs'. apply Hnone. by apply list_elem_of_further. }
  rewrite Hempty in Hnew. simpl in Hnew. rewrite <- Hsame in Hnew.
  destruct (call_paths JSON_parse env' a')
    as [[_ H] | [(Hp & _) | (Hp & _)]]; done.
Qed.

End MixedCalls.

(** ** The requests of a call *)

Lemma selectOf_nonempty rc :
  unusable rc = false -> isEmpty (selectOf rc) = false.
Proof.
  unfold unusable, selectOf. rewrite !orb_false_iff. intros [[_ _] Hk].
  by destruct (isEmpty (trim (cfg_select rc))) eqn:Hs.
Qed.

Lemma announced_request env a apiBase rc p headers :
  unusable rc = false ->
  announcedBy (requestFor a apiBase rc p headers) (announce env a rc p)
  = true.
Proof.
  intros Hu. unfold announcedBy, announce, requestFor, requestOf.
  cbn [rq_relatedOs rq_where rq_select].
  rewrite (selectOf_nonempty rc Hu).
  unfold str_eqb. by rewrite !bool_decide_eq_true_2.
Qed.

Section Sent.

Variable JSON_parse : str -> option JsVal.

Lemma body_sent env a relsForOs apiBase st p :
  let st' := loopBody JSON_parse env a relsForOs apiBase st p in
  st' = st
  \/ exists rc more,
       unusable rc = false
       /\ ls_trace st' = snd (issue a apiBase rc p st)
       /\ steps (ls_plan st')
          = steps (ls_plan st) ++ announce env a rc p :: more.
Proof.
  cbv zeta.
  destruct (configured relsForOs (p_rel p)) as [rc|] eqn:Hc;
    [| left; by apply body_unconfigured].
  destruct (unusable rc) eqn:Hu; [left; by eapply body_unusable |].
  right. exists rc.
  destruct (resolve JSON_parse a apiBase (ls_calls st) rc p)
    as [[outKeys n]|e] eqn:Hr.
  - destruct (decide (usedKeys (maxKeysOf env rc) outKeys = [])) as [Hk | Hk].
    + rewrite (body_no_keys JSON_parse _ _ _ _ _ _ _ _ _ Hc Hu Hr Hk).
      eexists. split; [done |]. split; [done |].
      unfold planResolved. cbn [ls_plan].
      destruct (_ <? _)%nat; simpl; by rewrite <- !app_assoc.
    + rewrite (body_keys JSON_parse _ _ _ _ _ _ _ _ _ Hc Hu Hr Hk).
      eexists. split; [done |]. split; [done |].
      unfold planResolved. cbn [ls_plan].
      destruct (_ <? _)%nat; simpl; by rewrite <- !app_assoc.
  - rewrite (body_throw JSON_parse _ _ _ _ _ _ _ _ Hc Hu Hr).
    exists []. split; [done |]. split; [done |]. done.
Qed.

Lemma existsb_app_l {A} (f : A -> bool) (x y : list A) :
  existsb f x = true -> existsb f (x ++ y) = true.
Proof. intros H. rewrite existsb_app, H. done. Qed.

Lemma body_sentAsPlanned env a relsForOs apiBase st p :
  sentAsPlanned a apiBase (ls_plan st) (ls_trace st) ->
  let st' := loopBody JSON_parse env a relsForOs apiBase st p in
  sentAsPlanned a apiBase (ls_plan st') (ls_trace st').
Proof.
  intros Hinv. cbv zeta.
  destruct (body_sent env a relsForOs apiBase st p)
    as [-> | (rc & more & Hu & Htrace & Hsteps)]; [done |].
  intros req bag Hin. rewrite Htrace in Hin. rewrite Hsteps.
  assert (EvFetch req bag ∈ ls_trace st ->
          rq_method req = u "GET" /\ rq_lean req = u "1"
          /\ rq_apiBase req = apiBase /\ rq_relatedId req = rxId a
          /\ authHeaders a = Ok (rq_headers req)
          /\ wellFormed (rq_relatedOs req) = true
          /\ isEmpty (rq_relatedOs req) = false
          /\ isEmpty (rq_select req) = false
          /\ existsb (announcedBy req)
               (steps (ls_plan st) ++ announce env a rc p :: more) = true)
    as Hold.
  { intros Hold. destruct (Hinv req bag Hold)
      as (H1 & H2 & H3 & H4 & H5 & H6 & H7 & H8 & H9).
    repeat split; try done. by apply existsb_app_l. }
  unfold issue in Hin.
  destruct (wellFormed (relatedOsOf rc)) eqn:Hwf; cbn [negb] in Hin;
    [| by apply Hold].
  destruct (authHeaders a) as [headers|e] eqn:Hauth; [| by apply Hold].
  cbn [snd] in Hin. apply elem_of_app in Hin as [Hin | Hin];
    [by apply Hold |].
  apply list_elem_of_singleton in Hin. injection Hin as -> ->.
  unfold requestFor at 1 2 3 4 5 6 7 8, requestOf.
  cbn [rq_method rq_lean rq_apiBase rq_relatedId rq_headers rq_relatedOs
       rq_select].
  rewrite (selectOf_nonempty rc Hu).
  repeat split; try done.
  - unfold unusable in Hu. rewrite !orb_false_iff in Hu. apply Hu.
  - by apply selectOf_nonempty.
  - rewrite existsb_app. apply orb_true_iff. right. cbn [existsb].
    by rewrite announced_request.
Qed.

Lemma loop_sentAsPlanned env a relsForOs apiBase preds : forall st,
  sentAsPlanned a apiBase (ls_plan st) (ls_trace st) ->
  let st' := fold_left (loopBody JSON_parse env a relsForOs apiBase) preds st in
  sentAsPlanned a apiBase (ls_plan st') (ls_trace st').
Proof.
  induction preds as [|p preds IH]; intros st Hinv; [done |].
  simpl. apply IH. by apply body_sentAsPlanned.
Qed.

(** Every request a call sends is a [GET] on the API base of the
    call with the headers of the header provider and the correlation id of
    the call, names a related resource that is well formed and not empty,
    selects at least one field, and is announced by a prefetch step of the
    returned plan with the same related resource, filter and selection. *)
Theorem requests_are_announced env a :
  exists res,
    applyRelationshipPrefetch JSON_parse env a = Ok res
    /\ forall req bag, EvFetch req bag ∈ r_trace res ->
         rq_method req = u "GET" /\ rq_lean req = u "1"
         /\ maximoApiBase a = Ok (rq_apiBase req)
         /\ rq_relatedId req = rxId a
         /\ authHeaders a = Ok (rq_headers req)
         /\ wellFormed (rq_relatedOs req) = true
         /\ isEmpty (rq_relatedOs req) = false
         /\ isEmpty (rq_select req) = false
         /\ existsb (announcedBy req) (steps (r_plan res)) = true.
Proof.
  destruct (call_paths JSON_parse env a)
    as [[_ H] | [(_ & e & _ & H) | (_ & apiBase & Hb & Hloop)]].
  - eexists. split; [exact H |]. intros req bag Hin.
    by apply elem_of_nil in Hin.
  - eexists. split; [exact H |]. intros req bag Hin.
    by apply elem_of_nil in Hin.
  - cbv zeta in Hloop.
    assert (sentAsPlanned a apiBase
              (ls_plan (runLoop JSON_parse env a apiBase))
              (ls_trace (runLoop JSON_parse env a apiBase))) as Hinv.
    { unfold runLoop. apply loop_sentAsPlanned.
      intros req bag Hin. by apply elem_of_nil in Hin. }
    destruct Hloop as [[_ Hres] | [_ Hres]].
    + eexists. split; [exact Hres |]. cbn [r_plan r_trace].
      intros req bag Hin.
      destruct (Hinv req bag Hin) as (H1 & H2 & H3 & H4 & H5 & H6 & H7
                                      & H8 & H9).
      rewrite H3. done.
    + eexists. split; [exact Hres |]. cbn [r_plan r_trace].
      intros req bag Hin. apply elem_of_app in Hin as [Hin | Hin];
        [| by apply list_elem_of_singleton in Hin].
      destruct (Hinv req bag Hin) as (H1 & H2 & H3 & H4 & H5 & H6 & H7
                                      & H8 & H9).
      rewrite H3. done.
Qed.

End Sent.

(** ** The round trip *)







Lemma quiet_no_dot (g : str) : (DOT ∉ g) -> quiet g = true.
Proof.
  induction g as [|c g IH]; [done |]. intros Hd. simpl.
  apply andb_true_iff. split.
  - apply orb_true_iff. left. apply negb_true_iff, N.eqb_neq.
    intros ->. apply Hd. apply list_elem_of_here.
  - apply IH. intros Hin. apply Hd. by apply list_elem_of_further.
Qed.

Lemma quiet_drop (g : str) : forall i, quiet g = true -> quiet (drop i g) = true.
Proof.
  induction g as [|c g IH]; intros [|i] Hq; try done.
  simpl in Hq. apply andb_true_iff in Hq as [_ Hq]. simpl. by apply IH.
Qed.


Lemma plainGap_quiet g : plainGap g = true -> quietGap g = true.
Proof.
  intros [Hd He]%plainGap_inv. unfold quietGap.
  by rewrite (quiet_no_dot g Hd), He.
Qed.

























Section QuietLoop.

Variable JSON_parse : str -> option JsVal.





End QuietLoop.

Section QuietCalls.

Variable JSON_parse : str -> option JsVal.



End QuietCalls.

(** ** The properties on concrete inputs *)

Lemma detected_predicate_shape_witness :
  sensorPred ∈ detectRelationshipPredicates sensorFilter
  /\ is_identifier (p_rel sensorPred) = true.
Proof.
  assert (sensorPred ∈ detectRelationshipPredicates sensorFilter) as H.
  { vm_compute. apply list_elem_of_here. }
  split; [exact H |].
  destruct (detected_predicate_shape sensorFilter sensorPred H)
    as (cl & pre & post & _ & _ & _ & Hr & _).
  exact Hr.
Defined.

Lemma segmented_filter_detected_witness :
  (plainGap [] = true /\ forallb wfSegment twoClauses = true)
  /\ detectRelationshipPredicates ([] ++ segmentsText twoClauses)
     = [sensorPred;
        mkPred (u "location") (u "type") (u "like") (u "YARD%")].
Proof.
  assert (plainGap [] = true) as H1 by compute_eq.
  assert (forallb wfSegment twoClauses = true) as H2 by compute_eq.
  split; [exact (conj H1 H2) |].
  rewrite (segmented_filter_detected [] twoClauses H1 H2). compute_eq.
Defined.

Lemma resolved_call_rewrites_every_clause_witness :
  let a :=
    callWith (segmentsText twoClauses)
      (answering (memberObjects "assetnum" [u "A100"; u "A101"])) in
  whereOf (params a)
  = u "asset.assettype=" ++ quoted "SENSOR"
      ++ u " and location.type LIKE 'YARD%'"
  /\ exists res,
       applyRelationshipPrefetch parseNothing noFiles a = Ok res
       /\ whereOf (r_params res)
          = u "(assetnum=" ++ quoted "A100" ++ u " or assetnum="
              ++ quoted "A101" ++ u ") and location="
              ++ quoted "__NO_MATCH__".
Proof.
  intros a.
  assert (whereOf (params a) = [] ++ segmentsText twoClauses) as H1
    by compute_eq.
  assert (plainGap [] = true) as H2 by compute_eq.
  assert (forallb wfSegment twoClauses = true) as H3 by compute_eq.
  assert (twoClauses <> []) as H4 by done.
  assert (maximoApiBase a = Ok API) as H5 by compute_eq.
  assert (allResolve parseNothing noFiles a (relsFor noFiles a) API
            sampleCfg sampleKeys twoClauses) as H6.
  { intros seg Hin.
    apply elem_of_cons in Hin as [-> | Hin];
      [| apply list_elem_of_singleton in Hin as ->].
    - split; [compute_eq |]. split; [compute_eq |].
      split; [intros n; exists 2%nat; compute_eq |].
      split; [decide_by_computation |]. split; [decide_by_computation |].
      intros k Hk. vm_compute in Hk.
      apply elem_of_cons in Hk as [-> | Hk];
        [split; decide_by_computation |].
      apply list_elem_of_singleton in Hk as ->.
      split; decide_by_computation.
    - split; [compute_eq |]. split; [compute_eq |].
      split; [intros n; exists 0%nat; compute_eq |].
      split; [decide_by_computation |]. split; [decide_by_computation |].
      intros k Hk. vm_compute in Hk. by apply elem_of_nil in Hk. }
  split; [compute_eq |].
  destruct (resolved_call_rewrites_every_clause parseNothing noFiles a API
              sampleCfg sampleKeys [] twoClauses H1 H2 H3 H4 H5 H6)
    as (res & Hres & _ & Hwhere & _).
  exists res. split; [exact Hres |].
  rewrite Hwhere. compute_eq.
Defined.

Lemma prefetched_keys_trimmed_witness :
  let a :=
    callWith sensorFilter
      (answering (memberObjects "assetnum" [u " A100 "; u "A101"])) in
  prefetchKeys parseNothing a 0 API (u "mxapiasset") (u "assettype = 1")
    (u "assetnum") 200 (u "assetnum")
  = Ok ([u "A100"; u "A101"], 2%nat)
  /\ Forall (fun k => trim k = k) [u "A100"; u "A101"].
Proof.
  intros a.
  assert (prefetchKeys parseNothing a 0 API (u "mxapiasset")
            (u "assettype = 1") (u "assetnum") 200 (u "assetnum")
          = Ok ([u "A100"; u "A101"], 2%nat)) as H by compute_eq.
  split; [exact H |].
  exact (proj1 (proj2 (prefetched_keys_trimmed parseNothing a 0%nat API
                         (u "mxapiasset") (u "assettype = 1") (u "assetnum")
                         200%Z (u "assetnum") [u "A100"; u "A101"] 2%nat H))).
Defined.

Lemma envelope_same_as_body_witness :
  let body := memberObjects "assetnum" [u "A100"] in
  let a := callWith sensorFilter (failing "unused") in
  prefetchKeys (parseAs body)
    (withTransport a (answering (envelope JHost (u "{...}")))) 0 API
    (u "mxapiasset") (u "assettype = 1") (u "assetnum") 200 (u "assetnum")
  = prefetchKeys (parseAs body) (withTransport a (answering body)) 0 API
      (u "mxapiasset") (u "assettype = 1") (u "assetnum") 200 (u "assetnum").
Proof.
  intros body a.
  apply (envelope_same_as_body (parseAs body) a 0%nat API (u "mxapiasset")
           (u "assettype = 1") (u "assetnum") 200%Z (u "assetnum")
           (answering (envelope JHost (u "{...}"))) (answering body)
           JHost (u "{...}") body);
    try reflexivity; intros; reflexivity.
Defined.

Lemma unparsable_body_gives_no_key_witness :
  let a :=
    callWith sensorFilter (answering (envelope JHost (u "<html>"))) in
  prefetchKeys parseNothing a 0 API (u "mxapiasset") (u "assettype = 1")
    (u "assetnum") 200 (u "assetnum")
  = Ok ([], 0%nat).
Proof.
  intros a.
  apply (unparsable_body_gives_no_key parseNothing a 0%nat API
           (u "mxapiasset") (u "assettype = 1") (u "assetnum") 200%Z
           (u "assetnum") [] JHost (u "<html>")); reflexivity.
Defined.

Lemma api_base_failure_reported_witness :
  detectRelationshipPredicates (whereOf (params withoutBase)) <> []
  /\ filterAfter (applyRelationshipPrefetch parseNothing noFiles withoutBase)
     = Some (JStr sensorFilter).
Proof.
  assert (detectRelationshipPredicates (whereOf (params withoutBase)) <> [])
    as H1 by (by vm_compute).
  assert (maximoApiBase withoutBase = Throw (u "no base address")) as H2
    by reflexivity.
  split; [exact H1 |].
  rewrite (api_base_failure_reported parseNothing noFiles withoutBase
             (u "no base address") H1 H2).
  compute_eq.
Defined.

Lemma failing_transport_changes_nothing_witness :
  let a := callWith sensorFilter (failing "boom") in
  exists res,
    applyRelationshipPrefetch parseNothing noFiles a = Ok res
    /\ r_params res = params a.
Proof.
  intros a.
  assert (forall (k : nat) (req : Request),
            exists e, maximoFetch a k req = Throw e) as H
    by (intros k req; exists (u "boom"); reflexivity).
  destruct (failing_transport_changes_nothing parseNothing noFiles a H)
    as (res & Hres & Hp & _).
  exists res. exact (conj Hres Hp).
Defined.

Lemma site_clause_not_scoped_twice_witness :
  let a := callWith sensorFilter (failing "unused") in
  (ci_eq (u "siteid") (p_field sitePred) = true
   /\ p_op sitePred <> u "like")
  /\ relatedWhereOf a (u "siteid") sitePred
     = u "SiteId != " ++ quoted "BEDFORD".
Proof.
  intros a.
  assert (ci_eq (u "siteid") (p_field sitePred) = true) as H1 by compute_eq.
  assert (p_op sitePred <> u "like") as H2 by (by vm_compute).
  split; [exact (conj H1 H2) |].
  rewrite (site_clause_not_scoped_twice a (u "siteid") sitePred H1 H2).
  compute_eq.
Defined.

Lemma nonpositive_limit_uses_no_key_witness :
  let a :=
    callWith sensorFilter
      (answering (memberObjects "assetnum" [u "A100"; u "A101"])) in
  let rels := Some ({[ u "asset" := noKeysCfg ]} : gmap str RelCfg) in
  (resolve parseNothing a API 0 noKeysCfg sensorPred
     = Ok ([u "A100"; u "A101"], 2%nat)
   /\ (maxKeysOf noFiles noKeysCfg <= 0)%Z)
  /\ truncated
       (ls_plan
          (loopBody parseNothing noFiles a rels API (sensorStart a)
             sensorPred))
     = true.
Proof.
  intros a rels.
  assert (configured rels (p_rel sensorPred) = Some noKeysCfg) as H1
    by compute_eq.
  assert (unusable noKeysCfg = false) as H2 by compute_eq.
  assert (resolve parseNothing a API (ls_calls (sensorStart a)) noKeysCfg
            sensorPred = Ok ([u "A100"; u "A101"], 2%nat)) as H3
    by compute_eq.
  assert (maxKeysOf noFiles noKeysCfg <= 0)%Z as H4 by (by vm_compute).
  split; [exact (conj H3 H4) |].
  rewrite (proj2 (proj2 (nonpositive_limit_uses_no_key parseNothing noFiles
                           a rels API (sensorStart a) sensorPred noKeysCfg
                           [u "A100"; u "A101"] 2%nat H1 H2 H3 H4))).
  compute_eq.
Defined.

Lemma validate_reports_incomplete_rows_witness :
  (existsb isNullish [fullRow; namelessRow; fullRow; namelessRow] = false
   /\ existsb incomplete [fullRow; namelessRow; fullRow; namelessRow] = true)
  /\ exists rows,
       validate [fullRow; namelessRow; fullRow; namelessRow]
       = Rejected
           (u "Missing required fields in row(s): "
              ++ join (u ", ") (List.map decimal rows))
       /\ rows <> [] /\ StronglySorted lt rows
       /\ validate [fullRow; namelessRow; fullRow; namelessRow]
          = Rejected (u "Missing required fields in row(s): 2, 4").
Proof.
  assert (existsb isNullish [fullRow; namelessRow; fullRow; namelessRow]
          = false) as H1 by compute_eq.
  assert (existsb incomplete [fullRow; namelessRow; fullRow; namelessRow]
          = true) as H2 by compute_eq.
  split; [exact (conj H1 H2) |].
  destruct (validate_reports_incomplete_rows
              [fullRow; namelessRow; fullRow; namelessRow] H1 H2)
    as (rows & Hv & Hne & Hs & _).
  exists rows. split; [exact Hv |]. split; [exact Hne |].
  split; [exact Hs | compute_eq].
Defined.

Lemma skipped_clauses_stay_in_place_witness :
  let a :=
    callWith (segmentsText mixedClauses)
      (answering (memberObjects "assetnum" [u "A100"; u "A101"])) in
  whereOf (params a)
  = u "vendor.name like " ++ quoted "Acme%" ++ u " and asset.assettype="
      ++ quoted "SENSOR"
  /\ exists res,
       applyRelationshipPrefetch parseNothing noFiles a = Ok res
       /\ whereOf (r_params res)
          = u "vendor.name like " ++ quoted "Acme%" ++ u " and (assetnum="
              ++ quoted "A100" ++ u " or assetnum=" ++ quoted "A101"
              ++ u ")".
Proof.
  intros a.
  assert (whereOf (params a) = [] ++ segmentsText mixedClauses) as H1
    by compute_eq.
  assert (plainGap [] = true) as H2 by compute_eq.
  assert (forallb wfSegment mixedClauses = true) as H3 by compute_eq.
  assert (mixedClauses <> []) as H4 by done.
  assert (maximoApiBase a = Ok API) as H5 by compute_eq.
  assert (taken (relsFor noFiles a) mixedClauses = [(assetClause, [])])
    as Htaken by compute_eq.
  assert (keptApart (relsFor noFiles a) mixedClauses) as H6.
  { intros s Hin Hs.
    apply elem_of_cons in Hin as [-> | Hin];
      [| apply list_elem_of_singleton in Hin as ->; by vm_compute in Hs].
    split; [decide_by_computation |].
    intros s' Hs'. rewrite Htaken in Hs'.
    apply list_elem_of_singleton in Hs' as ->. compute_eq. }
  assert (allResolve parseNothing noFiles a (relsFor noFiles a) API
            sampleCfg sampleKeys (taken (relsFor noFiles a) mixedClauses))
    as H7.
  { rewrite Htaken. intros seg Hin.
    apply list_elem_of_singleton in Hin as ->.
    split; [compute_eq |]. split; [compute_eq |].
    split; [intros n; exists 2%nat; compute_eq |].
    split; [decide_by_computation |]. split; [decide_by_computation |].
    intros k Hk. vm_compute in Hk.
    apply elem_of_cons in Hk as [-> | Hk];
      [split; decide_by_computation |].
    apply list_elem_of_singleton in Hk as ->.
    split; decide_by_computation. }
  split; [compute_eq |].
  destruct (skipped_clauses_stay_in_place parseNothing noFiles a API
              sampleCfg sampleKeys [] mixedClauses H1 H2 H3 H4 H5 H6 H7)
    as (res & Hres & _ & Hwhere & _).
  exists res. split; [exact Hres |].
  rewrite Hwhere. compute_eq.
Defined.

Lemma rewritten_filter_holds_skipped_only_witness :
  let a :=
    callWith (segmentsText twoClauses)
      (answering (memberObjects "assetnum" [u "A100"; u "A101"])) in
  exists res,
    applyRelationshipPrefetch parseNothing noFiles a = Ok res
    /\ detectRelationshipPredicates (whereOf (r_params res)) = []
    /\ applyRelationshipPrefetch parseNothing noFiles
         (callWith (whereOf (r_params res)) (failing "unused"))
       = Ok (mkResult emptyPlan
               (params (callWith (whereOf (r_params res)) (failing "unused")))
               []).
Proof.
  intros a.
  assert (whereOf (params a) = [] ++ segmentsText twoClauses) as H1
    by compute_eq.
  assert (plainGap [] = true) as H2 by compute_eq.
  assert (forallb wfSegment twoClauses = true) as H3 by compute_eq.
  assert (twoClauses <> []) as H4 by done.
  assert (maximoApiBase a = Ok API) as H5 by compute_eq.
  assert (forall s, s ∈ twoClauses -> skipped (relsFor noFiles a) (fst s) = false)
    as Hnone.
  { intros s Hin.
    apply elem_of_cons in Hin as [-> | Hin];
      [| apply list_elem_of_singleton in Hin as ->]; compute_eq. }
  assert (keptApart (relsFor noFiles a) twoClauses) as H6.
  { intros s Hin Hs. by rewrite (Hnone s Hin) in Hs. }
  assert (taken (relsFor noFiles a) twoClauses = twoClauses) as Htaken
    by compute_eq.
  assert (allResolve parseNothing noFiles a (relsFor noFiles a) API
            sampleCfg sampleKeys (taken (relsFor noFiles a) twoClauses))
    as H7.
  { rewrite Htaken. intros seg Hin.
    apply elem_of_cons in Hin as [-> | Hin];
      [| apply list_elem_of_singleton in Hin as ->].
    - split; [compute_eq |]. split; [compute_eq |].
      split; [intros n; exists 2%nat; compute_eq |].
      split; [decide_by_computation |]. split; [decide_by_computation |].
      intros k Hk. vm_compute in Hk.
      apply elem_of_cons in Hk as [-> | Hk];
        [split; decide_by_computation |].
      apply list_elem_of_singleton in Hk as ->.
      split; decide_by_computation.
    - split; [compute_eq |]. split; [compute_eq |].
      split; [intros n; exists 0%nat; compute_eq |].
      split; [decide_by_computation |]. split; [decide_by_computation |].
      intros k Hk. vm_compute in Hk. by apply elem_of_nil in Hk. }
  destruct (rewritten_filter_holds_skipped_only parseNothing noFiles a API
              sampleCfg sampleKeys [] twoClauses H1 H2 H3 H4 H5 H6 H7)
    as (res & Hres & Hdet & Hagain).
  exists res. split; [exact Hres |]. split.
  - rewrite Hdet. compute_eq.
  - apply (Hagain Hnone). unfold callWith. cbn [params].
    unfold whereOf at 1. rewrite lookup_singleton. 
    destruct (whereOf (r_params res)); done.
Defined.

